(** * A shallow embedding of the Linux command simulator

    The development follows the three source files of the repository:
    - [src/utils/fileSystem.ts]: the in-memory file tree, [resolvePath],
      [getNode], [createClonedDirectory] and [handleFileSystemCommand];
    - the application component ([executeCommand],
      [handleAutocompleteSuggestions]);
    - [src/components/Terminal.tsx]: the line editor ([performSearch],
      [handleKeyDown]) and the completion vocabulary [commands].

    Modelling conventions.
    - A JavaScript string is a [string]: the UTF-8 bytes of its text (a
      text with an unpaired surrogate has no such bytes and is not
      modelled).  The operations used by the program ([split], [join],
      [startsWith], [includes], [trim], ...) are written out below on
      these bytes; white space is the whole class of [\s] and [trim], and
      lengths are counted in UTF-16 units.
    - The [children] object of a directory is an association list of its own
      properties in insertion order.  Reading [children[name]] in the
      program also finds the names every object inherits
      ([inheritedNames]); [walkInherited] tells when a lookup ends on one
      of them.
    - The global mutable tree [fileSystem] and the React state are passed
      explicitly: every operation takes the state and returns the new one.
    - A number is the rational it stands for; a product is rounded to the
      nearest double ([roundDouble]).  [Math.random] is a stream of
      doubles [r] with [0 <= r < 1]. *)

From Stdlib Require Import String Ascii List Bool Arith ZArith QArith Lia.
From Stdlib Require Import Qround Qpower Lqa DecimalString.
Import ListNotations.

Open Scope nat_scope.
Open Scope list_scope.
Open Scope string_scope.

(** ** JavaScript string primitives *)

Module JS.

  (** The line feed, the double quote and the backslash characters. *)
Definition nl : string := String "010"%char "".
Definition dq : string := String "034"%char "".
Definition backslash : ascii := "092"%char.

Definition startsWith (s p : string) : bool := String.prefix p s.

Fixpoint includes (s q : string) : bool :=
    String.prefix q s ||
    match s with
    | "" => false
    | String _ s' => includes s' q
    end.

Definition cons_head (c : ascii) (l : list string) : list string :=
    match l with
    | [] => [String c ""]
    | h :: t => String c h :: t
    end.

  (** [s.split(sep)] for a non-empty [sep]: [skip] counts the characters of
      a separator occurrence that are still to be passed over. *)
Fixpoint split_go (sep : string) (skip : nat) (s : string) : list string :=
    match s with
    | "" => [""]
    | String c s' =>
        match skip with
        | S k => split_go sep k s'
        | O =>
            if String.prefix sep s
            then "" :: split_go sep (String.length sep - 1) s'
            else cons_head c (split_go sep 0 s')
        end
    end.

Definition split (sep s : string) : list string := split_go sep 0 s.

Definition join (sep : string) (l : list string) : string :=
    String.concat sep l.

  (** [l.filter(p => p)]: the non-empty strings of [l]. *)
Definition truthy (s : string) : bool := negb (s =? "").
Definition nonempty (l : list string) : list string := filter truthy l.

(** The width in bytes of a white-space character at the head of [s],
    [0] when there is none.  The class is the one of [\s] and of [trim]:
    tab, line feed, vertical tab, form feed, carriage return and space;
    U+00A0; U+1680; U+2000 to U+200A; U+2028, U+2029, U+202F; U+205F;
    U+3000; U+FEFF. *)
Definition ws_width (s : string) : nat :=
    match s with
    | "" => 0
    | String c1 r1 =>
        let b1 := nat_of_ascii c1 in
        if ((b1 =? 32) || ((9 <=? b1) && (b1 <=? 13)))%nat then 1
        else
          match r1 with
          | "" => 0
          | String c2 r2 =>
              let b2 := nat_of_ascii c2 in
              if ((b1 =? 194) && (b2 =? 160))%nat then 2
              else
                match r2 with
                | "" => 0
                | String c3 _ =>
                    let b3 := nat_of_ascii c3 in
                    if ((b1 =? 225) && (b2 =? 154) && (b3 =? 128))%nat then 3
                    else if ((b1 =? 226) && (b2 =? 128)
                             && (((128 <=? b3) && (b3 <=? 138)) || (b3 =? 168)
                                 || (b3 =? 169) || (b3 =? 175)))%nat then 3
                    else if ((b1 =? 226) && (b2 =? 129) && (b3 =? 159))%nat then 3
                    else if ((b1 =? 227) && (b2 =? 128) && (b3 =? 128))%nat then 3
                    else if ((b1 =? 239) && (b2 =? 187) && (b3 =? 191))%nat then 3
                    else 0
                end
          end
    end.

(** [skip] counts the bytes of a white-space character that are still to
    be passed over. *)
Fixpoint trimStart_go (skip : nat) (s : string) : string :=
    match s with
    | "" => ""
    | String _ s' =>
        match skip with
        | S k => trimStart_go k s'
        | O =>
            match ws_width s with
            | O => s
            | S k => trimStart_go k s'
            end
        end
    end.

Definition trimStart (s : string) : string := trimStart_go 0 s.

Fixpoint all_space_go (skip : nat) (s : string) : bool :=
    match s with
    | "" => (skip =? 0)%nat
    | String _ s' =>
        match skip with
        | S k => all_space_go k s'
        | O =>
            match ws_width s with
            | O => false
            | S k => all_space_go k s'
            end
        end
    end.

Definition all_space (s : string) : bool := all_space_go 0 s.

Fixpoint trimEnd (s : string) : string :=
    match s with
    | "" => ""
    | String c s' => if all_space s then "" else String c (trimEnd s')
    end.

Definition trim (s : string) : string := trimEnd (trimStart s).

  (** [s.split(/\s+/)]: [in_run] tells that the previous character was
      white space, so that a run of white space separates once; [skip] as
      above. *)
Fixpoint split_ws_go (skip : nat) (in_run : bool) (s : string) : list string :=
    match s with
    | "" => [""]
    | String c s' =>
        match skip with
        | S k => split_ws_go k in_run s'
        | O =>
            match ws_width s with
            | O => cons_head c (split_ws_go 0 false s')
            | S k =>
                if in_run then split_ws_go k true s'
                else "" :: split_ws_go k true s'
            end
        end
    end.

Definition split_ws (s : string) : list string := split_ws_go 0 false s.

Definition lower (c : ascii) : ascii :=
    let n := nat_of_ascii c in
    if ((65 <=? n) && (n <=? 90))%nat then ascii_of_nat (n + 32) else c.

(** [s.toLowerCase()], as far as the program can tell: the result is only
    compared with constants made of ASCII letters and a space, and the
    characters whose lower-case form is made of ASCII letters are the
    ASCII capitals and the Kelvin sign U+212A (bytes 226, 132, 170), which
    becomes [k]; every other character is left as it is. *)
Fixpoint toLowerCase (s : string) : string :=
    match s with
    | "" => ""
    | String c s' =>
        match s' with
        | String c2 (String c3 rest) =>
            if ((nat_of_ascii c =? 226) && (nat_of_ascii c2 =? 132)
                && (nat_of_ascii c3 =? 170))%nat
            then String "k" (toLowerCase rest)
            else String (lower c) (toLowerCase s')
        | _ => String (lower c) (toLowerCase s')
        end
    end.

(** [s.length]: the UTF-16 units of the text, none for a continuation
    byte, two for the first byte of a four-byte character, one for any
    other byte. *)
Definition unitsOfByte (c : ascii) : nat :=
    let b := nat_of_ascii c in
    if ((128 <=? b) && (b <? 192))%nat then 0
    else if (240 <=? b)%nat then 2 else 1.

Fixpoint length16 (s : string) : nat :=
    match s with
    | "" => 0
    | String c s' => unitsOfByte c + length16 s'
    end.

(** [s.lastIndexOf(needle)], [-1] when there is no occurrence. *)
Fixpoint lastIndexOf_go (needle : string) (s : string) (i : Z) : Z :=
    match s with
    | "" => if String.prefix needle "" then i else (-1)%Z
    | String _ s' =>
        let later := lastIndexOf_go needle s' (i + 1)%Z in
        if (0 <=? later)%Z then later
        else if String.prefix needle s then i else (-1)%Z
    end.

Definition lastIndexOf (s needle : string) : Z := lastIndexOf_go needle s 0%Z.

  (** [s.substring(a, b)] and [s.substring(a)]: indices are clamped to
      [0 .. length] and swapped when [a > b]. *)
Definition clamp (s : string) (i : Z) : nat :=
    Nat.min (Z.to_nat i) (String.length s).

Definition substring (s : string) (a b : Z) : string :=
    let a' := clamp s a in
    let b' := clamp s b in
    String.substring (Nat.min a' b') (Nat.max a' b' - Nat.min a' b') s.

Definition substringFrom (s : string) (a : Z) : string :=
    let a' := clamp s a in
    String.substring a' (String.length s - a') s.

Fixpoint drop (n : nat) (s : string) : string :=
    match n, s with
    | O, _ => s
    | S k, "" => ""
    | S k, String _ s' => drop k s'
    end.

  (** [s.replace(pat, '')] with a string pattern: the first occurrence of
      [pat] is removed, nothing else. *)
Fixpoint removeFirst (pat : string) (s : string) : string :=
    if String.prefix pat s then drop (String.length pat) s
    else match s with
         | "" => ""
         | String c s' => String c (removeFirst pat s')
         end.

  (** [l.pop()] leaves an empty array empty. *)
Definition pop {A} (l : list A) : list A := removelast l.

  (** [l[l.length - 1]] through [pop()]'s result, [undefined] as [None]. *)
Definition popped {A} (l : list A) : option A := nth_error (rev l) 0.

End JS.

(** ** The file tree ([src/utils/fileSystem.ts]) *)

#[warnings="-register-all"]
Inductive FileSystemNode : Type :=
| File (content : string)
| Directory (children : list (string * FileSystemNode)).

Definition Children := list (string * FileSystemNode).

(** [children[name]] among the own properties of the object. *)
Fixpoint prop_get (children : Children) (name : string) : option FileSystemNode :=
  match children with
  | [] => None
  | (k, v) :: rest => if k =? name then Some v else prop_get rest name
  end.

(** [children[name] = v]: an existing property keeps its place, a new one
    is added last. *)
Fixpoint prop_set (children : Children) (name : string) (v : FileSystemNode) : Children :=
  match children with
  | [] => [(name, v)]
  | (k, w) :: rest =>
      if k =? name then (k, v) :: rest else (k, w) :: prop_set rest name v
  end.

(** The names that the read [children[name]] also finds on every object:
    the properties of [Object.prototype].  Their values are functions (an
    object for [__proto__]), so such a read is truthy although the
    directory has no entry of that name; the value has no [type], so a walk
    cannot go on through it. *)
Definition inheritedNames : list string :=
  [ "constructor"; "__defineGetter__"; "__defineSetter__"; "hasOwnProperty";
    "__lookupGetter__"; "__lookupSetter__"; "isPrototypeOf";
    "propertyIsEnumerable"; "toString"; "valueOf"; "__proto__";
    "toLocaleString" ].

Definition inherited (name : string) : bool :=
  existsb (String.eqb name) inheritedNames.

Definition is_directory (n : option FileSystemNode) : bool :=
  match n with
  | Some (Directory _) => true
  | _ => false
  end.

Definition home : string := "/home/kali".

(** [path.split('/').filter(p => p)] *)
Definition parts (path : string) : list string := JS.nonempty (JS.split "/" path).

Definition resolve_step (currentParts : list string) (part : string) : list string :=
  if part =? "." then currentParts
  else if part =? ".." then JS.pop currentParts
  else currentParts ++ [part].

Definition resolvePath (cwd path : string) : string :=
  let resolve (cwd : string) :=
    let currentParts := if cwd =? "/" then [] else parts cwd in
    "/" ++ JS.join "/" (fold_left resolve_step (parts path) currentParts) in
  if JS.startsWith path "/" then resolve "/"
  else if path =? "~" then home
  else resolve cwd.

Fixpoint walk (parts : list string) (currentNode : FileSystemNode) : option FileSystemNode :=
  match parts with
  | [] => Some currentNode
  | part :: rest =>
      match currentNode with
      | File _ => None
      | Directory children =>
          match prop_get children part with
          | None => None
          | Some nextNode => walk rest nextNode
          end
      end
  end.

Definition getNode (fileSystem : FileSystemNode) (path : string) : option FileSystemNode :=
  walk (parts path) fileSystem.

(** The loop of [getNode] takes whatever [children[part]] holds for the next
    node.  On a name that the directory does not hold but every object
    inherits, this is a function of the prototype: if parts remain, its
    [type] is undefined and the result is null, as in [walk]; if it was the
    last part, the function itself is returned, a truthy value that is
    neither a file nor a directory.  [walkInherited] tells when the walk
    ends so; [walk] gives the result in every other case. *)
Fixpoint walkInherited (parts : list string) (currentNode : FileSystemNode) : bool :=
  match parts with
  | [] => false
  | part :: rest =>
      match currentNode with
      | File _ => false
      | Directory children =>
          match prop_get children part with
          | Some nextNode => walkInherited rest nextNode
          | None =>
              match rest with
              | [] => inherited part
              | _ :: _ => false
              end
          end
      end
  end.

Definition getNodeInherited (fileSystem : FileSystemNode) (path : string) : bool :=
  walkInherited (parts path) fileSystem.

(** The node reached by [parts] is replaced by [f] of it: the functional
    reading of mutating, in place, the object that [getNode] returned. *)
Fixpoint update_at (parts : list string) (f : FileSystemNode -> FileSystemNode)
    (node : FileSystemNode) : FileSystemNode :=
  match parts with
  | [] => f node
  | part :: rest =>
      match node with
      | File _ => node
      | Directory children =>
          match prop_get children part with
          | None => node
          | Some nextNode => Directory (prop_set children part (update_at rest f nextNode))
          end
      end
  end.

Definition mutate (fileSystem : FileSystemNode) (path : string)
    (f : FileSystemNode -> FileSystemNode) : FileSystemNode :=
  update_at (parts path) f fileSystem.

Definition set_child (name : string) (v : FileSystemNode) (node : FileSystemNode) : FileSystemNode :=
  match node with
  | File _ => node
  | Directory children => Directory (prop_set children name v)
  end.

Definition set_content (content : string) (node : FileSystemNode) : FileSystemNode :=
  match node with
  | File _ => File content
  | Directory _ => node
  end.

Definition clonedTree (repoName : string) : FileSystemNode :=
  Directory
    [ (".git", Directory []);
      ("README.md",
        File ("# " ++ repoName ++ JS.nl ++ JS.nl ++ "A repository cloned with the simulator."));
      ("src",
        Directory
          [ ("main.js",
              File ("console.log(" ++ JS.dq ++ "Hello, World!" ++ JS.dq ++ ");")) ]) ].

Definition createClonedDirectory (cwd repoName : string) (fileSystem : FileSystemNode)
    : bool * FileSystemNode :=
  let parentPath := cwd in
  match getNode fileSystem parentPath with
  | Some (Directory children) =>
      match prop_get children repoName with
      | Some _ => (false, fileSystem)
      | None =>
          if inherited repoName then (false, fileSystem)
          else (true, mutate fileSystem parentPath (set_child repoName (clonedTree repoName)))
      end
  | _ => (false, fileSystem)
  end.

(** [Object.keys(children)]: the array-index names in ascending numeric
    order, then the other names in insertion order. *)
Definition is_digit (c : ascii) : bool :=
  ((48 <=? nat_of_ascii c) && (nat_of_ascii c <=? 57))%nat.

Fixpoint digits_value (s : string) (acc : N) : option N :=
  match s with
  | "" => Some acc
  | String c s' =>
      if is_digit c
      then digits_value s' (acc * 10 + N.of_nat (nat_of_ascii c - 48))%N
      else None
  end.

Definition array_index (name : string) : option N :=
  match name with
  | "" => None
  | String c rest =>
      if (c =? "0")%char && negb (rest =? "") then None
      else match digits_value name 0%N with
           | Some n => if (n <? 4294967295)%N then Some n else None
           | None => None
           end
  end.

Fixpoint insert_index (k : N * string) (l : list (N * string)) : list (N * string) :=
  match l with
  | [] => [k]
  | h :: t => if (fst k <=? fst h)%N then k :: l else h :: insert_index k t
  end.

Fixpoint index_keys (names : list string) : list (N * string) :=
  match names with
  | [] => []
  | name :: rest =>
      match array_index name with
      | Some n => insert_index (n, name) (index_keys rest)
      | None => index_keys rest
      end
  end.

Definition is_index (name : string) : bool :=
  match array_index name with Some _ => true | None => false end.

Definition object_keys (children : Children) : list string :=
  let names := map fst children in
  map snd (index_keys names) ++ filter (fun name => negb (is_index name)) names.

(** The result of a built-in: the returned text ([None] for [null]), the
    working directory after [setCwd] and the tree after the mutations. *)
Record FsResult : Type := mkFsResult {
  returned : option string;
  new_cwd : string;
  new_fs : FileSystemNode
}.

Definition fixedShebang : string := "#!/data/data/com.termux/files/usr/bin/python3".

(** The separator of the shebang rewrite, as written in the source: a
    backslash followed by the letter n. *)
Definition shebangSeparator : string := String JS.backslash "n".

Definition mkdirMessage (targetPath reason : string) : string :=
  "mkdir: cannot create directory ‘" ++ targetPath ++ "’: " ++ reason.

Definition listing (children : Children) (args : list string) : string :=
  let items := object_keys children in
  let showAll := existsb (String.eqb "-a") args in
  let items :=
    if showAll then items
    else filter (fun item => negb (JS.startsWith item ".")) items in
  JS.join JS.nl
    (map (fun item =>
            match prop_get children item with
            | Some (Directory _) => item ++ "/"
            | _ => item
            end) items).

(** [args[0]], [undefined] and the empty string both being falsy. *)
Definition arg0 (args : list string) : option string :=
  match args with
  | a :: _ => if a =? "" then None else Some a
  | [] => None
  end.

(** [args[0] || '/home/kali'] *)
Definition cdTarget (args : list string) : string :=
  match arg0 args with
  | Some a => a
  | None => "/home/kali"
  end.

Definition builtin (command : string) (args : list string) (cwd : string)
    (fileSystem : FileSystemNode) : FsResult :=
  let ret (text : string) := mkFsResult (Some text) cwd fileSystem in
  if command =? "pwd" then ret cwd
  else if command =? "cd" then
    let target := cdTarget args in
    let newPath := resolvePath cwd target in
    match getNode fileSystem newPath with
    | Some (Directory _) => mkFsResult (Some "") newPath fileSystem
    | _ => ret ("cd: no such file or directory: " ++ target)
    end
  else if command =? "ls" then
    match getNode fileSystem cwd with
    | Some (Directory children) => ret (listing children args)
    | _ => ret ("ls: cannot access " ++ cwd ++ ": No such file or directory")
    end
  else if command =? "cat" then
    match arg0 args with
    | None => ret "cat: missing operand"
    | Some a =>
        match getNode fileSystem (resolvePath cwd a) with
        | Some (File content) => ret content
        | Some (Directory _) => ret ("cat: " ++ a ++ ": Is a directory")
        | None =>
            if getNodeInherited fileSystem (resolvePath cwd a)
            then ret ("cat: " ++ a ++ ": Is a directory")
            else ret ("cat: " ++ a ++ ": No such file or directory")
        end
    end
  else if command =? "mkdir" then
    match arg0 args with
    | None => ret "mkdir: missing operand"
    | Some targetPath =>
        let fullPath := resolvePath cwd targetPath in
        match getNode fileSystem fullPath with
        | Some _ => ret (mkdirMessage targetPath "File exists")
        | None =>
            if getNodeInherited fileSystem fullPath
            then ret (mkdirMessage targetPath "File exists")
            else
            let cut := JS.lastIndexOf fullPath "/" in
            let parentPath :=
              let p := JS.substring fullPath 0 cut in
              if p =? "" then "/" else p in
            let newDirName := JS.substringFrom fullPath (cut + 1) in
            if newDirName =? "" then ret (mkdirMessage targetPath "Invalid argument")
            else
              match getNode fileSystem parentPath with
              | Some (Directory _) =>
                  mkFsResult (Some "") cwd
                    (mutate fileSystem parentPath (set_child newDirName (Directory [])))
              | _ => ret (mkdirMessage targetPath "No such file or directory")
              end
        end
    end
  else if command =? "whoami" then ret "kali"
  else if command =? "termux-fix-shebang" then
    match arg0 args with
    | None => ret "usage: termux-fix-shebang <file>"
    | Some fileName =>
        let path := resolvePath cwd fileName in
        match getNode fileSystem path with
        | None =>
            if getNodeInherited fileSystem path
            then ret ("termux-fix-shebang: not a file: " ++ fileName)
            else ret ("termux-fix-shebang: file not found: " ++ fileName)
        | Some (Directory _) => ret ("termux-fix-shebang: not a file: " ++ fileName)
        | Some (File content) =>
            match JS.split shebangSeparator content with
            | line0 :: lines =>
                if JS.startsWith line0 "#!" then
                  let oldShebang := line0 in
                  let lines' := fixedShebang :: lines in
                  mkFsResult
                    (Some ("shebang of " ++ fileName ++ " has been rewritten from '"
                           ++ oldShebang ++ "' to '" ++ fixedShebang ++ "'"))
                    cwd
                    (mutate fileSystem path (set_content (JS.join shebangSeparator lines')))
                else ret (fileName ++ " does not have a shebang or is empty.")
            | [] => ret (fileName ++ " does not have a shebang or is empty.")
            end
        end
    end
  else mkFsResult None cwd fileSystem.

Definition handleFileSystemCommand (fullCommand cwd : string)
    (fileSystem : FileSystemNode) : FsResult :=
  match JS.split_ws fullCommand with
  | command :: args => builtin (JS.toLowerCase command) args cwd fileSystem
  | [] => mkFsResult None cwd fileSystem
  end.

(** ** The application component: session state and [executeCommand] *)

Inductive ItemType : Type := command | output.

Record HistoryItem : Type := mkItem {
  type : ItemType;
  content : string
}.

Record AppState : Type := mkApp {
  history : list HistoryItem;
  isLoading : bool;
  cwd : string;
  fileSystem : FileSystemNode
}.

Definition setHistory (f : list HistoryItem -> list HistoryItem) (st : AppState) : AppState :=
  mkApp (f (history st)) (isLoading st) (cwd st) (fileSystem st).

Definition setIsLoading (b : bool) (st : AppState) : AppState :=
  mkApp (history st) b (cwd st) (fileSystem st).

Definition append (item : HistoryItem) (prev : list HistoryItem) : list HistoryItem :=
  prev ++ [item].

(** The updater of the streaming loop: the entry at [historyIndex] takes
    the text [currentOutput] when it is an output entry. *)
Fixpoint streamInto (historyIndex : nat) (currentOutput : string)
    (prev : list HistoryItem) : list HistoryItem :=
  match prev, historyIndex with
  | [], _ => []
  | target :: rest, O =>
      match type target with
      | output => mkItem output currentOutput :: rest
      | command => prev
      end
  | item :: rest, S k => item :: streamInto k currentOutput rest
  end.

(** The loop [for (const line of progressLines)]; the delay before each
    line only spaces the updates in time. *)
Fixpoint stream (historyIndex : nat) (progressLines : list string)
    (currentOutput : string) (st : AppState) : AppState :=
  match progressLines with
  | [] => st
  | line :: rest =>
      let currentOutput := currentOutput ++ JS.nl ++ line in
      stream historyIndex rest currentOutput
        (setHistory (streamInto historyIndex currentOutput) st)
  end.

Definition cloneProgressLines : list string :=
  [ "remote: Enumerating objects: 23, done.";
    "remote: Counting objects: 100% (23/23), done.";
    "remote: Compressing objects: 100% (13/13), done.";
    "remote: Total 23 (delta 5), reused 20 (delta 5), pack-reused 0";
    "Receiving objects: 100% (23/23), 4.68 KiB | 4.68 MiB/s, done.";
    "Resolving deltas: 100% (5/5), done." ].

(** [repoUrl.split('/').pop()?.replace('.git', '') || 'repository'] *)
Definition repoNameOf (repoUrl : string) : string :=
  match JS.popped (JS.split "/" repoUrl) with
  | Some segment =>
      let name := JS.removeFirst ".git" segment in
      if name =? "" then "repository" else name
  | None => "repository"
  end.

(** [trimmedCommand.split(/\s+/)[2]], a missing or empty token being falsy. *)
Definition cloneUrl (trimmedCommand : string) : option string :=
  match nth_error (JS.split_ws trimmedCommand) 2 with
  | Some url => if url =? "" then None else Some url
  | None => None
  end.

Definition finish (text : string) (st : AppState) : AppState :=
  setIsLoading false (setHistory (append (mkItem output text)) st).

(** The branch [git clone]; [historyIndex] is computed from the history
    the callback closed over, the one before the command was echoed. *)
Definition gitClone (trimmedCommand : string) (closedHistory : list HistoryItem)
    (st : AppState) : AppState :=
  match cloneUrl trimmedCommand with
  | None => finish "fatal: You must specify a repository to clone." st
  | Some repoUrl =>
      let repoName := repoNameOf repoUrl in
      match getNode (fileSystem st) (cwd st ++ "/" ++ repoName) with
      | Some _ =>
          finish ("fatal: destination path '" ++ repoName
                  ++ "' already exists and is not an empty directory.") st
      | None =>
          if getNodeInherited (fileSystem st) (cwd st ++ "/" ++ repoName)
          then finish ("fatal: destination path '" ++ repoName
                       ++ "' already exists and is not an empty directory.") st
          else
          let initialOutput := "Cloning into '" ++ repoName ++ "'..." in
          let historyIndex := List.length closedHistory + 1 in
          let st := setHistory (append (mkItem output initialOutput)) st in
          let st := stream historyIndex cloneProgressLines initialOutput st in
          let fs' := snd (createClonedDirectory (cwd st) repoName (fileSystem st)) in
          setIsLoading false (mkApp (history st) (isLoading st) (cwd st) fs')
      end
  end.

(** The commit pattern, one alternative at one position:
    [-m], white space, the quote [q], one or more characters other than
    [q], the quote [q].  Every repetition is followed by a character it
    cannot itself take, so the greedy run is the only way to match. *)
Definition skipSpaces (s : string) : string := JS.trimStart s.

Fixpoint upTo (q : ascii) (s : string) : string :=
  match s with
  | "" => ""
  | String c s' => if (c =? q)%char then "" else String c (upTo q s')
  end.

Definition quotedAt (q : ascii) (s : string) : option string :=
  match s with
  | String a (String b rest) =>
      if (a =? "-")%char && (b =? "m")%char && (0 <? JS.ws_width rest)%nat then
        match skipSpaces rest with
        | String c' body =>
            if (c' =? q)%char then
              let message := upTo q body in
              if message =? "" then None
              else match JS.drop (String.length message) body with
                   | String c'' _ => if (c'' =? q)%char then Some message else None
                   | "" => None
                   end
            else None
        | "" => None
        end
      else None
  | _ => None
  end.

(** [trimmedCommand.match(commitRegex)]: the leftmost position where an
    alternative matches, the double-quoted one tried first; the pair holds
    the two capture groups. *)
Fixpoint commitMatch (s : string) : option (option string * option string) :=
  match quotedAt "034" s with
  | Some m => Some (Some m, None)
  | None =>
      match quotedAt "'" s with
      | Some m => Some (None, Some m)
      | None =>
          match s with
          | "" => None
          | String _ s' => commitMatch s'
          end
      end
  end.

(** [a || b] on two capture groups; [None] stands for a falsy result. *)
Definition firstTruthy (a b : option string) : option string :=
  match a with
  | Some x => if x =? "" then (match b with Some y => if y =? "" then None else Some y | None => None end)
              else Some x
  | None => match b with Some y => if y =? "" then None else Some y | None => None end
  end.

(** A template literal's rendering of an integer. *)
Definition numberToString (n : Z) : string := NilZero.string_of_int (Z.to_int n).

Definition hexDigits : string := "0123456789abcdef".

(** [s[i]] inside [Array.join]: an index out of range gives [undefined],
    which [join] renders as the empty string. *)
Definition charAt (s : string) (i : Z) : string :=
  if (i <? 0)%Z then ""
  else match String.get (Z.to_nat i) s with
       | Some c => String c ""
       | None => ""
       end.

(** Computations that call [Math.random]: the state is the number of
    calls made so far. *)
(** [x * y] on numbers is the exact product rounded to the nearest double,
    a tie going to the even significand.  [binade q] is the exponent [e]
    with [2^e <= q < 2^(e+1)]; the doubles of that binade are the multiples
    of [2^(e-52)], and below [2^-1022] of [2^-1074].  (No product of the
    program comes near the largest double.) *)
Definition pow2 (e : Z) : Q := Qpower 2 e.

Definition roundHalfEven (q : Q) : Z :=
  let f := Qfloor q in
  match (q - inject_Z f ?= 1 # 2)%Q with
  | Lt => f
  | Gt => (f + 1)%Z
  | Eq => if Z.even f then f else (f + 1)%Z
  end.

Definition binade (q : Q) : Z :=
  let e := (Z.log2 (Qnum q) - Z.log2 (Zpos (Qden q)))%Z in
  if Qle_bool (pow2 e) q then e else (e - 1)%Z.

Definition roundPositive (q : Q) : Q :=
  let u := pow2 (Z.max (binade q) (-1022) - 52) in
  (inject_Z (roundHalfEven (q / u)) * u)%Q.

Definition roundDouble (q : Q) : Q :=
  match (q ?= 0)%Q with
  | Eq => 0%Q
  | Gt => roundPositive q
  | Lt => (- roundPositive (- q))%Q
  end.

Definition product (x y : Q) : Q := roundDouble (x * y).

Definition Rand (A : Type) : Type := nat -> A * nat.

Definition ret {A} (a : A) : Rand A := fun calls => (a, calls).

Definition bind {A B} (m : Rand A) (k : A -> Rand B) : Rand B :=
  fun calls => let (a, calls') := m calls in k a calls'.

Notation "x <- m ;; k" := (bind m (fun x => k))
  (at level 61, m at next level, right associativity).

Fixpoint times {A} (n : nat) (m : Rand A) : Rand (list A) :=
  match n with
  | O => ret []
  | S k => x <- m ;; xs <- times k m ;; ret (x :: xs)
  end.

Section Simulator.

  (** The values [Math.random] returns, in call order. *)
Variable random : nat -> Q.

  (** The external responder of the fallback path: its text, or the
      message of the error it rejects with. *)
Variable simulateCommandOutput : string -> string + string.

  (** [new Date(Date.now() - x).toUTCString()] *)
Variable utcStringAgo : Q -> string.

Definition mathRandom : Rand Q := fun calls => (random calls, S calls).

  (** [Math.floor(Math.random() * n)] *)
Definition randomBelow (n : Z) : Rand Z :=
    r <- mathRandom ;; ret (Qfloor (product r (inject_Z n))).

  (** [Array.from({length: len}, () => hexDigits[...]).join('')] *)
Definition randomHex (len : nat) : Rand string :=
    digits <- times len (k <- randomBelow 16 ;; ret (charAt hexDigits k)) ;;
    ret (JS.join "" digits).

Definition commitOutput (message : string) : Rand string :=
    commitHash <- randomHex 7 ;;
    filesChanged <- (k <- randomBelow 3 ;; ret (k + 1)%Z) ;;
    insertions <- (k <- randomBelow 20 ;; ret (k + 1)%Z) ;;
    ret ("[main " ++ commitHash ++ "] " ++ message ++ JS.nl ++ " "
         ++ numberToString filesChanged ++ " file changed, "
         ++ numberToString insertions ++ " insertions(+)").

Definition missingMessage : string :=
    "fatal: You must specify a commit message with -m " ++ JS.dq ++ "<message>" ++ JS.dq.

Definition gitCommit (trimmedCommand : string) (st : AppState) : AppState :=
    match commitMatch trimmedCommand with
    | None => finish missingMessage st
    | Some (g1, g2) =>
        match firstTruthy g1 g2 with
        | None => finish "fatal: commit message is empty." st
        | Some message => finish (fst (commitOutput message 0)) st
        end
    end.

  (** [git log]: three to five records, the first one the branch head. *)
Definition commitMessages : list string :=
    [ "feat: Implement user authentication";
      "fix: Correct rendering issue on Firefox";
      "docs: Update README with installation instructions";
      "refactor: Simplify component logic";
      "chore: Bump dependency versions" ].

Definition generateCommit (message : string) (isHead : bool) : Rand string :=
    hash <- randomHex 40 ;;
    r <- mathRandom ;;
    let author := "Kali User <kali@example.com>" in
    let date := utcStringAgo (product r (inject_Z 31536000000)) in
    let commitLine :=
      "commit " ++ hash ++ (if isHead then " (HEAD -> main, origin/main)" else "") in
    ret (JS.join JS.nl
           [commitLine; "Author: " ++ author; "Date:   " ++ date; ""; "    " ++ message]).

Fixpoint logRecords (i count : nat) : Rand (list string) :=
    match count with
    | O => ret []
    | S k =>
        idx <- randomBelow (Z.of_nat (List.length commitMessages)) ;;
        let message :=
          if (idx <? 0)%Z then "undefined"
          else nth (Z.to_nat idx) commitMessages "undefined" in
        record <- generateCommit message (i =? 0)%nat ;;
        others <- logRecords (S i) k ;;
        ret (record :: others)
    end.

Definition gitLog : Rand string :=
    k <- randomBelow 3 ;;
    records <- logRecords 0 (Z.to_nat (k + 3)) ;;
    ret (JS.join (JS.nl ++ JS.nl) records).

  (** [git diff]: one of two fictional files; the index is in range for
      every value [Math.random] can return, and the first file stands for
      the others. *)
Definition fictionalFiles : list (string * string * string) :=
    [ ("src/main.js",
       "console.log(" ++ JS.dq ++ "Hello, World!" ++ JS.dq ++ ");",
       "console.log(" ++ JS.dq ++ "Hello, Git!" ++ JS.dq ++ ");" ++ JS.nl
         ++ "+const version = " ++ JS.dq ++ "1.1" ++ JS.dq ++ ";");
      ("README.md",
       "A repository cloned with the simulator.",
       "A repository for the awesome simulator project.") ].

Definition gitDiff : Rand string :=
    idx <- randomBelow (Z.of_nat (List.length fictionalFiles)) ;;
    let '(name, oldContent, newContent) :=
      nth (Z.to_nat idx) fictionalFiles ("src/main.js", "", "") in
    let oldLinesCount := Z.of_nat (List.length (JS.split JS.nl oldContent)) in
    let newLinesCount := Z.of_nat (List.length (JS.split JS.nl newContent)) in
    commitHash1 <- randomHex 7 ;;
    commitHash2 <- randomHex 7 ;;
    ret (JS.join JS.nl
           [ "diff --git a/" ++ name ++ " b/" ++ name;
             "index " ++ commitHash1 ++ ".." ++ commitHash2 ++ " 100644";
             "--- a/" ++ name;
             "+++ b/" ++ name;
             "@@ -1," ++ numberToString oldLinesCount ++ " +1,"
               ++ numberToString newLinesCount ++ " @@";
             "-" ++ oldContent;
             "+" ++ newContent ]).

Definition fetchProgressLines : Rand (list string) :=
    let remoteUrl := "github.com:example/repository.git" in
    objectsCount <- (k <- randomBelow 10 ;; ret (k + 5)%Z) ;;
    deltaCount <- randomBelow 5 ;;
    let totalCount := (objectsCount - deltaCount)%Z in
    let n := numberToString in
    oldHash <- randomHex 7 ;;
    newHash <- randomHex 7 ;;
    let branchName := "main" in
    ret [ "remote: Enumerating objects: " ++ n objectsCount ++ ", done.";
          "remote: Counting objects: 100% (" ++ n objectsCount ++ "/" ++ n objectsCount
            ++ "), done.";
          "remote: Compressing objects: 100% (" ++ n (objectsCount / 2)%Z ++ "/"
            ++ n (objectsCount / 2)%Z ++ "), done.";
          "remote: Total " ++ n totalCount ++ " (delta " ++ n deltaCount ++ "), reused "
            ++ n totalCount ++ " (delta " ++ n deltaCount ++ "), pack-reused 0";
          "Unpacking objects: 100% (" ++ n totalCount ++ "/" ++ n totalCount ++ "), done.";
          "From " ++ remoteUrl;
          "   " ++ oldHash ++ ".." ++ newHash ++ "  " ++ branchName
            ++ "       -> origin/" ++ branchName ].

Definition gitFetch (closedHistory : list HistoryItem) (st : AppState) : AppState :=
    let initialOutput := "Fetching origin" in
    let historyIndex := List.length closedHistory + 1 in
    let st := setHistory (append (mkItem output initialOutput)) st in
    setIsLoading false
      (stream historyIndex (fst (fetchProgressLines 0)) initialOutput st).

Definition executeCommand (commandLine : string) (st : AppState) : AppState :=
    let trimmedCommand := JS.trim commandLine in
    if trimmedCommand =? "" then st
    else
      let closedHistory := history st in
      let st := setHistory (append (mkItem command trimmedCommand)) st in
      let st := setIsLoading true st in
      if JS.toLowerCase trimmedCommand =? "clear" then
        setIsLoading false (setHistory (fun _ => []) st)
      else if JS.startsWith trimmedCommand "git clone" then
        gitClone trimmedCommand closedHistory st
      else if JS.startsWith trimmedCommand "git commit" then
        gitCommit trimmedCommand st
      else if JS.toLowerCase trimmedCommand =? "git log" then
        finish (fst (gitLog 0)) st
      else if JS.toLowerCase trimmedCommand =? "git diff" then
        finish (fst (gitDiff 0)) st
      else if JS.toLowerCase trimmedCommand =? "git fetch" then
        gitFetch closedHistory st
      else
        let r := handleFileSystemCommand trimmedCommand (cwd st) (fileSystem st) in
        match returned r with
        | Some fileSystemOutput =>
            let st := mkApp (history st) (isLoading st) (new_cwd r) (new_fs r) in
            setIsLoading false
              (if fileSystemOutput =? "" then st
               else setHistory (append (mkItem output fileSystemOutput)) st)
        | None =>
            match simulateCommandOutput trimmedCommand with
            | inl text => finish text st
            | inr errorMessage => finish ("Error: " ++ errorMessage) st
            end
        end.

End Simulator.

Definition handleAutocompleteSuggestions (commandLine : string)
    (suggestions : list string) (st : AppState) : AppState :=
  setHistory
    (fun prev => (prev ++ [ mkItem command commandLine;
                            mkItem output (JS.join "   " suggestions) ])%list)
    st.

(** ** The line editor ([src/components/Terminal.tsx]) *)

Definition commands : list string :=
  [ "ls"; "pwd"; "whoami"; "neofetch"; "apt update";
    "apt install"; "ping"; "help"; "clear"; "cd"; "cat"; "mkdir";
    "git status"; "git log"; "git clone"; "git push"; "git pull"; "git branch";
    "git commit"; "git diff"; "git fetch";
    "termux-fix-shebang" ].

Record TerminalState : Type := mkTerminal {
  input : string;
  isSearching : bool;
  searchQuery : string;
  searchIndex : nat
}.

Record KeyboardEvent : Type := mkKey {
  key : string;
  ctrlKey : bool;
  metaKey : bool;
  altKey : bool
}.

(** [commandHistory.current], recomputed whenever the history changes. *)
Definition commandHistory (h : list HistoryItem) : list string :=
  map content
    (filter (fun item => match type item with command => true | output => false end) h).

Definition setInput (text : string) (t : TerminalState) : TerminalState :=
  mkTerminal text (isSearching t) (searchQuery t) (searchIndex t).

Definition setSearchQuery (q : string) (t : TerminalState) : TerminalState :=
  mkTerminal (input t) (isSearching t) q (searchIndex t).

Definition setSearchIndex (i : nat) (t : TerminalState) : TerminalState :=
  mkTerminal (input t) (isSearching t) (searchQuery t) i.

Definition setIsSearching (b : bool) (t : TerminalState) : TerminalState :=
  mkTerminal (input t) b (searchQuery t) (searchIndex t).

Definition exitSearchMode (t : TerminalState) : TerminalState :=
  setSearchQuery "" (setIsSearching false t).

(** The loop of [performSearch], [i] running from [startIndex - 1] down to
    [0]; reading an entry past the end of the log throws ([None]). *)
Fixpoint searchFrom (log : list string) (query : string) (startIndex : nat)
    (t : TerminalState) : option TerminalState :=
  match startIndex with
  | O => Some t
  | S i =>
      match nth_error log i with
      | None => None
      | Some entry =>
          if JS.includes entry query
          then Some (setSearchIndex i (setInput entry t))
          else searchFrom log query i t
      end
  end.

Definition performSearch (log : list string) (query : string) (startIndex : nat)
    (t : TerminalState) : option TerminalState :=
  if query =? "" then Some (setInput "" t)
  else searchFrom log query startIndex t.

Definition isContinuation (c : ascii) : bool :=
  ((128 <=? nat_of_ascii c) && (nat_of_ascii c <? 192))%nat.

Fixpoint allContinuation (s : string) : bool :=
  match s with
  | "" => true
  | String c s' => isContinuation c && allContinuation s'
  end.

(** [s.slice(0, -1)]: the text without its last UTF-16 unit, that is
    without the bytes of its last character.  (For a last character
    outside the basic plane the program keeps half of it, an unpaired
    surrogate; the search query never holds such a character, see
    [bmpText].) *)
Fixpoint dropLast (s : string) : string :=
  match s with
  | "" => ""
  | String c s' => if allContinuation s' then "" else String c (dropLast s')
  end.

Definition isSearchTrigger (e : KeyboardEvent) : bool :=
  ctrlKey e && (key e =? "r").

Definition isPrintable (e : KeyboardEvent) : bool :=
  (JS.length16 (key e) =? 1)%nat && negb (ctrlKey e) && negb (metaKey e) && negb (altKey e).

(** The handler leaves the application state alone unless it suggests. *)
Definition keep (app : AppState) (r : option TerminalState)
    : option (AppState * TerminalState) :=
  match r with
  | Some t => Some (app, t)
  | None => None
  end.

(** [handleKeyDown] on the application state (for the suggestions
    callback) and the editor state; [None] when the handler throws. *)
Definition handleKeyDown (e : KeyboardEvent) (app : AppState) (t : TerminalState)
    : option (AppState * TerminalState) :=
  let log := commandHistory (history app) in
  let keep := keep app in
  if isSearching t then
    if isSearchTrigger e then
      keep (performSearch log (searchQuery t) (searchIndex t) t)
    else if key e =? "Backspace" then
      let newQuery := dropLast (searchQuery t) in
      let t := setSearchIndex (List.length log) (setSearchQuery newQuery t) in
      keep (performSearch log newQuery (List.length log) t)
    else if isPrintable e then
      let newQuery := searchQuery t ++ key e in
      let t := setSearchIndex (List.length log) (setSearchQuery newQuery t) in
      keep (performSearch log newQuery (List.length log) t)
    else if (key e =? "Escape") || JS.startsWith (key e) "Arrow" then
      Some (app, exitSearchMode t)
    else if key e =? "Enter" then Some (app, exitSearchMode t)
    else Some (app, t)
  else if isSearchTrigger e then
    Some (app, setSearchIndex (List.length log)
                 (setInput "" (setSearchQuery "" (setIsSearching true t))))
  else if key e =? "Tab" then
    let trimmedInput := JS.trim (input t) in
    if trimmedInput =? "" then Some (app, t)
    else
      let matches := filter (fun cmd => JS.startsWith cmd trimmedInput) commands in
      match matches with
      | [only] => Some (app, setInput (only ++ " ") t)
      | _ :: _ :: _ => Some (handleAutocompleteSuggestions (input t) matches app, t)
      | [] => Some (app, t)
      end
  else Some (app, t).

(** ** Vocabulary of the statements *)

Fixpoint has_slash (s : string) : bool :=
  match s with
  | "" => false
  | String c s' => (c =? "/")%char || has_slash s'
  end.

(** A path segment: a non-empty name without a slash. *)
Definition segment (s : string) : Prop := s <> "" /\ has_slash s = false.

(** The segments [resolvePath] ends with, before they are joined. *)
Definition resolvedParts (cwd path : string) : list string :=
  if JS.startsWith path "/" then fold_left resolve_step (parts path) []
  else if path =? "~" then ["home"; "kali"]
  else fold_left resolve_step (parts path) (parts cwd).

(** The resolution rule in the words of the specification: the expression
    is cut at the slashes, empty pieces being dropped; a dot is skipped, a
    double dot removes the last resolved segment if there is one, any other
    segment is added; the result is written with a slash before every
    segment, the empty list as a single slash. *)
Module Spec.

Fixpoint segments_from (current expr : string) : list string :=
  match expr with
  | "" => if current =? "" then [] else [current]
  | String c rest =>
      if (c =? "/")%char
      then if current =? "" then segments_from "" rest
           else current :: segments_from "" rest
      else segments_from (current ++ String c "") rest
  end.

Definition segments (expr : string) : list string := segments_from "" expr.

Definition popLast (resolved : list string) : list string :=
  match rev resolved with
  | [] => []
  | _ :: others => rev others
  end.

Fixpoint resolveSegments (resolved segs : list string) : list string :=
  match segs with
  | [] => resolved
  | seg :: rest =>
      if seg =? "." then resolveSegments resolved rest
      else if seg =? ".." then resolveSegments (popLast resolved) rest
      else resolveSegments (resolved ++ [seg]) rest
  end.

Definition serialize (resolved : list string) : string :=
  match resolved with
  | [] => "/"
  | _ => String.concat "" (map (fun seg => "/" ++ seg) resolved)
  end.

(** The rule applied to every expression, from the root for an absolute
    expression and from the working directory otherwise. *)
Definition segmentwise (cwd expr : string) : string :=
  serialize
    (resolveSegments (if JS.startsWith expr "/" then [] else segments cwd)
       (segments expr)).

(** The same with the home shorthand of the source in front. *)
Definition resolve (cwd expr : string) : string :=
  if expr =? "~" then "/home/kali" else segmentwise cwd expr.

End Spec.

(** [current] put in front of the first piece of a split. *)
Definition prepend (current : string) (l : list string) : list string :=
  match l with
  | [] => [current]
  | h :: t => (current ++ h) :: t
  end.

(** The tree the session starts with.  The texts of [chroot.py] and of the
    keyboard layout are long constants of the source; they are parameters
    here. *)
Definition seedFileSystem (chrootScriptContent cyberpunkKeyboardLayoutContent : string)
    : FileSystemNode :=
  Directory
    [ ("home",
       Directory
         [ ("kali",
            Directory
              [ ("README.md",
                 File ("Welcome to the Kali Linux command simulator!" ++ JS.nl ++ JS.nl
                       ++ "- Use `ls` to see files and directories." ++ JS.nl
                       ++ "- Use `cd` to navigate." ++ JS.nl
                       ++ "- Try `cat README.md` to see this file's content." ++ JS.nl
                       ++ "- Type `help` for a full list of commands."));
                ("chroot.py", File chrootScriptContent);
                ("Cyberpunk_QWERTY_(US).xml", File cyberpunkKeyboardLayoutContent);
                ("documents",
                 Directory
                   [ ("project_plan.txt",
                      File ("Phase 1: Initial setup." ++ JS.nl
                            ++ "Phase 2: Core feature implementation." ++ JS.nl
                            ++ "Phase 3: Launch.")) ]);
                ("projects",
                 Directory
                   [ ("website",
                      Directory
                        [ ("index.html", File "<h1>Hello, World!</h1>");
                          ("style.css", File "body { color: green; }") ]) ]);
                (".secret_file", File "This is a hidden file. You found it!") ]) ]) ].

(** The seed tree with short stand-ins for the two long texts, for the
    worked examples. *)
Definition exampleTree : FileSystemNode :=
  seedFileSystem ("#!/bin/python3" ++ JS.nl ++ JS.nl ++ "# Usage:") "<?xml?>".

(** The text in front of the last slash of a serialized segment list. *)
Definition dirnameOf (init : list string) : string :=
  match init with
  | [] => ""
  | _ => "/" ++ JS.join "/" init
  end.

(** The name after the last slash of a path, as the mkdir branch cuts it. *)
Definition finalSegment (fullPath : string) : string :=
  JS.substringFrom fullPath (JS.lastIndexOf fullPath "/" + 1).

(** The first match of a backward scan that starts just before [cursor]:
    entry [i] contains the query and no entry between it and the cursor
    does. *)
Definition firstMatchBefore (log : list string) (query : string) (cursor i : nat)
    (entry : string) : Prop :=
  i < cursor /\ nth_error log i = Some entry /\ JS.includes entry query = true /\
  forall j e, i < j < cursor -> nth_error log j = Some e -> JS.includes e query = false.

Definition noMatchBefore (log : list string) (query : string) (cursor : nat) : Prop :=
  forall j e, j < cursor -> nth_error log j = Some e -> JS.includes e query = false.


(** Two characters outside ASCII, by their bytes: the no-break space
    U+00A0, which is white space, and the Kelvin sign U+212A, whose lower
    case is the letter k. *)
Definition noBreakSpace : string := String "194" (String "160" "").
Definition kelvinSign : string := String "226" (String "132" (String "170" "")).

(** A session whose command log is the one of the specification's
    reverse-search scenario. *)
Definition searchScenario : AppState :=
  mkApp [ mkItem command "ls"; mkItem output "README.md";
          mkItem command "cat a.txt"; mkItem command "ls -a" ]
    false "/home/kali" exampleTree.

Definition plainKey (k : string) : KeyboardEvent := mkKey k false false false.
Definition searchTrigger : KeyboardEvent := mkKey "r" true false false.

(** Key presses in a row, stopping if a handler throws. *)
Fixpoint pressAll (keys : list KeyboardEvent) (app : AppState) (t : TerminalState)
    : option (AppState * TerminalState) :=
  match keys with
  | [] => Some (app, t)
  | e :: rest =>
      match handleKeyDown e app t with
      | Some (app', t') => pressAll rest app' t'
      | None => None
      end
  end.

(** Lowercase hexadecimal digits, and runs of them. *)
Definition isLowerHex (c : ascii) : bool :=
  let n := nat_of_ascii c in
  (((48 <=? n) && (n <=? 57)) || ((97 <=? n) && (n <=? 102)))%nat.

Fixpoint allChars (p : ascii -> bool) (s : string) : bool :=
  match s with
  | "" => true
  | String c s' => p c && allChars p s'
  end.

(** A text of the basic plane: no character of four bytes, that is none
    that takes two UTF-16 units. *)
Definition bmpText (s : string) : bool :=
  allChars (fun c => (nat_of_ascii c <? 240)%nat) s.

Fixpoint hexPrefix (n : nat) (s : string) : bool :=
  match n, s with
  | O, _ => true
  | S k, String c s' => isLowerHex c && hexPrefix k s'
  | S _, "" => false
  end.

(** [s] holds [n] lowercase hexadecimal digits in a row somewhere. *)
Fixpoint hasHexRun (n : nat) (s : string) : bool :=
  hexPrefix n s ||
  match s with
  | "" => false
  | String _ s' => hasHexRun n s'
  end.

(** The values [Math.random] may return: from zero up to the largest
    double below one. *)
Definition unitInterval (random : nat -> Q) : Prop :=
  forall calls, (0 <= random calls)%Q /\ (random calls <= 1 - pow2 (-53))%Q.

Definition hexDigit (d : string) : Prop :=
  exists c, d = String c "" /\ isLowerHex c = true.

Fixpoint has_char (q : ascii) (s : string) : bool :=
  match s with
  | "" => false
  | String c s' => (c =? q)%char || has_char q s'
  end.

(** [s] begins with the flag, white space and a non-empty message between
    two quotes [q]. *)
Definition quotedMessageAt (q : ascii) (s message : string) : Prop :=
  exists ws rest,
    s = "-m" ++ ws ++ String q (message ++ String q rest) /\
    ws <> "" /\ JS.all_space ws = true /\
    message <> "" /\ has_char q message = false.

(** A command line with a message the commit pattern can extract: somewhere
    in it, the flag, white space and a non-empty double- or single-quoted
    message. *)
Definition parsable (s : string) : Prop :=
  exists pre tail q message,
    s = pre ++ tail /\ (q = "034"%char \/ q = "'"%char) /\
    quotedMessageAt q tail message.

(** The text of a streamed entry once every progress line has been added. *)
Definition streamedText (initialOutput : string) (progressLines : list string) : string :=
  fold_left (fun text line => text ++ JS.nl ++ line) progressLines initialOutput.

Definition existsMessage (repoName : string) : string :=
  "fatal: destination path '" ++ repoName
  ++ "' already exists and is not an empty directory.".

(** ** Vocabulary of the further properties *)

(** A segment that resolution keeps as a name. *)
Definition plain (s : string) : Prop := segment s /\ s <> "." /\ s <> "..".

(** What a path leads to, as far as a user can tell: nothing, a file with
    its text, or a directory. *)
Inductive Shape : Type :=
| Missing
| FileWith (content : string)
| Dir.

Definition shape (n : option FileSystemNode) : Shape :=
  match n with
  | None => Missing
  | Some (File content) => FileWith content
  | Some (Directory _) => Dir
  end.

(** The verbs [handleFileSystemCommand] answers itself. *)
Definition builtinVerbs : list string :=
  ["pwd"; "cd"; "ls"; "cat"; "mkdir"; "whoami"; "termux-fix-shebang"].

(** The name of a clone as the specification words it: the last piece of
    the URL between slashes without a trailing [.git], or [repository]
    when nothing is left. *)
Module SpecClone.

Fixpoint stripSuffix (suffix s : string) : string :=
  if s =? suffix then ""
  else match s with
       | "" => ""
       | String c s' => String c (stripSuffix suffix s')
       end.

Definition lastPiece (repoUrl : string) : string :=
  last (JS.split "/" repoUrl) "".

Definition repoName (repoUrl : string) : string :=
  let name := stripSuffix ".git" (lastPiece repoUrl) in
  if name =? "" then "repository" else name.

End SpecClone.

(** * Properties *)

(** ** Strings: prefixes, splitting on the slash, joining *)

Section StringFacts.

Lemma append_nil_r (s : string) : s ++ "" = s.
Proof. induction s as [|c s IH]; simpl; [reflexivity | now rewrite IH]. Qed.

Lemma append_assoc (a b c : string) : (a ++ b) ++ c = a ++ (b ++ c).
Proof. induction a as [|x a IH]; simpl; [reflexivity | now rewrite IH]. Qed.

Lemma append_inv_head (a b c : string) : a ++ b = a ++ c -> b = c.
Proof.
    induction a as [|x a IH]; simpl; intros H; [exact H |].
    injection H as H. now apply IH.
Qed.

Lemma length_append (a b : string) :
    String.length (a ++ b) = String.length a + String.length b.
Proof. induction a as [|x a IH]; simpl; [reflexivity | now rewrite IH]. Qed.

Lemma prefix_refl_append (p s : string) : String.prefix p (p ++ s) = true.
Proof.
    induction p as [|c p IH]; simpl; [now destruct s |].
    destruct (ascii_dec c c) as [_|n]; [exact IH | now destruct n].
Qed.

Lemma prefix_true_append (p s : string) :
    String.prefix p s = true -> exists rest, s = p ++ rest.
Proof.
    revert s. induction p as [|c p IH]; intros s H.
    - now exists s.
    - destruct s as [|d s]; simpl in H; [discriminate |].
      destruct (ascii_dec c d) as [->|]; [|discriminate].
      destruct (IH _ H) as [rest ->]. now exists rest.
Qed.

Lemma prefix_one (c d : ascii) (s : string) :
    String.prefix (String c "") (String d s) = (c =? d)%char.
Proof.
    simpl. destruct (ascii_dec c d) as [->|n].
    - rewrite Ascii.eqb_refl. now destruct s.
    - symmetry. now apply Ascii.eqb_neq.
Qed.

End StringFacts.

Section Splitting.

Lemma split_slash_cons (c : ascii) (s : string) :
    JS.split "/" (String c s) =
    if (c =? "/")%char then "" :: JS.split "/" s
    else JS.cons_head c (JS.split "/" s).
Proof.
    unfold JS.split. cbn [JS.split_go].
    rewrite prefix_one, (Ascii.eqb_sym "/" c). reflexivity.
Qed.

Lemma split_not_nil (sep : string) (k : nat) (s : string) : JS.split_go sep k s <> [].
Proof.
    revert k. induction s as [|c s IH]; intros k; cbn [JS.split_go]; [discriminate |].
    destruct k; [|apply IH].
    destruct (String.prefix sep (String c s)); [discriminate |].
    destruct (JS.split_go sep 0 s); discriminate.
Qed.

Lemma cons_head_app (c : ascii) (l m : list string) :
    l <> [] -> JS.cons_head c (l ++ m)%list = (JS.cons_head c l ++ m)%list.
Proof. destruct l; [congruence | reflexivity]. Qed.

Lemma split_slash_app (a b : string) :
    JS.split "/" (a ++ "/" ++ b) = (JS.split "/" a ++ JS.split "/" b)%list.
Proof.
    induction a as [|c a IH].
    - change ("" ++ "/" ++ b) with (String "/" b).
      now rewrite split_slash_cons.
    - change (String c a ++ "/" ++ b) with (String c (a ++ "/" ++ b)).
      rewrite !split_slash_cons, IH.
      destruct (c =? "/")%char; [reflexivity |].
      apply cons_head_app, split_not_nil.
Qed.

Lemma split_no_slash (s : string) : has_slash s = false -> JS.split "/" s = [s].
Proof.
    induction s as [|c s IH]; [reflexivity |].
    simpl. intros H. apply orb_false_iff in H as [Hc Hs].
    rewrite split_slash_cons, Hc, (IH Hs). reflexivity.
Qed.

Lemma split_slash_free (s : string) :
    Forall (fun x => has_slash x = false) (JS.split "/" s).
Proof.
    induction s as [|c s IH]; [repeat constructor |].
    rewrite split_slash_cons.
    destruct (c =? "/")%char eqn:Hc; [now constructor |].
    destruct (JS.split "/" s) as [|h t]; simpl.
    - constructor; [simpl; now rewrite Hc | constructor].
    - inversion IH; subst. constructor; [simpl; now rewrite Hc | assumption].
Qed.

Lemma parts_app (a b : string) : parts (a ++ "/" ++ b) = (parts a ++ parts b)%list.
Proof. unfold parts, JS.nonempty. now rewrite split_slash_app, filter_app. Qed.

Lemma parts_segment (s : string) : segment s -> parts s = [s].
Proof.
    intros [Hne Hs]. unfold parts. rewrite (split_no_slash _ Hs). simpl.
    unfold JS.truthy. destruct (String.eqb_spec s ""); [contradiction | reflexivity].
Qed.

Lemma parts_segments (path : string) : Forall segment (parts path).
Proof.
    unfold parts, JS.nonempty.
    pose proof (split_slash_free path) as H.
    induction H as [|x l Hx _ IH]; simpl; [constructor |].
    unfold JS.truthy at 1. destruct (String.eqb_spec x ""); simpl; [exact IH |].
    constructor; [split; assumption | exact IH].
Qed.

Lemma parts_leading_slash (s : string) : parts ("/" ++ s) = parts s.
Proof. exact (parts_app "" s). Qed.

Lemma parts_join (l : list string) :
    Forall segment l -> parts (JS.join "/" l) = l.
Proof.
    induction 1 as [|x l Hx Hl IH]; [reflexivity |].
    destruct l as [|y l].
    - simpl. now apply parts_segment.
    - change (JS.join "/" (x :: y :: l)) with (x ++ "/" ++ JS.join "/" (y :: l)).
      now rewrite parts_app, IH, (parts_segment _ Hx).
Qed.

Lemma parts_serialized (l : list string) :
    Forall segment l -> parts ("/" ++ JS.join "/" l) = l.
Proof. intros H. now rewrite parts_leading_slash, parts_join. Qed.

End Splitting.

(** ** The tree: properties, walking and updating *)

Section TreeFacts.

Lemma prop_get_set_same (children : Children) (name : string) (v : FileSystemNode) :
    prop_get (prop_set children name v) name = Some v.
Proof.
    induction children as [|[k w] rest IH]; simpl.
    - now rewrite String.eqb_refl.
    - destruct (k =? name) eqn:E; simpl; rewrite E; [reflexivity | exact IH].
Qed.

Lemma prop_get_set_other (children : Children) (name other : string) (v : FileSystemNode) :
    other <> name ->
    prop_get (prop_set children name v) other = prop_get children other.
Proof.
    intros Hne. induction children as [|[k w] rest IH]; simpl.
    - destruct (String.eqb_spec name other); [congruence | reflexivity].
    - destruct (String.eqb_spec k name) as [->|Hk]; simpl.
      + destruct (String.eqb_spec name other); [congruence | reflexivity].
      + destruct (k =? other); [reflexivity | exact IH].
Qed.

Lemma walk_app (p q : list string) (node : FileSystemNode) :
    walk (p ++ q) node =
    match walk p node with
    | Some m => walk q m
    | None => None
    end.
Proof.
    revert node. induction p as [|part p IH]; intros node; simpl; [reflexivity |].
    destruct node as [|children]; [reflexivity |].
    destruct (prop_get children part); [apply IH | reflexivity].
Qed.

Lemma walk_update_at (p : list string) (f : FileSystemNode -> FileSystemNode)
      (node m : FileSystemNode) :
    walk p node = Some m -> walk p (update_at p f node) = Some (f m).
Proof.
    revert node. induction p as [|part p IH]; intros node; simpl.
    - now intros [= ->].
    - destruct node as [|children]; [discriminate |].
      destruct (prop_get children part) as [next|] eqn:E; [|discriminate].
      intros H. simpl. rewrite prop_get_set_same. now apply IH.
Qed.

Lemma walk_new_child (p : list string) (name : string) (v node : FileSystemNode)
      (children : Children) :
    walk p node = Some (Directory children) ->
    walk (p ++ [name]) (update_at p (set_child name v) node) = Some v.
Proof.
    intros H. rewrite walk_app, (walk_update_at _ _ _ _ H). simpl.
    now rewrite prop_get_set_same.
Qed.

Lemma walk_child (p : list string) (name : string) (node : FileSystemNode)
      (children : Children) :
    walk p node = Some (Directory children) ->
    walk (p ++ [name]) node = prop_get children name.
Proof.
    intros H. rewrite walk_app, H. simpl. now destruct (prop_get children name).
Qed.

(** The walk ends on an inherited name exactly when all but the last part
    lead to a directory that has no entry of the last part, an inherited
    name. *)
Lemma walkInherited_nil (node : FileSystemNode) : walkInherited [] node = false.
Proof. reflexivity. Qed.

Lemma walkInherited_snoc (p : list string) (name : string) (node : FileSystemNode) :
    walkInherited (p ++ [name]) node =
    match walk p node with
    | Some (Directory children) =>
        match prop_get children name with
        | Some _ => false
        | None => inherited name
        end
    | _ => false
    end.
Proof.
    revert node. induction p as [|part p IH]; intros node.
    - destruct node as [|children]; [reflexivity |]. simpl.
      now destruct (prop_get children name) as [[|]|].
    - destruct node as [|children]; [reflexivity |].
      change ((part :: p) ++ [name])%list with (part :: (p ++ [name]))%list.
      cbn [walkInherited walk].
      destruct (prop_get children part) as [next|].
      + apply IH.
      + now destruct p.
Qed.

End TreeFacts.

(** ** Path resolution *)

Section ResolutionFacts.

Lemma Forall_removelast {A} (P : A -> Prop) (l : list A) :
    Forall P l -> Forall P (removelast l).
Proof.
    induction 1 as [|x l Hx Hl IH]; simpl; [constructor |].
    destruct l; [constructor | now constructor].
Qed.

Lemma resolve_step_segments (currentParts : list string) (part : string) :
    Forall segment currentParts -> segment part ->
    Forall segment (resolve_step currentParts part).
Proof.
    intros Hc Hp. unfold resolve_step.
    destruct (part =? "."); [exact Hc |].
    destruct (part =? "..").
    - now apply Forall_removelast.
    - apply Forall_app. split; [exact Hc | now constructor].
Qed.

Lemma fold_resolve_segments (ps currentParts : list string) :
    Forall segment ps -> Forall segment currentParts ->
    Forall segment (fold_left resolve_step ps currentParts).
Proof.
    intros Hps. revert currentParts.
    induction Hps as [|part ps Hp _ IH]; intros currentParts Hc; simpl; [exact Hc |].
    apply IH. now apply resolve_step_segments.
Qed.

Lemma parts_root : parts "/" = [].
Proof. reflexivity. Qed.

Lemma resolvePath_parts (cwd path : string) :
    resolvePath cwd path = "/" ++ JS.join "/" (resolvedParts cwd path).
Proof.
    unfold resolvePath, resolvedParts.
    destruct (JS.startsWith path "/"); [reflexivity |].
    destruct (path =? "~"); [reflexivity |].
    destruct (String.eqb_spec cwd "/") as [->|]; reflexivity.
Qed.

Lemma resolvedParts_segments (cwd path : string) :
    Forall segment (resolvedParts cwd path).
Proof.
    unfold resolvedParts.
    destruct (JS.startsWith path "/").
    - apply fold_resolve_segments; [apply parts_segments | constructor].
    - destruct (path =? "~").
      + repeat constructor; discriminate.
      + apply fold_resolve_segments; apply parts_segments.
Qed.

Lemma parts_resolvePath (cwd path : string) :
    parts (resolvePath cwd path) = resolvedParts cwd path.
Proof.
    rewrite resolvePath_parts. apply parts_serialized, resolvedParts_segments.
Qed.

End ResolutionFacts.

(** ** Path resolution against the specification's rule *)

Section ResolutionRefinement.

Lemma prepend_cons_head (current : string) (c : ascii) (l : list string) :
  l <> [] -> prepend current (JS.cons_head c l) = prepend (current ++ String c "") l.
Proof.
  destruct l as [|h t]; [congruence |]. intros _. simpl.
  now rewrite append_assoc.
Qed.

Lemma segments_from_split (current expr : string) :
  Spec.segments_from current expr = JS.nonempty (prepend current (JS.split "/" expr)).
Proof.
  revert current. induction expr as [|c rest IH]; intros current.
  - simpl. rewrite append_nil_r. unfold JS.truthy.
    now destruct (current =? "").
  - cbn [Spec.segments_from]. rewrite split_slash_cons.
    destruct (c =? "/")%char.
    + cbn [prepend JS.nonempty filter]. rewrite append_nil_r.
      rewrite (IH "").
      assert (E : prepend "" (JS.split "/" rest) = JS.split "/" rest).
      { destruct (JS.split "/" rest) eqn:El; [|reflexivity].
        now apply split_not_nil in El. }
      rewrite E. unfold JS.truthy. now destruct (current =? "").
    + rewrite IH. f_equal. symmetry. apply prepend_cons_head, split_not_nil.
Qed.

Lemma segments_parts (expr : string) : Spec.segments expr = parts expr.
Proof.
  unfold Spec.segments, parts. rewrite segments_from_split. f_equal.
  destruct (JS.split "/" expr) eqn:El; [|reflexivity].
  now apply split_not_nil in El.
Qed.

Lemma popLast_pop (resolved : list string) : Spec.popLast resolved = JS.pop resolved.
Proof.
  unfold Spec.popLast, JS.pop.
  destruct resolved as [|x l] using rev_ind; [reflexivity |].
  rewrite rev_app_distr. simpl. now rewrite rev_involutive, removelast_last.
Qed.

Lemma resolveSegments_fold (segs resolved : list string) :
  Spec.resolveSegments resolved segs = fold_left resolve_step segs resolved.
Proof.
  revert resolved. induction segs as [|seg rest IH]; intros resolved; [reflexivity |].
  simpl. unfold resolve_step at 2.
  destruct (seg =? "."); [apply IH |].
  destruct (seg =? ".."); [rewrite popLast_pop |]; apply IH.
Qed.

Lemma serialize_join (resolved : list string) :
  Spec.serialize resolved = "/" ++ JS.join "/" resolved.
Proof.
  destruct resolved as [|x l]; [reflexivity |].
  unfold Spec.serialize. revert x. induction l as [|y l IH]; intros x.
  - reflexivity.
  - change (map (fun seg => "/" ++ seg) (x :: y :: l))
      with (("/" ++ x) :: map (fun seg => "/" ++ seg) (y :: l)).
    change (String.concat "" (("/" ++ x) :: map (fun seg => "/" ++ seg) (y :: l)))
      with (("/" ++ x) ++ "" ++ String.concat "" (map (fun seg => "/" ++ seg) (y :: l))).
    rewrite IH. reflexivity.
Qed.

End ResolutionRefinement.

(** C6 (as amended).  For every working directory and every path
    expression, [resolvePath] returns [/home/kali] for the lone tilde and
    otherwise the result of the specification's rule: the expression cut at
    the slashes without its empty pieces, a dot skipped, a double dot
    removing the last resolved segment (nothing at the root), any other
    segment added, starting from the root for an absolute expression and
    from the segments of the working directory otherwise, and written as a
    slash before every segment, the empty list as a single slash. *)
Theorem resolvePath_refines_rule (cwd path : string) :
  resolvePath cwd path = Spec.resolve cwd path.
Proof.
  rewrite resolvePath_parts.
  unfold Spec.resolve, Spec.segmentwise, resolvedParts.
  rewrite serialize_join, resolveSegments_fold, !segments_parts.
  destruct (JS.startsWith path "/") eqn:Hs.
  - destruct (String.eqb_spec path "~") as [->|]; [discriminate | reflexivity].
  - destruct (path =? "~"); reflexivity.
Qed.

(** C6, counterexample.  The claim lets every expression go through the
    segment rule; the lone tilde does not: from [/home/kali] the rule gives
    [/home/kali/~] and from the root [/~], the program gives [/home/kali]. *)
Lemma resolvePath_tilde_not_segmentwise :
  resolvePath "/home/kali" "~" = "/home/kali" /\
  Spec.segmentwise "/home/kali" "~" = "/home/kali/~" /\
  resolvePath "/home/kali" "~" <> Spec.segmentwise "/home/kali" "~" /\
  resolvePath "/" "~" <> Spec.segmentwise "/" "~".
Proof. repeat split; try reflexivity; discriminate. Qed.

(** Popping at the root is no error and leaves the root. *)
Lemma resolvePath_clamps_at_root (cwd : string) :
  resolvePath cwd "/.." = "/" /\ resolvePath "/" "../.." = "/".
Proof. split; reflexivity. Qed.

(** ** The built-ins, one equation per verb *)

Section Builtins.

Variables (args : list string) (cwd : string) (fileSystem : FileSystemNode).

Lemma builtin_cd :
  builtin "cd" args cwd fileSystem =
  match getNode fileSystem (resolvePath cwd (cdTarget args)) with
  | Some (Directory _) =>
      mkFsResult (Some "") (resolvePath cwd (cdTarget args)) fileSystem
  | _ =>
      mkFsResult (Some ("cd: no such file or directory: " ++ cdTarget args)) cwd fileSystem
  end.
Proof. reflexivity. Qed.

Lemma builtin_ls :
  builtin "ls" args cwd fileSystem =
  mkFsResult
    (Some match getNode fileSystem cwd with
          | Some (Directory children) => listing children args
          | _ => "ls: cannot access " ++ cwd ++ ": No such file or directory"
          end)
    cwd fileSystem.
Proof.
  change (builtin "ls" args cwd fileSystem) with
    (match getNode fileSystem cwd with
     | Some (Directory children) => mkFsResult (Some (listing children args)) cwd fileSystem
     | _ => mkFsResult (Some ("ls: cannot access " ++ cwd ++ ": No such file or directory"))
              cwd fileSystem
     end).
  now destruct (getNode fileSystem cwd) as [[|]|].
Qed.

End Builtins.

Lemma handle_tokens (fullCommand verb : string) (args : list string) (cwd : string)
    (fileSystem : FileSystemNode) :
  JS.split_ws fullCommand = verb :: args ->
  handleFileSystemCommand fullCommand cwd fileSystem =
  builtin (JS.toLowerCase verb) args cwd fileSystem.
Proof. intros H. unfold handleFileSystemCommand. now rewrite H. Qed.

(** C4.  A command line whose verb is [cd] (in any letter case) and whose
    target, [/home/kali] when there is no argument, does not resolve to a
    directory returns exactly [cd: no such file or directory: <target>] and
    changes neither the working directory nor the tree, so that submitting
    it again gives the same result; when the target resolves to a directory
    the working directory becomes the resolved path and the returned text
    is empty. *)
Theorem cd_spec (fileSystem : FileSystemNode) (cwd fullCommand verb : string)
    (args : list string) :
  JS.split_ws fullCommand = verb :: args ->
  JS.toLowerCase verb = "cd" ->
  let target := cdTarget args in
  let newPath := resolvePath cwd target in
  let r := handleFileSystemCommand fullCommand cwd fileSystem in
  (args = [] -> target = home) /\
  (is_directory (getNode fileSystem newPath) = false ->
     r = mkFsResult (Some ("cd: no such file or directory: " ++ target)) cwd fileSystem /\
     handleFileSystemCommand fullCommand (new_cwd r) (new_fs r) = r) /\
  (is_directory (getNode fileSystem newPath) = true ->
     r = mkFsResult (Some "") newPath fileSystem).
Proof.
  intros Htok Hverb target newPath r.
  assert (Hr : r = builtin "cd" args cwd fileSystem).
  { subst r. now rewrite (handle_tokens _ _ _ _ _ Htok), Hverb. }
  rewrite builtin_cd in Hr. fold target in Hr. fold newPath in Hr.
  split; [now intros -> |]. split; intros Hd.
  - assert (E : r = mkFsResult (Some ("cd: no such file or directory: " ++ target))
                      cwd fileSystem).
    { rewrite Hr. destruct (getNode fileSystem newPath) as [[|]|]; try reflexivity.
      discriminate. }
    split; [exact E |].
    rewrite E. simpl. exact E.
  - rewrite Hr. destruct (getNode fileSystem newPath) as [[|]|]; try discriminate.
    reflexivity.
Qed.

Lemma cd_spec_witness :
  JS.split_ws "cd nowhere" = ["cd"; "nowhere"] /\
  JS.toLowerCase "cd" = "cd" /\
  handleFileSystemCommand "cd nowhere" "/home/kali" exampleTree =
  mkFsResult (Some "cd: no such file or directory: nowhere") "/home/kali" exampleTree /\
  handleFileSystemCommand "cd" "/" exampleTree =
  mkFsResult (Some "") "/home/kali" exampleTree /\
  JS.split_ws ("CD documents" ++ noBreakSpace ++ "x") = ["CD"; "documents"; "x"] /\
  handleFileSystemCommand ("CD documents" ++ noBreakSpace ++ "x") "/home/kali" exampleTree =
  mkFsResult (Some "") "/home/kali/documents" exampleTree.
Proof.
  split; [reflexivity |]. split; [reflexivity |]. split; [|split; [|split]].
  - apply (cd_spec exampleTree "/home/kali" "cd nowhere" "cd" ["nowhere"]
             eq_refl eq_refl).
    reflexivity.
  - apply (cd_spec exampleTree "/" "cd" "cd" [] eq_refl eq_refl).
    reflexivity.
  - reflexivity.
  - apply (cd_spec exampleTree "/home/kali" ("CD documents" ++ noBreakSpace ++ "x") "CD"
             ["documents"; "x"] eq_refl eq_refl).
    reflexivity.
Defined.

Lemma filter_all {A} (l : list A) : filter (fun _ => true) l = l.
Proof. induction l as [|x l IH]; simpl; [reflexivity | now rewrite IH]. Qed.

(** The listing, written out: the names in the order of [Object.keys],
    without those that begin with a dot unless [-a] is among the arguments,
    each directory with a slash after its name, one name per line. *)
Lemma listing_shown (children : Children) (args : list string) :
  listing children args =
  JS.join JS.nl
    (map (fun item =>
            match prop_get children item with
            | Some (Directory _) => item ++ "/"
            | _ => item
            end)
       (filter (fun item => existsb (String.eqb "-a") args
                            || negb (JS.startsWith item "."))
          (object_keys children))).
Proof.
  unfold listing. destruct (existsb (String.eqb "-a") args); cbn [orb].
  - now rewrite filter_all.
  - reflexivity.
Qed.

Lemma existsb_flag (args : list string) :
  existsb (String.eqb "-a") args = true <-> In "-a" args.
Proof.
  rewrite existsb_exists. split.
  - intros [x [Hin He]]. apply String.eqb_eq in He. now subst x.
  - intros Hin. exists "-a". split; [exact Hin | apply String.eqb_refl].
Qed.

(** C10.  A command line whose verb is [ls] returns the listing of the
    working directory, whatever its arguments: the names of that directory
    in the order of [Object.keys], a slash after each directory, one per
    line, the names that begin with a dot being left out unless the literal
    [-a] is among the arguments, at any position; when the working
    directory is no directory, the access message about the working
    directory.  No argument is resolved or looked up: two argument lists
    that agree on the presence of [-a] give the same result, and the
    working directory and the tree are unchanged. *)
Theorem ls_lists_cwd_only (fileSystem : FileSystemNode) (cwd fullCommand verb : string)
    (args : list string) :
  JS.split_ws fullCommand = verb :: args ->
  JS.toLowerCase verb = "ls" ->
  let showAll := existsb (String.eqb "-a") args in
  (showAll = true <-> In "-a" args) /\
  handleFileSystemCommand fullCommand cwd fileSystem =
  mkFsResult
    (Some match getNode fileSystem cwd with
          | Some (Directory children) =>
              JS.join JS.nl
                (map (fun item =>
                        match prop_get children item with
                        | Some (Directory _) => item ++ "/"
                        | _ => item
                        end)
                   (filter (fun item => showAll || negb (JS.startsWith item "."))
                      (object_keys children)))
          | _ => "ls: cannot access " ++ cwd ++ ": No such file or directory"
          end)
    cwd fileSystem
  /\
  forall (fullCommand' verb' : string) (args' : list string),
    JS.split_ws fullCommand' = verb' :: args' ->
    JS.toLowerCase verb' = "ls" ->
    (In "-a" args <-> In "-a" args') ->
    handleFileSystemCommand fullCommand' cwd fileSystem =
    handleFileSystemCommand fullCommand cwd fileSystem.
Proof.
  intros Htok Hverb showAll.
  assert (Hls : forall fc v a, JS.split_ws fc = v :: a -> JS.toLowerCase v = "ls" ->
            handleFileSystemCommand fc cwd fileSystem =
            mkFsResult
              (Some match getNode fileSystem cwd with
                    | Some (Directory children) => listing children a
                    | _ => "ls: cannot access " ++ cwd ++ ": No such file or directory"
                    end)
              cwd fileSystem).
  { intros fc v a Ht Hv. now rewrite (handle_tokens _ _ _ _ _ Ht), Hv, builtin_ls. }
  split; [apply existsb_flag |]. split.
  - rewrite (Hls _ _ _ Htok Hverb).
    destruct (getNode fileSystem cwd) as [[|children]|]; try reflexivity.
    now rewrite listing_shown.
  - intros fc' v' a' Ht' Hv' Hiff.
    rewrite (Hls _ _ _ Ht' Hv'), (Hls _ _ _ Htok Hverb).
    assert (E : existsb (String.eqb "-a") a' = existsb (String.eqb "-a") args).
    { apply eq_true_iff_eq. rewrite !existsb_flag. now symmetry. }
    destruct (getNode fileSystem cwd) as [[|children]|]; try reflexivity.
    now rewrite !listing_shown, E.
Qed.

Lemma ls_lists_cwd_only_witness :
  JS.split_ws "ls documents -a" = ["ls"; "documents"; "-a"] /\
  JS.toLowerCase "ls" = "ls" /\
  handleFileSystemCommand "ls documents -a" "/home/kali" exampleTree =
  mkFsResult
    (Some ("README.md" ++ JS.nl ++ "chroot.py" ++ JS.nl ++ "Cyberpunk_QWERTY_(US).xml"
           ++ JS.nl ++ "documents/" ++ JS.nl ++ "projects/" ++ JS.nl ++ ".secret_file"))
    "/home/kali" exampleTree /\
  handleFileSystemCommand "ls documents" "/home/kali" exampleTree =
  mkFsResult
    (Some ("README.md" ++ JS.nl ++ "chroot.py" ++ JS.nl ++ "Cyberpunk_QWERTY_(US).xml"
           ++ JS.nl ++ "documents/" ++ JS.nl ++ "projects/"))
    "/home/kali" exampleTree /\
  handleFileSystemCommand "ls -a /nowhere" "/home/kali" exampleTree =
  handleFileSystemCommand "ls documents -a" "/home/kali" exampleTree.
Proof.
  pose proof (ls_lists_cwd_only exampleTree "/home/kali" "ls documents -a" "ls"
                ["documents"; "-a"] eq_refl eq_refl) as (_ & H1 & H2).
  pose proof (ls_lists_cwd_only exampleTree "/home/kali" "ls documents" "ls"
                ["documents"] eq_refl eq_refl) as (_ & H3 & _).
  split; [reflexivity |]. split; [reflexivity |]. split; [|split].
  - rewrite H1. reflexivity.
  - rewrite H3. reflexivity.
  - apply (H2 "ls -a /nowhere" "ls" ["-a"; "/nowhere"] eq_refl eq_refl).
    simpl. tauto.
Defined.

(** ** Cutting a resolved path at its last slash *)

Section LastSlash.

Lemma lastIndexOf_none (s : string) (i : Z) :
  has_slash s = false -> JS.lastIndexOf_go "/" s i = (-1)%Z.
Proof.
  revert i. induction s as [|c s IH]; intros i H; [reflexivity |].
  simpl in H. apply orb_false_iff in H as [Hc Hs].
  cbn [JS.lastIndexOf_go]. rewrite (IH _ Hs). cbn [Z.leb Z.compare].
  now rewrite prefix_one, Ascii.eqb_sym, Hc.
Qed.

Lemma lastSlash_index (P name : string) (i : Z) :
  (0 <= i)%Z -> has_slash name = false ->
  JS.lastIndexOf_go "/" (P ++ "/" ++ name) i = (i + Z.of_nat (String.length P))%Z.
Proof.
  revert i. induction P as [|c P IH]; intros i Hi Hn.
  - change ("" ++ "/" ++ name) with (String "/" name).
    cbn [JS.lastIndexOf_go]. rewrite (lastIndexOf_none _ _ Hn).
    cbn [Z.leb Z.compare]. rewrite prefix_one. simpl. lia.
  - change (String c P ++ "/" ++ name) with (String c (P ++ "/" ++ name)).
    cbn [JS.lastIndexOf_go]. rewrite IH by (lia || assumption).
    destruct (Z.leb_spec 0 (i + 1 + Z.of_nat (String.length P))); [|lia].
    cbn [String.length]. lia.
Qed.

Lemma substring_head (a b : string) :
  String.substring 0 (String.length a) (a ++ b) = a.
Proof.
  induction a as [|c a IH]; simpl; [now destruct b | now rewrite IH].
Qed.

Lemma substring_all (b : string) : String.substring 0 (String.length b) b = b.
Proof. induction b as [|c b IH]; simpl; [reflexivity | now rewrite IH]. Qed.

Lemma substring_tail (a b : string) :
  String.substring (String.length a) (String.length b) (a ++ b) = b.
Proof. induction a as [|c a IH]; simpl; [apply substring_all | exact IH]. Qed.

Lemma cut_before (P name : string) :
  JS.substring (P ++ "/" ++ name) 0 (Z.of_nat (String.length P)) = P.
Proof.
  unfold JS.substring, JS.clamp. rewrite Nat2Z.id, !length_append.
  change (Z.to_nat 0) with 0.
  rewrite Nat.min_0_l, Nat.min_0_l, Nat.max_0_l, Nat.sub_0_r.
  rewrite (Nat.min_l (String.length P)) by lia.
  apply substring_head.
Qed.

Lemma cut_after (P name : string) :
  JS.substringFrom (P ++ "/" ++ name) (Z.of_nat (String.length P) + 1) = name.
Proof.
  unfold JS.substringFrom, JS.clamp.
  replace (Z.to_nat (Z.of_nat (String.length P) + 1)) with (String.length P + 1) by lia.
  rewrite !length_append. cbn [String.length].
  rewrite Nat.min_l by lia.
  replace (String.length P + (1 + String.length name) - (String.length P + 1))
    with (String.length name) by lia.
  replace (P ++ "/" ++ name) with ((P ++ "/") ++ name) by apply append_assoc.
  replace (String.length P + 1) with (String.length (P ++ "/"))
    by (rewrite length_append; reflexivity).
  apply substring_tail.
Qed.

Lemma join_snoc (sep : string) (init : list string) (name : string) :
  init <> [] ->
  JS.join sep (init ++ [name]) = JS.join sep init ++ sep ++ name.
Proof.
  induction init as [|x init IH]; [congruence |]. intros _.
  destruct init as [|y init]; [reflexivity |].
  change (JS.join sep ((x :: y :: init) ++ [name]))
    with (x ++ sep ++ JS.join sep ((y :: init) ++ [name])).
  rewrite IH by discriminate.
  change (JS.join sep (x :: y :: init)) with (x ++ sep ++ JS.join sep (y :: init)).
  now rewrite !append_assoc.
Qed.

Lemma serialized_snoc (init : list string) (name : string) :
  "/" ++ JS.join "/" (init ++ [name]) = dirnameOf init ++ "/" ++ name.
Proof.
  destruct init as [|x init]; [reflexivity |].
  rewrite join_snoc by discriminate. unfold dirnameOf.
  now rewrite append_assoc.
Qed.

Lemma parts_dirname (init : list string) :
  Forall segment init ->
  parts (if dirnameOf init =? "" then "/" else dirnameOf init) = init.
Proof.
  intros H. destruct init as [|x init]; [reflexivity |].
  unfold dirnameOf. cbn [String.append String.eqb]. 
  change (String "/" (JS.join "/" (x :: init))) with ("/" ++ JS.join "/" (x :: init)).
  now apply parts_serialized.
Qed.

End LastSlash.

(** ** mkdir *)

Section Mkdir.

Variables (cwd : string) (fileSystem : FileSystemNode).

Lemma builtin_mkdir (args : list string) (targetPath : string) :
  arg0 args = Some targetPath ->
  builtin "mkdir" args cwd fileSystem =
  let ret text := mkFsResult (Some text) cwd fileSystem in
  let fullPath := resolvePath cwd targetPath in
  match getNode fileSystem fullPath with
  | Some _ => ret (mkdirMessage targetPath "File exists")
  | None =>
      if getNodeInherited fileSystem fullPath
      then ret (mkdirMessage targetPath "File exists")
      else
      let cut := JS.lastIndexOf fullPath "/" in
      let parentPath :=
        let p := JS.substring fullPath 0 cut in
        if p =? "" then "/" else p in
      let newDirName := finalSegment fullPath in
      if newDirName =? "" then ret (mkdirMessage targetPath "Invalid argument")
      else
        match getNode fileSystem parentPath with
        | Some (Directory _) =>
            mkFsResult (Some "") cwd
              (mutate fileSystem parentPath (set_child newDirName (Directory [])))
        | _ => ret (mkdirMessage targetPath "No such file or directory")
        end
  end.
Proof.
  intros H.
  change (builtin "mkdir" args cwd fileSystem) with
    (match arg0 args with
     | None => mkFsResult (Some "mkdir: missing operand") cwd fileSystem
     | Some targetPath =>
         let ret text := mkFsResult (Some text) cwd fileSystem in
         let fullPath := resolvePath cwd targetPath in
         match getNode fileSystem fullPath with
         | Some _ => ret (mkdirMessage targetPath "File exists")
         | None =>
             if getNodeInherited fileSystem fullPath
             then ret (mkdirMessage targetPath "File exists")
             else
             let cut := JS.lastIndexOf fullPath "/" in
             let parentPath :=
               let p := JS.substring fullPath 0 cut in
               if p =? "" then "/" else p in
             let newDirName := finalSegment fullPath in
             if newDirName =? "" then ret (mkdirMessage targetPath "Invalid argument")
             else
               match getNode fileSystem parentPath with
               | Some (Directory _) =>
                   mkFsResult (Some "") cwd
                     (mutate fileSystem parentPath (set_child newDirName (Directory [])))
               | _ => ret (mkdirMessage targetPath "No such file or directory")
               end
         end
     end).
  now rewrite H.
Qed.

Lemma snoc_or_nil {A} (l : list A) :
  l = [] \/ exists init x, l = (init ++ [x])%list.
Proof.
  induction l as [|x l _] using rev_ind; [now left | right; eauto].
Qed.

(** A resolved path with at least one segment, cut at its last slash. *)
Lemma resolved_cut (fullPath : string) (init : list string) (name : string) :
  Forall segment (init ++ [name]) ->
  fullPath = "/" ++ JS.join "/" (init ++ [name]) ->
  JS.substring fullPath 0 (JS.lastIndexOf fullPath "/") = dirnameOf init /\
  finalSegment fullPath = name.
Proof.
  intros Hseg ->. rewrite serialized_snoc.
  apply Forall_app in Hseg as [_ Hname]. inversion Hname as [|? ? [_ Hslash] _]; subst.
  unfold finalSegment, JS.lastIndexOf.
  rewrite lastSlash_index by (lia || assumption). rewrite Z.add_0_l.
  split; [apply cut_before | apply cut_after].
Qed.

Lemma root_exists : getNode fileSystem "/" = Some fileSystem.
Proof. reflexivity. Qed.

(** The three outcomes of mkdir in terms of the resolved segments. *)
Lemma mkdir_outcome (args : list string) (targetPath : string) :
  arg0 args = Some targetPath ->
  let fullPath := resolvePath cwd targetPath in
  let segs := parts fullPath in
  builtin "mkdir" args cwd fileSystem =
  match getNode fileSystem fullPath with
  | Some _ => mkFsResult (Some (mkdirMessage targetPath "File exists")) cwd fileSystem
  | None =>
      match walk (removelast segs) fileSystem with
      | Some (Directory _) =>
          if inherited (last segs "")
          then mkFsResult (Some (mkdirMessage targetPath "File exists")) cwd fileSystem
          else
            mkFsResult (Some "") cwd
              (update_at (removelast segs) (set_child (last segs "") (Directory []))
                 fileSystem)
      | _ =>
          mkFsResult (Some (mkdirMessage targetPath "No such file or directory"))
            cwd fileSystem
      end
  end /\
  (finalSegment fullPath = "" -> fullPath = "/").
Proof.
  intros Harg fullPath segs.
  rewrite (builtin_mkdir _ _ Harg). fold fullPath. cbv zeta.
  pose proof (resolvedParts_segments cwd targetPath) as Hseg.
  pose proof (resolvePath_parts cwd targetPath) as Hfull. fold fullPath in Hfull.
  assert (Hsegs : segs = resolvedParts cwd targetPath) by apply parts_resolvePath.
  rewrite <- Hsegs in Hseg, Hfull.
  destruct (snoc_or_nil segs) as [Hnil | (init & name & Hlast)].
  - rewrite Hnil in Hfull. change ("/" ++ JS.join "/" []) with "/" in Hfull.
    split; [|intros _; exact Hfull].
    rewrite Hfull, root_exists. reflexivity.
  - rewrite Hlast in Hseg, Hfull.
    destruct (resolved_cut _ _ _ Hseg Hfull) as [Hdir Hname].
    assert (Hne : name <> "").
    { apply Forall_app in Hseg as [_ Hn]. inversion Hn as [|? ? [Hne _] _]. exact Hne. }
    split.
    + destruct (getNode fileSystem fullPath) eqn:Hnode; [reflexivity |].
      unfold getNodeInherited. fold segs.
      unfold getNode in Hnode. fold segs in Hnode.
      rewrite Hlast in Hnode |- *. rewrite walkInherited_snoc, removelast_last, last_last.
      rewrite Hdir, Hname.
      destruct (String.eqb_spec name ""); [contradiction |].
      unfold mutate, getNode.
      rewrite parts_dirname by (apply Forall_app in Hseg; tauto).
      destruct (walk init fileSystem) as [[|children]|] eqn:Hw; try reflexivity.
      rewrite (walk_child _ _ _ _ Hw) in Hnode. rewrite Hnode.
      now destruct (inherited name).
    + rewrite Hname. intros; contradiction.
Qed.

End Mkdir.

Lemma some_inj {A} (a b : A) : Some a = Some b -> a = b.
Proof. now intros [= ->]. Qed.





(** Two mkdir of the same name in a row: success, then already-exists. *)
Example mkdir_twice :
  let first := handleFileSystemCommand "mkdir x" "/home/kali" exampleTree in
  returned first = Some "" /\
  returned (handleFileSystemCommand "mkdir x" "/home/kali" (new_fs first))
    = Some "mkdir: cannot create directory ‘x’: File exists".
Proof. split; reflexivity. Qed.

(** ** termux-fix-shebang *)

Section Shebang.

Lemma builtin_shebang_file (args : list string) (cwd : string) (fileSystem : FileSystemNode)
    (fileName content : string) :
  arg0 args = Some fileName ->
  getNode fileSystem (resolvePath cwd fileName) = Some (File content) ->
  builtin "termux-fix-shebang" args cwd fileSystem =
  match JS.split shebangSeparator content with
  | line0 :: lines =>
      if JS.startsWith line0 "#!" then
        mkFsResult
          (Some ("shebang of " ++ fileName ++ " has been rewritten from '"
                 ++ line0 ++ "' to '" ++ fixedShebang ++ "'"))
          cwd
          (mutate fileSystem (resolvePath cwd fileName)
             (set_content (JS.join shebangSeparator (fixedShebang :: lines))))
      else mkFsResult (Some (fileName ++ " does not have a shebang or is empty."))
             cwd fileSystem
  | [] => mkFsResult (Some (fileName ++ " does not have a shebang or is empty."))
            cwd fileSystem
  end.
Proof.
  intros Harg Hnode.
  change (builtin "termux-fix-shebang" args cwd fileSystem) with
    (match arg0 args with
     | None => mkFsResult (Some "usage: termux-fix-shebang <file>") cwd fileSystem
     | Some fileName =>
         match getNode fileSystem (resolvePath cwd fileName) with
         | None =>
             if getNodeInherited fileSystem (resolvePath cwd fileName)
             then mkFsResult (Some ("termux-fix-shebang: not a file: " ++ fileName))
                    cwd fileSystem
             else mkFsResult (Some ("termux-fix-shebang: file not found: " ++ fileName))
                    cwd fileSystem
         | Some (Directory _) =>
             mkFsResult (Some ("termux-fix-shebang: not a file: " ++ fileName))
               cwd fileSystem
         | Some (File content) =>
             match JS.split shebangSeparator content with
             | line0 :: lines =>
                 if JS.startsWith line0 "#!" then
                   mkFsResult
                     (Some ("shebang of " ++ fileName ++ " has been rewritten from '"
                            ++ line0 ++ "' to '" ++ fixedShebang ++ "'"))
                     cwd
                     (mutate fileSystem (resolvePath cwd fileName)
                        (set_content (JS.join shebangSeparator (fixedShebang :: lines))))
                 else mkFsResult (Some (fileName ++ " does not have a shebang or is empty."))
                        cwd fileSystem
             | [] => mkFsResult (Some (fileName ++ " does not have a shebang or is empty."))
                       cwd fileSystem
             end
         end
     end).
  now rewrite Harg, Hnode.
Qed.

(** A text that begins with the two shebang characters keeps them at the
    head of its first piece: the separator begins with a backslash. *)
Lemma split_shebang_head (more : string) :
  exists line0 lines,
    JS.split shebangSeparator ("#!" ++ more) = ("#!" ++ line0) :: lines.
Proof.
  unfold JS.split. cbn.
  destruct (JS.split_go shebangSeparator 0 more) as [|h t] eqn:E.
  - now apply split_not_nil in E.
  - now exists h, t.
Qed.

Lemma join_cons (sep x : string) (l : list string) :
  JS.join sep (x :: l) = x ++ match l with [] => "" | _ => sep ++ JS.join sep l end.
Proof. destruct l; simpl; [now rewrite append_nil_r | reflexivity]. Qed.

(** What the rewrite leaves in a file whose text begins with a shebang:
    the fixed line, then whatever followed the first backslash-n pair. *)
Lemma shebang_rewrite_result (args : list string) (cwd : string)
    (fileSystem : FileSystemNode) (fileName more : string) :
  arg0 args = Some fileName ->
  getNode fileSystem (resolvePath cwd fileName) = Some (File ("#!" ++ more)) ->
  exists tail,
    getNode (new_fs (builtin "termux-fix-shebang" args cwd fileSystem))
      (resolvePath cwd fileName) = Some (File (fixedShebang ++ tail)) /\
    (tail = "" \/ exists t, tail = String JS.backslash t).
Proof.
  intros Harg Hnode.
  rewrite (builtin_shebang_file _ _ _ _ _ Harg Hnode).
  destruct (split_shebang_head more) as (line0 & lines & ->).
  assert (Hs : JS.startsWith ("#!" ++ line0) "#!" = true)
    by apply prefix_refl_append.
  rewrite Hs. cbn [new_fs].
  exists (match lines with [] => "" | _ => shebangSeparator ++ JS.join shebangSeparator lines end).
  split.
  - unfold mutate, getNode in *.
    rewrite (walk_update_at _ _ _ _ Hnode). cbn [set_content].
    now rewrite join_cons.
  - destruct lines; [now left | right]. eexists. reflexivity.
Qed.

End Shebang.

(** C1, the program at the failing input.  On the seed tree, whatever
    follows the first line of [chroot.py], the command
    [termux-fix-shebang chroot.py] given in [/home/kali] does not leave the
    fixed interpreter line followed by the other lines: the text is cut at
    the first backslash-n pair, not at the first line feed. *)
Theorem shebang_rewrite_loses_lines (rest layout : string) :
  let content := "#!/bin/python3" ++ JS.nl ++ rest in
  let fs := seedFileSystem content layout in
  let r := handleFileSystemCommand "termux-fix-shebang chroot.py" "/home/kali" fs in
  exists kept,
    getNode (new_fs r) "/home/kali/chroot.py" = Some (File kept) /\
    kept <> fixedShebang ++ JS.nl ++ rest.
Proof.
  intros content fs r.
  destruct (shebang_rewrite_result ["chroot.py"] "/home/kali" fs "chroot.py"
              ("/bin/python3" ++ JS.nl ++ rest) eq_refl eq_refl)
    as (tail & Hget & Htail).
  exists (fixedShebang ++ tail). split; [exact Hget |].
  intros H. apply append_inv_head in H.
  destruct Htail as [-> | [t ->]]; discriminate.
Qed.

(** The same on the example tree, in full: the reported old line is the
    whole text and nothing but the fixed line is left. *)
Example shebang_rewrite_example :
  handleFileSystemCommand "termux-fix-shebang chroot.py" "/home/kali" exampleTree =
  mkFsResult
    (Some ("shebang of chroot.py has been rewritten from '#!/bin/python3" ++ JS.nl
           ++ JS.nl ++ "# Usage:' to '#!/data/data/com.termux/files/usr/bin/python3'"))
    "/home/kali"
    (seedFileSystem "#!/data/data/com.termux/files/usr/bin/python3" "<?xml?>").
Proof. reflexivity. Qed.

Lemma split_head_is_prefix (sep s : string) :
  exists line0 lines t, JS.split sep s = line0 :: lines /\ s = line0 ++ t.
Proof.
  unfold JS.split. induction s as [|c s (line0 & lines & t & IH & Hs)].
  - now exists "", [], "".
  - cbn [JS.split_go]. destruct (String.prefix sep (String c s)).
    + eexists "", _, (String c s). split; reflexivity.
    + rewrite IH. exists (String c line0), lines, t. split; [reflexivity |].
      simpl. now rewrite <- Hs.
Qed.

(** The outcomes of the shebang command that leave the tree as it is: a
    path that does not resolve, a directory or an inherited name, a file
    whose text does not begin with the two shebang characters. *)
Lemma shebang_untouched (fileSystem : FileSystemNode) (cwd fileName : string)
    (args : list string) :
  arg0 args = Some fileName ->
  let r := builtin "termux-fix-shebang" args cwd fileSystem in
  match getNode fileSystem (resolvePath cwd fileName) with
  | None =>
      r = mkFsResult
            (Some (if getNodeInherited fileSystem (resolvePath cwd fileName)
                   then "termux-fix-shebang: not a file: " ++ fileName
                   else "termux-fix-shebang: file not found: " ++ fileName))
            cwd fileSystem
  | Some (Directory _) =>
      r = mkFsResult (Some ("termux-fix-shebang: not a file: " ++ fileName))
            cwd fileSystem
  | Some (File content) =>
      JS.startsWith content "#!" = false ->
      r = mkFsResult (Some (fileName ++ " does not have a shebang or is empty."))
            cwd fileSystem
  end.
Proof.
  intros Harg r.
  destruct (getNode fileSystem (resolvePath cwd fileName)) as [[content|children]|] eqn:Hn.
  - intros Hno. subst r. rewrite (builtin_shebang_file _ _ _ _ _ Harg Hn).
    destruct (split_head_is_prefix shebangSeparator content)
      as (line0 & lines & t & -> & Hc).
    destruct (JS.startsWith line0 "#!") eqn:Hp; [|reflexivity].
    apply prefix_true_append in Hp as [x ->].
    rewrite Hc, append_assoc in Hno. unfold JS.startsWith in Hno.
    now rewrite prefix_refl_append in Hno.
  - subst r. unfold builtin. cbn. now rewrite Harg, Hn.
  - subst r. unfold builtin. cbn. rewrite Harg, Hn.
    now destruct (getNodeInherited fileSystem (resolvePath cwd fileName)).
Qed.

(** ** Reverse search *)

Section ReverseSearch.

Variables (log : list string) (query : string).

Lemma searchFrom_scan (cursor : nat) (t : TerminalState) :
  cursor <= List.length log ->
  (exists i entry,
      firstMatchBefore log query cursor i entry /\
      searchFrom log query cursor t = Some (setSearchIndex i (setInput entry t)))
  \/ (noMatchBefore log query cursor /\ searchFrom log query cursor t = Some t).
Proof.
  induction cursor as [|i IH]; intros Hle.
  - right. split; [intros j e Hj; lia | reflexivity].
  - cbn [searchFrom].
    destruct (nth_error log i) as [entry|] eqn:Hnth.
    2:{ apply nth_error_None in Hnth. lia. }
    destruct (JS.includes entry query) eqn:Hinc.
    + left. exists i, entry. split; [|reflexivity].
      repeat split; try assumption; lia.
    + assert (Hle' : i <= List.length log) by lia.
      destruct (IH Hle') as [(k & e & (Hk & Hke & Hki & Hkabove) & Hres) | [Hnone Hres]].
      * left. exists k, e. split; [|exact Hres].
        repeat split; try assumption; try lia.
        intros j e' Hj Hje'.
        destruct (Nat.eq_dec j i) as [->|Hne].
        -- rewrite Hnth in Hje'. now injection Hje' as <-.
        -- apply (Hkabove j); [lia | assumption].
      * right. split; [|exact Hres].
        intros j e' Hj Hje'.
        destruct (Nat.eq_dec j i) as [->|Hne].
        -- rewrite Hnth in Hje'. now injection Hje' as <-.
        -- apply (Hnone j); [lia | assumption].
Qed.

Lemma firstMatch_unique (cursor i i' : nat) (entry entry' : string) :
  firstMatchBefore log query cursor i entry ->
  firstMatchBefore log query cursor i' entry' ->
  i = i' /\ entry = entry'.
Proof.
  intros (Hi & Hn & Hinc & Habove) (Hi' & Hn' & Hinc' & Habove').
  assert (i = i').
  { destruct (Nat.lt_trichotomy i i') as [Hlt | [Heq | Hgt]]; [|exact Heq|].
    - rewrite (Habove i' entry') in Hinc'; [discriminate | lia | assumption].
    - rewrite (Habove' i entry) in Hinc; [discriminate | lia | assumption]. }
  subst i'. split; [reflexivity | congruence].
Qed.

End ReverseSearch.

(** C7.  In reverse-search mode, with the cursor within the command log:
    an empty query empties the input without a scan; otherwise the scan
    from [cursor - 1] down to [0] stops at the first entry that contains
    the query, which becomes the input while its index becomes the cursor,
    and when no entry matches input and cursor stay as they are; the
    search never fails.  Repeating the trigger key searches again from the
    current cursor; backspace and a printable key (a key of one UTF-16
    unit pressed without Ctrl, Meta or Alt) first change the query, by
    its last character less or by the key more, and put the cursor at the
    length of the log, then search.  The query is a text of the basic
    plane, as every query that key presses build is
    ([searchQuery_basic_plane]). *)
Theorem reverse_search_spec (app : AppState) (t : TerminalState) (e : KeyboardEvent)
    (query : string) (cursor : nat) :
  let log := commandHistory (history app) in
  cursor <= List.length log ->
  isSearching t = true ->
  (* the search itself *)
  (performSearch log "" cursor t = Some (setInput "" t)) /\
  (query <> "" ->
     performSearch log query cursor t <> None /\
     (forall i entry, firstMatchBefore log query cursor i entry ->
        performSearch log query cursor t =
        Some (setSearchIndex i (setInput entry t))) /\
     (noMatchBefore log query cursor -> performSearch log query cursor t = Some t)) /\
  (* the keys that search *)
  (isSearchTrigger e = true ->
     handleKeyDown e app t =
     keep app (performSearch log (searchQuery t) (searchIndex t) t)) /\
  (isSearchTrigger e = false -> key e = "Backspace" ->
   bmpText (searchQuery t) = true ->
     let newQuery := dropLast (searchQuery t) in
     handleKeyDown e app t =
     keep app (performSearch log newQuery (List.length log)
                 (setSearchIndex (List.length log) (setSearchQuery newQuery t)))) /\
  (isSearchTrigger e = false -> key e <> "Backspace" -> isPrintable e = true ->
     let newQuery := searchQuery t ++ key e in
     handleKeyDown e app t =
     keep app (performSearch log newQuery (List.length log)
                 (setSearchIndex (List.length log) (setSearchQuery newQuery t)))).
Proof.
  intros log Hle Hsearching.
  split; [reflexivity |]. split; [|split; [|split]].
  - intros Hq. unfold performSearch.
    destruct (String.eqb_spec query ""); [contradiction |].
    destruct (searchFrom_scan log query cursor t Hle)
      as [(k & entry & Hfirst & Hres) | [Hnone Hres]].
    + split; [congruence |]. split.
      * intros i entry' Hfirst'.
        destruct (firstMatch_unique _ _ _ _ _ _ _ Hfirst Hfirst') as [<- <-].
        exact Hres.
      * intros Hnone. destruct Hfirst as (Hk & Hn & Hinc & _).
        rewrite (Hnone k entry Hk Hn) in Hinc. discriminate.
    + split; [congruence |]. split; [|intros _; exact Hres].
      intros i entry (Hi & Hn & Hinc & _).
      rewrite (Hnone i entry Hi Hn) in Hinc. discriminate.
  - intros Htrig. unfold handleKeyDown. now rewrite Hsearching, Htrig.
  - intros Htrig Hkey _ newQuery. unfold handleKeyDown.
    now rewrite Hsearching, Htrig, Hkey.
  - intros Htrig Hkey Hprint newQuery. unfold handleKeyDown.
    rewrite Hsearching, Htrig, Hprint.
    destruct (String.eqb_spec (key e) "Backspace"); [contradiction | reflexivity].
Qed.

Lemma reverse_search_spec_witness :
  let t := mkTerminal "" true "" 3 in
  let typed := mkTerminal "cat a.txt" true "cé" 3 in
  3 <= List.length (commandHistory (history searchScenario)) /\
  isSearching t = true /\
  handleKeyDown (plainKey "l") searchScenario t =
  Some (searchScenario, mkTerminal "ls -a" true "l" 2) /\
  performSearch (commandHistory (history searchScenario)) "ls" 2
    (mkTerminal "ls -a" true "ls" 2) =
  Some (mkTerminal "ls" true "ls" 0) /\
  isPrintable (plainKey "é") = true /\
  handleKeyDown (plainKey "é") searchScenario (mkTerminal "cat a.txt" true "c" 1) =
  Some (searchScenario, typed) /\
  bmpText (searchQuery typed) = true /\
  handleKeyDown (plainKey "Backspace") searchScenario typed =
  Some (searchScenario, mkTerminal "cat a.txt" true "c" 1).
Proof.
  intros t typed.
  assert (Hle : 3 <= List.length (commandHistory (history searchScenario)))
    by (simpl; lia).
  assert (Hle1 : 1 <= List.length (commandHistory (history searchScenario)))
    by (simpl; lia).
  split; [exact Hle |]. split; [reflexivity |]. split; [|split; [|split; [|split; [|split]]]].
  - destruct (reverse_search_spec searchScenario t (plainKey "l") "l" 3 Hle eq_refl)
      as (_ & _ & _ & _ & Hkey).
    rewrite (Hkey eq_refl ltac:(discriminate) eq_refl). reflexivity.
  - assert (Hle2 : 2 <= List.length (commandHistory (history searchScenario)))
      by (simpl; lia).
    destruct (reverse_search_spec searchScenario (mkTerminal "ls -a" true "ls" 2)
                (plainKey "l") "ls" 2 Hle2 eq_refl)
      as (_ & Hsearch & _).
    destruct (Hsearch ltac:(discriminate)) as (_ & Hfirst & _).
    apply (Hfirst 0 "ls"). repeat split; try reflexivity; try lia.
    intros j e' Hj. assert (j = 1) as -> by lia. simpl. now intros [= <-].
  - reflexivity.
  - destruct (reverse_search_spec searchScenario (mkTerminal "cat a.txt" true "c" 1)
                (plainKey "é") "c" 1 Hle1 eq_refl)
      as (_ & _ & _ & _ & Hkey).
    rewrite (Hkey eq_refl ltac:(discriminate) eq_refl). reflexivity.
  - reflexivity.
  - destruct (reverse_search_spec searchScenario typed (plainKey "Backspace") "c" 3
                Hle eq_refl)
      as (_ & _ & _ & Hback & _).
    rewrite (Hback eq_refl eq_refl eq_refl). reflexivity.
Defined.

(** The scenario of the specification: with the log [ls], [cat a.txt],
    [ls -a], typing [l] shows [ls -a]; typing [s] still shows it;
    backspace and [s] again give the same; the trigger key then moves to
    the older [ls]. *)
Example reverse_search_scenario :
  let start := mkTerminal "" false "" 0 in
  let shown keys :=
    option_map (fun r => (input (snd r), searchIndex (snd r)))
      (pressAll keys searchScenario start) in
  shown [searchTrigger; plainKey "l"] = Some ("ls -a", 2) /\
  shown [searchTrigger; plainKey "l"; plainKey "s"] = Some ("ls -a", 2) /\
  shown [searchTrigger; plainKey "l"; plainKey "s"; plainKey "Backspace"; plainKey "s"]
    = Some ("ls -a", 2) /\
  shown [searchTrigger; plainKey "l"; plainKey "s"; searchTrigger] = Some ("ls", 0) /\
  shown [searchTrigger; plainKey "l"; plainKey "s"; searchTrigger; searchTrigger]
    = Some ("ls", 0) /\
  shown [searchTrigger; plainKey "z"] = Some ("", 3) /\
  shown [searchTrigger; plainKey "l"; plainKey "Backspace"] = Some ("", 3).
Proof. repeat split. Qed.

(** The cursor stays within the command log, so no key press makes the
    search read past the log: the handler always returns. *)
Lemma handleKeyDown_returns (e : KeyboardEvent) (app : AppState) (t : TerminalState) :
  (isSearching t = true ->
   searchIndex t <= List.length (commandHistory (history app))) ->
  exists app' t',
    handleKeyDown e app t = Some (app', t') /\
    (isSearching t' = true ->
     searchIndex t' <= List.length (commandHistory (history app'))).
Proof.
  intros Hinv. set (log := commandHistory (history app)) in *.
  assert (Hsearch : forall q c u, c <= List.length log ->
            isSearching u = true -> searchIndex u <= List.length log ->
            exists u', performSearch log q c u = Some u' /\
                       searchIndex u' <= List.length log).
  { intros q c u Hc Hu Hi. unfold performSearch.
    destruct (q =? ""); [eexists; split; [reflexivity | exact Hi] |].
    destruct (searchFrom_scan log q c u Hc) as [(i & en & (Hlt & _) & ->) | [_ ->]];
      eexists; (split; [reflexivity |]); simpl; lia. }
  unfold handleKeyDown. fold log.
  destruct (isSearching t) eqn:Hs.
  - specialize (Hinv eq_refl).
    destruct (isSearchTrigger e).
    + destruct (Hsearch (searchQuery t) (searchIndex t) t Hinv Hs Hinv) as (u & -> & Hu).
      exists app, u. split; [reflexivity | intros _; exact Hu].
    + destruct (key e =? "Backspace").
      * edestruct Hsearch as (u & -> & Hu); [| | |exists app, u; split;
          [reflexivity | intros _; exact Hu]]; simpl; (lia || assumption).
      * destruct (isPrintable e).
        -- edestruct Hsearch as (u & -> & Hu); [| | |exists app, u; split;
             [reflexivity | intros _; exact Hu]]; simpl; (lia || assumption).
        -- destruct ((key e =? "Escape") || JS.startsWith (key e) "Arrow");
             [|destruct (key e =? "Enter")];
             eexists _, _; (split; [reflexivity |]); simpl;
             try discriminate; rewrite Hs; intros _; exact Hinv.
  - destruct (isSearchTrigger e).
    + eexists _, _. split; [reflexivity |]. intros _. apply Nat.le_refl.
    + destruct (key e =? "Tab").
      * destruct (JS.trim (input t) =? "");
          [eexists _, _; split; [reflexivity | rewrite Hs; discriminate] |].
        destruct (filter _ commands) as [|m1 [|m2 ms]];
          eexists _, _; (split; [reflexivity |]); simpl; rewrite ?Hs; discriminate.
      * eexists _, _. split; [reflexivity | rewrite Hs; discriminate].
Qed.

(** A search leaves the query as it is. *)
Lemma searchFrom_query (log : list string) (query : string) (cursor : nat)
    (t u : TerminalState) :
  searchFrom log query cursor t = Some u -> searchQuery u = searchQuery t.
Proof.
  induction cursor as [|i IH]; cbn [searchFrom].
  - now intros [= <-].
  - destruct (nth_error log i) as [entry|]; [|discriminate].
    destruct (JS.includes entry query); [now intros [= <-] | exact IH].
Qed.

Lemma performSearch_query (log : list string) (query : string) (cursor : nat)
    (t u : TerminalState) :
  performSearch log query cursor t = Some u -> searchQuery u = searchQuery t.
Proof.
  unfold performSearch. destruct (query =? ""); [now intros [= <-] |].
  apply searchFrom_query.
Qed.

Lemma bmpText_app (a b : string) :
  bmpText a = true -> bmpText b = true -> bmpText (a ++ b) = true.
Proof.
  unfold bmpText. induction a as [|c a IH]; cbn [allChars String.append]; [easy |].
  intros Ha Hb. apply andb_true_iff in Ha as [Hc Ha]. now rewrite Hc, IH.
Qed.

Lemma bmpText_dropLast (s : string) : bmpText s = true -> bmpText (dropLast s) = true.
Proof.
  unfold bmpText. induction s as [|c s IH]; cbn [allChars dropLast]; [easy |].
  intros H. apply andb_true_iff in H as [Hc Hs].
  destruct (allContinuation s); [reflexivity |].
  cbn [allChars]. now rewrite Hc, IH.
Qed.

(** A key of one UTF-16 unit has no character of four bytes. *)
Lemma length16_one_bmp (s : string) : JS.length16 s < 2 -> bmpText s = true.
Proof.
  unfold bmpText. induction s as [|c s IH]; cbn [JS.length16 allChars]; [easy |].
  unfold JS.unitsOfByte.
  destruct ((128 <=? nat_of_ascii c) && (nat_of_ascii c <? 192))%nat eqn:Hcont.
  - intros H. apply andb_true_iff in Hcont as [_ Hlt]. apply Nat.ltb_lt in Hlt.
    replace (nat_of_ascii c <? 240)%nat with true by (symmetry; apply Nat.ltb_lt; lia).
    now apply IH.
  - destruct (240 <=? nat_of_ascii c)%nat eqn:Hbig; [intros H; lia |].
    intros H. apply Nat.leb_gt in Hbig.
    replace (nat_of_ascii c <? 240)%nat with true by (symmetry; now apply Nat.ltb_lt).
    apply IH. lia.
Qed.

(** The queries that key presses build are texts of the basic plane. *)
Lemma searchQuery_basic_plane (e : KeyboardEvent) (app app' : AppState)
    (t t' : TerminalState) :
  bmpText (searchQuery t) = true ->
  handleKeyDown e app t = Some (app', t') ->
  bmpText (searchQuery t') = true.
Proof.
  intros Hinv. unfold handleKeyDown, keep.
  assert (Hsearch : forall log q c u,
            bmpText (searchQuery u) = true ->
            match performSearch log q c u with
            | Some u' => Some (app, u')
            | None => None
            end = Some (app', t') ->
            bmpText (searchQuery t') = true).
  { intros log q c u Hu.
    destruct (performSearch log q c u) as [u'|] eqn:Hp; [|discriminate].
    intros [= _ <-]. now rewrite (performSearch_query _ _ _ _ _ Hp). }
  destruct (isSearching t).
  - destruct (isSearchTrigger e); [now apply Hsearch |].
    destruct (key e =? "Backspace").
    { apply Hsearch. cbn [searchQuery setSearchIndex setSearchQuery].
      now apply bmpText_dropLast. }
    destruct (isPrintable e) eqn:Hprint.
    { apply Hsearch. cbn [searchQuery setSearchIndex setSearchQuery].
      apply bmpText_app; [exact Hinv |]. apply length16_one_bmp.
      unfold isPrintable in Hprint.
      destruct (JS.length16 (key e) =? 1)%nat eqn:Hlen; [|discriminate].
      apply Nat.eqb_eq in Hlen. lia. }
    destruct ((key e =? "Escape") || JS.startsWith (key e) "Arrow");
      [now intros [= _ <-] |].
    destruct (key e =? "Enter"); now intros [= _ <-].
  - destruct (isSearchTrigger e); [now intros [= _ <-] |].
    destruct (key e =? "Tab"); [|now intros [= _ <-]].
    cbv zeta. destruct (JS.trim (input t) =? ""); [now intros [= _ <-] |].
    destruct (filter _ commands) as [|m1 [|m2 ms]]; now intros [= _ <-].
Qed.

(** ** Tab completion *)

(** C9 (as amended).  In normal mode, Tab on an input that is empty once trimmed changes
    nothing; otherwise, with [matches] the vocabulary entries that start
    with the trimmed input: a single match replaces the input with that
    entry and a space; several matches leave the input and append to the
    history one command entry with the input as typed and one output entry
    with all the matches joined by three spaces, nothing else of the
    session (working directory, tree, busy flag) being touched; no match
    changes nothing. *)
Theorem tab_completion_spec (app : AppState) (t : TerminalState) (e : KeyboardEvent) :
  isSearching t = false ->
  key e = "Tab" ->
  let trimmedInput := JS.trim (input t) in
  let matches := filter (fun cmd => JS.startsWith cmd trimmedInput) commands in
  (trimmedInput = "" -> handleKeyDown e app t = Some (app, t)) /\
  (trimmedInput <> "" ->
     (forall only, matches = [only] ->
        handleKeyDown e app t = Some (app, setInput (only ++ " ") t)) /\
     (1 < List.length matches ->
        handleKeyDown e app t =
        Some (mkApp (history app ++ [ mkItem command (input t);
                                      mkItem output (JS.join "   " matches) ])%list
                (isLoading app) (cwd app) (fileSystem app),
              t)) /\
     (matches = [] -> handleKeyDown e app t = Some (app, t))).
Proof.
  intros Hs Hkey trimmedInput matches.
  assert (Htrig : isSearchTrigger e = false).
  { unfold isSearchTrigger. rewrite Hkey. apply andb_false_r. }
  assert (Hk : handleKeyDown e app t =
               if trimmedInput =? "" then Some (app, t)
               else match matches with
                    | [only] => Some (app, setInput (only ++ " ") t)
                    | _ :: _ :: _ =>
                        Some (handleAutocompleteSuggestions (input t) matches app, t)
                    | [] => Some (app, t)
                    end).
  { unfold handleKeyDown. rewrite Hs, Htrig, Hkey.
    change ("Tab" =? "Tab") with true. cbv iota zeta.
    fold trimmedInput. fold matches. reflexivity. }
  rewrite Hk. clearbody matches. clearbody trimmedInput. split.
  - intros ->. reflexivity.
  - intros Hne. destruct (String.eqb_spec trimmedInput ""); [contradiction |].
    split; [|split].
    + now intros only ->.
    + intros Hlen. destruct matches as [|m1 [|m2 ms]]; simpl in Hlen; try lia.
      reflexivity.
    + now intros ->.
Qed.

Lemma tab_completion_spec_witness :
  let app := mkApp [] false "/home/kali" exampleTree in
  let press text := handleKeyDown (plainKey "Tab") app (mkTerminal text false "" 0) in
  press " gi" =
    Some (mkApp [ mkItem command " gi";
                  mkItem output
                    ("git status   git log   git clone   git push   git pull   "
                     ++ "git branch   git commit   git diff   git fetch") ]
            false "/home/kali" exampleTree,
          mkTerminal " gi" false "" 0) /\
  press "wh" = Some (app, mkTerminal "whoami " false "" 0) /\
  press (noBreakSpace ++ "wh") = Some (app, mkTerminal "whoami " false "" 0) /\
  press "zz" = Some (app, mkTerminal "zz" false "" 0) /\
  press "   " = Some (app, mkTerminal "   " false "" 0).
Proof.
  intros app press. split; [|split; [|split; [|split]]].
  - destruct (tab_completion_spec app (mkTerminal " gi" false "" 0) (plainKey "Tab")
                eq_refl eq_refl) as [_ H].
    destruct (H ltac:(discriminate)) as (_ & Hmany & _).
    unfold press. rewrite Hmany by (simpl; lia). reflexivity.
  - destruct (tab_completion_spec app (mkTerminal "wh" false "" 0) (plainKey "Tab")
                eq_refl eq_refl) as [_ H].
    destruct (H ltac:(discriminate)) as (Hone & _).
    unfold press. now rewrite (Hone "whoami" eq_refl).
  - destruct (tab_completion_spec app (mkTerminal (noBreakSpace ++ "wh") false "" 0)
                (plainKey "Tab") eq_refl eq_refl) as [_ H].
    destruct (H ltac:(discriminate)) as (Hone & _).
    unfold press. now rewrite (Hone "whoami" eq_refl).
  - destruct (tab_completion_spec app (mkTerminal "zz" false "" 0) (plainKey "Tab")
                eq_refl eq_refl) as [_ H].
    destruct (H ltac:(discriminate)) as (_ & _ & Hnone).
    unfold press. now rewrite (Hnone eq_refl).
  - destruct (tab_completion_spec app (mkTerminal "   " false "" 0) (plainKey "Tab")
                eq_refl eq_refl) as [Hempty _].
    unfold press. now rewrite (Hempty eq_refl).
Defined.

(** C9, counterexample.  The claim has the matching entries joined by a
    space.  On the input [git c], which two entries of the vocabulary
    begin with, the output entry is [git clone   git commit], with three
    spaces between the two, and not the text with one. *)
Lemma tab_suggestions_three_spaces :
  let app := mkApp [] false "/home/kali" exampleTree in
  let matches := filter (fun cmd => JS.startsWith cmd "git c") commands in
  matches = ["git clone"; "git commit"] /\
  handleKeyDown (plainKey "Tab") app (mkTerminal "git c" false "" 0) =
    Some (mkApp [ mkItem command "git c"; mkItem output "git clone   git commit" ]
            false "/home/kali" exampleTree,
          mkTerminal "git c" false "" 0) /\
  JS.join " " matches = "git clone git commit" /\
  "git clone   git commit" <> JS.join " " matches.
Proof. repeat split. discriminate. Qed.

(** ** Products of doubles *)

Section Doubles.

Open Scope Q_scope.

Lemma pow2_pos (e : Z) : 0 < pow2 e.
Proof. apply Qpower_0_lt. reflexivity. Qed.

Lemma pow2_plus (a b : Z) : pow2 (a + b) == pow2 a * pow2 b.
Proof. apply Qpower_plus. discriminate. Qed.

Lemma pow2_le (a b : Z) : (a <= b)%Z -> pow2 a <= pow2 b.
Proof. intros H. apply Qpower_le_compat_l; [exact H | discriminate]. Qed.

Lemma roundHalfEven_upper (x : Q) : inject_Z (roundHalfEven x) <= x + (1 # 2).
Proof.
  unfold roundHalfEven.
  pose proof (Qfloor_le x) as Hle.
  destruct (x - inject_Z (Qfloor x) ?= 1 # 2) eqn:Hc.
  - apply Qeq_alt in Hc.
    destruct (Z.even (Qfloor x)); [lra |].
    rewrite inject_Z_plus. change (inject_Z 1) with 1. lra.
  - lra.
  - apply Qgt_alt in Hc. rewrite inject_Z_plus. change (inject_Z 1) with 1. lra.
Qed.

Lemma roundHalfEven_nonneg (x : Q) : 0 <= x -> (0 <= roundHalfEven x)%Z.
Proof.
  intros Hx. unfold roundHalfEven.
  assert (Hf : (0 <= Qfloor x)%Z).
  { change 0%Z with (Qfloor 0). now apply Qfloor_resp_le. }
  destruct (x - inject_Z (Qfloor x) ?= 1 # 2); [destruct (Z.even (Qfloor x)) | |]; lia.
Qed.

(** The binade of a positive number begins at or below it. *)
Lemma binade_le (q : Q) : 0 < q -> pow2 (binade q) <= q.
Proof.
  intros Hq. unfold binade.
  destruct (Qle_bool _ q) eqn:Ht; [now apply Qle_bool_iff |].
  destruct q as [a b]. cbn [Qnum Qden].
  assert (Ha : (0 < a)%Z) by (unfold Qlt in Hq; cbn in Hq; lia).
  pose proof (Z.log2_spec a Ha) as [Hla _].
  pose proof (Z.log2_spec (Zpos b) ltac:(lia)) as [_ Hlb].
  pose proof (Z.log2_nonneg a) as Hna.
  pose proof (Z.log2_nonneg (Zpos b)) as Hnb.
  set (la := Z.log2 a) in *. set (lb := Z.log2 (Zpos b)) in *.
  replace (la - lb - 1)%Z with (la + - (lb + 1))%Z by lia.
  rewrite pow2_plus. unfold pow2 at 2. rewrite Qpower_opp.
  unfold pow2.
  assert (E1 : 2 ^ la == inject_Z (2 ^ la)) by (now rewrite Zpower_Qpower by lia).
  assert (E2 : 2 ^ (lb + 1) == inject_Z (2 ^ (lb + 1)))
    by (now rewrite Zpower_Qpower by lia).
  rewrite E1, E2. clear E1 E2.
  replace (Z.succ lb) with (lb + 1)%Z in Hlb by lia.
  assert (Hp : (0 < 2 ^ (lb + 1))%Z) by (apply Z.pow_pos_nonneg; lia).
  set (x := (2 ^ la)%Z) in *. set (y := (2 ^ (lb + 1))%Z) in *.
  assert (Hxy : (x * Zpos b <= a * y)%Z) by nia.
  unfold Qle, Qmult, Qinv, inject_Z. cbn [Qnum Qden].
  destruct y as [|y|y]; try lia. cbn [Qnum Qden]. nia.
Qed.

(** A product below [n] by the factor of the largest double under one
    rounds to a double below [n]. *)
Lemma roundDouble_range (r : Q) (n : Z) :
  (0 < n)%Z -> 0 <= r -> r <= 1 - pow2 (-53) ->
  0 <= roundDouble (r * inject_Z n) /\ roundDouble (r * inject_Z n) < inject_Z n.
Proof.
  intros Hn H0 H1.
  assert (Hn1 : 1 <= inject_Z n).
  { change 1 with (inject_Z 1). rewrite <- Zle_Qle. lia. }
  assert (Hp53 : 0 < pow2 (-53)) by apply pow2_pos.
  assert (Hhalf : pow2 (-52) == 2 * pow2 (-53)) by reflexivity.
  assert (Htiny : pow2 (-1022 - 52) < pow2 (-52)) by reflexivity.
  set (q := r * inject_Z n).
  assert (Hb : 0 < q -> pow2 (binade q - 52) <= q * pow2 (-52)).
  { intros Hc. replace (binade q - 52)%Z with (binade q + -52)%Z by lia.
    rewrite pow2_plus. pose proof (binade_le q Hc) as Hle.
    apply Qmult_le_compat_r; [exact Hle |]. apply Qlt_le_weak, pow2_pos. }
  set (p52 := pow2 (-52)) in *. set (p53 := pow2 (-53)) in *.
  clearbody p52 p53.
  assert (Hq0 : 0 <= q) by (subst q; nra).
  assert (Hq1 : q <= inject_Z n - inject_Z n * p53) by (subst q; nra).
  unfold roundDouble.
  destruct (Qlt_le_dec 0 q) as [Hc | Hz].
  2:{ assert (Hq : q == 0) by lra. apply Qeq_alt in Hq. rewrite Hq. lra. }
  assert (Hgt : (q ?= 0) = Gt) by (now apply Qgt_alt).
  rewrite Hgt. unfold roundPositive.
  set (u := pow2 (Z.max (binade q) (-1022) - 52)).
  assert (Hu : 0 < u) by apply pow2_pos.
  assert (Hsmall : u < inject_Z n * p52).
  { subst u. destruct (Z.max_spec (binade q) (-1022)) as [[_ ->] | [_ ->]].
    - apply Qlt_le_trans with p52; [exact Htiny | nra].
    - specialize (Hb Hc). nra. }
  clearbody u. clear Hb Htiny.
  pose proof (roundHalfEven_upper (q / u)) as Hup.
  pose proof (roundHalfEven_nonneg (q / u)) as Hlow.
  assert (Hdiv : q / u * u == q) by (field; lra).
  assert (Hqu : 0 <= q / u).
  { apply Qle_shift_div_l; [exact Hu | lra]. }
  specialize (Hlow Hqu).
  assert (Hk0 : 0 <= inject_Z (roundHalfEven (q / u))).
  { change 0 with (inject_Z 0). now rewrite <- Zle_Qle. }
  set (k := inject_Z (roundHalfEven (q / u))) in *. clearbody k.
  set (x := q / u) in *. clearbody x.
  split; [nra |]. nra.
Qed.

End Doubles.

(** ** Random identifiers and counts *)

Section RandomFacts.

Variable random : nat -> Q.
Hypothesis random_unit : unitInterval random.

Lemma randomBelow_range (n : Z) (calls : nat) :
  (0 < n)%Z ->
  exists k, randomBelow random n calls = (k, S calls) /\ (0 <= k < n)%Z.
Proof.
  intros Hn. unfold randomBelow, bind, mathRandom, ret.
  eexists. split; [reflexivity |].
  destruct (random_unit calls) as [H0 H1].
  destruct (roundDouble_range (random calls) n Hn H0 H1) as [Hlow Hhigh].
  fold (product (random calls) (inject_Z n)) in Hlow, Hhigh. split.
  - change 0%Z with (Qfloor 0). now apply Qfloor_resp_le.
  - rewrite Zlt_Qlt.
    apply Qle_lt_trans with (product (random calls) (inject_Z n));
      [apply Qfloor_le | exact Hhigh].
Qed.

Lemma charAt_hexDigits (k : Z) : (0 <= k < 16)%Z -> hexDigit (charAt hexDigits k).
Proof.
  intros Hk. unfold charAt. destruct (Z.ltb_spec k 0); [lia |].
  assert (Hn : Z.to_nat k < 16) by lia.
  destruct (Z.to_nat k) as [|n]; [eexists; split; reflexivity |].
  do 15 (destruct n as [|n]; [eexists; split; reflexivity |]).
  lia.
Qed.

Lemma times_hexDigits (len calls : nat) :
  exists digits,
    times len (bind (randomBelow random 16) (fun k => ret (charAt hexDigits k))) calls
      = (digits, len + calls) /\
    Forall hexDigit digits /\ List.length digits = len.
Proof.
  revert calls. induction len as [|len IH]; intros calls.
  - exists []. repeat split. constructor.
  - destruct (randomBelow_range 16 calls ltac:(lia)) as (k & Hk & Hrange).
    destruct (IH (S calls)) as (ds & Hds & Hall & Hlen).
    exists (charAt hexDigits k :: ds).
    cbn [times]. unfold bind at 1. unfold bind at 1. rewrite Hk.
    unfold ret at 1. unfold bind at 1. rewrite Hds. unfold ret.
    split; [f_equal; lia |]. split.
    + constructor; [now apply charAt_hexDigits | exact Hall].
    + simpl. now rewrite Hlen.
Qed.

Lemma join_hexDigits (digits : list string) :
  Forall hexDigit digits ->
  String.length (JS.join "" digits) = List.length digits /\
  allChars isLowerHex (JS.join "" digits) = true.
Proof.
  induction 1 as [|d digits (c & -> & Hc) Hds [IHl IHa]]; [split; reflexivity |].
  destruct digits as [|d' digits].
  - simpl. now rewrite Hc.
  - change (JS.join "" (String c "" :: d' :: digits))
      with (String c (JS.join "" (d' :: digits))).
    cbn [String.length allChars]. now rewrite IHl, IHa, Hc.
Qed.

Lemma randomHex_spec (len calls : nat) :
  exists hash,
    randomHex random len calls = (hash, len + calls) /\
    String.length hash = len /\ allChars isLowerHex hash = true.
Proof.
  destruct (times_hexDigits len calls) as (digits & Ht & Hall & Hlen).
  destruct (join_hexDigits digits Hall) as [Hl Ha].
  exists (JS.join "" digits).
  unfold randomHex. unfold bind at 1. rewrite Ht. unfold ret.
  repeat split; [now rewrite Hl | exact Ha].
Qed.

(** The summary of a commit: hash, message and the two counts. *)
Lemma commitOutput_spec (message : string) (calls : nat) :
  exists hash filesChanged insertions,
    fst (commitOutput random message calls) =
      "[main " ++ hash ++ "] " ++ message ++ JS.nl ++ " "
      ++ numberToString filesChanged ++ " file changed, "
      ++ numberToString insertions ++ " insertions(+)" /\
    String.length hash = 7 /\
    allChars isLowerHex hash = true /\
    (1 <= filesChanged <= 3)%Z /\
    (1 <= insertions <= 20)%Z.
Proof.
  destruct (randomHex_spec 7 calls) as (hash & Hh & Hlen & Hhex).
  destruct (randomBelow_range 3 (7 + calls) ltac:(lia)) as (f & Hf & Hfr).
  destruct (randomBelow_range 20 (S (7 + calls)) ltac:(lia)) as (i & Hi & Hir).
  exists hash, (f + 1)%Z, (i + 1)%Z.
  unfold commitOutput. unfold bind at 1. rewrite Hh.
  unfold bind at 1. unfold bind at 1. rewrite Hf.
  unfold ret at 1. unfold bind at 1. unfold bind at 1. rewrite Hi.
  unfold ret. cbn [fst].
  repeat split; try assumption; lia.
Qed.

End RandomFacts.

(** ** White space *)

Section WhiteSpace.

(** The width of a white-space character is read off the bytes of that
    character alone. *)
Lemma ws_width_app (s t : string) :
  (0 < JS.ws_width s)%nat -> JS.ws_width (s ++ t) = JS.ws_width s.
Proof.
  destruct s as [|c1 [|c2 [|c3 r]]]; cbn [JS.ws_width String.append].
  - intros H. inversion H.
  - destruct (_ || _)%bool; [reflexivity |]. intros H. inversion H.
  - destruct (_ || _)%bool; [reflexivity |].
    destruct (_ && _)%bool; [reflexivity |]. intros H. inversion H.
  - reflexivity.
Qed.

Lemma ws_width_prefix (s t : string) (k : nat) :
  JS.ws_width (s ++ t) = S k -> (S k <= String.length s)%nat -> JS.ws_width s = S k.
Proof.
  destruct s as [|c1 [|c2 [|c3 r]]]; cbn [JS.ws_width String.append String.length].
  - intros _ H. inversion H.
  - destruct (_ || _)%bool; [now intros |].
    destruct t as [|c2 [|c3 r]]; cbn [JS.ws_width String.append].
    + discriminate.
    + destruct (_ && _)%bool; [|discriminate]. intros [= <-]. lia.
    + destruct (_ && _)%bool; [intros [= <-]; lia |].
      repeat (destruct (_ && _)%bool; [intros [= <-]; lia |]). discriminate.
  - destruct (_ || _)%bool; [now intros |].
    destruct (_ && _)%bool; [now intros |].
    destruct t as [|c3 r]; cbn [JS.ws_width String.append].
    + discriminate.
    + repeat (destruct (_ && _)%bool; [intros [= <-]; lia |]). discriminate.
  - now intros.
Qed.

Lemma ws_width_le (s : string) : (JS.ws_width s <= String.length s)%nat.
Proof.
  destruct s as [|c1 [|c2 [|c3 r]]]; cbn [JS.ws_width String.length].
  - lia.
  - destruct (_ || _)%bool; lia.
  - destruct (_ || _)%bool; [lia |]. destruct (_ && _)%bool; lia.
  - destruct (_ || _)%bool; [lia |].
    repeat (destruct (_ && _)%bool; [lia |]). lia.
Qed.

Lemma all_space_go_length (k : nat) (ws : string) :
  JS.all_space_go k ws = true -> (k <= String.length ws)%nat.
Proof.
  revert k. induction ws as [|c ws IH]; intros k; cbn [JS.all_space_go String.length].
  - intros H. apply Nat.eqb_eq in H. lia.
  - destruct k as [|k].
    + lia.
    + intros H. apply IH in H. lia.
Qed.

Lemma trimStart_go_app (k : nat) (ws t : string) :
  JS.all_space_go k ws = true ->
  JS.trimStart_go k (ws ++ t) = JS.trimStart_go 0 t.
Proof.
  revert k. induction ws as [|c ws IH]; intros k.
  - cbn [JS.all_space_go]. intros H. apply Nat.eqb_eq in H. now subst k.
  - change (String c ws ++ t) with (String c (ws ++ t)).
    cbn [JS.all_space_go JS.trimStart_go]. destruct k as [|k]; [|apply IH].
    change (String c (ws ++ t)) with (String c ws ++ t).
    destruct (JS.ws_width (String c ws)) as [|j] eqn:Hw; [discriminate |].
    rewrite ws_width_app by (rewrite Hw; lia). rewrite Hw. apply IH.
Qed.

Lemma trimStart_go_decomp (k : nat) (s : string) :
  (k <= String.length s)%nat ->
  exists ws,
    s = ws ++ JS.trimStart_go k s /\ JS.all_space_go k ws = true /\
    (ws = "" -> JS.ws_width s = 0).
Proof.
  revert k. induction s as [|c s IH]; intros k Hk.
  - exists "". cbn in *. assert (k = 0) as -> by lia. repeat split.
  - cbn [JS.trimStart_go]. destruct k as [|k].
    + destruct (JS.ws_width (String c s)) as [|j] eqn:Hw.
      * exists "". repeat split.
      * pose proof (ws_width_le (String c s)) as Hle. rewrite Hw in Hle.
        cbn [String.length] in Hle.
        destruct (IH j ltac:(lia)) as (ws & Hs & Hws & _).
        exists (String c ws). split; [|split].
        -- cbn [String.append]. now rewrite <- Hs.
        -- cbn [JS.all_space_go].
           assert (Hpre : JS.ws_width (String c ws) = S j).
           { apply ws_width_prefix with (t := JS.trimStart_go j s).
             - cbn [String.append]. now rewrite <- Hs.
             - apply all_space_go_length in Hws. cbn [String.length]. lia. }
           now rewrite Hpre.
        -- discriminate.
    + cbn [String.length] in Hk. destruct (IH k ltac:(lia)) as (ws & Hs & Hws & _).
      exists (String c ws). split; [|split].
      * cbn [String.append]. now rewrite <- Hs.
      * exact Hws.
      * discriminate.
Qed.

End WhiteSpace.

(** ** The commit pattern *)

Section CommitPattern.

Lemma skipSpaces_app (ws t : string) :
  JS.all_space ws = true -> JS.ws_width t = 0 ->
  skipSpaces (ws ++ t) = t.
Proof.
  intros Hws Ht. unfold skipSpaces, JS.trimStart.
  rewrite (trimStart_go_app 0 ws t Hws).
  destruct t as [|c t]; [reflexivity |].
  cbn [JS.trimStart_go]. now rewrite Ht.
Qed.

Lemma skipSpaces_decomp (s : string) :
  exists ws,
    s = ws ++ skipSpaces s /\ JS.all_space ws = true /\
    (ws = "" -> JS.ws_width s = 0).
Proof. apply trimStart_go_decomp. lia. Qed.

Lemma quote_no_space (q : ascii) (r : string) :
  q = "034"%char \/ q = "'"%char -> JS.ws_width (String q r) = 0.
Proof. intros [-> | ->]; now destruct r as [|c2 [|c3 r]]. Qed.

Lemma upTo_app (q : ascii) (m r : string) :
  has_char q m = false -> upTo q (m ++ String q r) = m.
Proof.
  induction m as [|c m IH]; simpl; intros H.
  - now rewrite Ascii.eqb_refl.
  - apply orb_false_iff in H as [Hc Hm]. rewrite Hc. now rewrite IH.
Qed.

Lemma upTo_decomp (q : ascii) (s : string) :
  has_char q (upTo q s) = false /\
  s = upTo q s ++ JS.drop (String.length (upTo q s)) s.
Proof.
  induction s as [|c s [IHc IHs]]; [split; reflexivity |].
  simpl. destruct (c =? q)%char eqn:Hc; [split; reflexivity |].
  simpl. rewrite Hc, IHc. split; [reflexivity | now rewrite <- IHs].
Qed.

Lemma drop_app_length (m r : string) : JS.drop (String.length m) (m ++ r) = r.
Proof. induction m as [|c m IH]; simpl; [reflexivity | exact IH]. Qed.

Lemma quotedAt_complete (q : ascii) (s message : string) :
  q = "034"%char \/ q = "'"%char ->
  quotedMessageAt q s message -> quotedAt q s = Some message.
Proof.
  intros Hq (ws & rest & -> & Hne & Hws & Hm & Hfree).
  change ("-m" ++ ws ++ String q (message ++ String q rest))
    with (String "-" (String "m" (ws ++ String q (message ++ String q rest)))).
  cbn [quotedAt]. rewrite !Ascii.eqb_refl. cbn [andb].
  assert (Hwidth : 0 < JS.ws_width ws).
  { destruct ws as [|c ws]; [contradiction |].
    unfold JS.all_space in Hws. cbn [JS.all_space_go] in Hws.
    destruct (JS.ws_width (String c ws)); [discriminate | lia]. }
  rewrite (ws_width_app _ _ Hwidth).
  apply Nat.ltb_lt in Hwidth. rewrite Hwidth.
  rewrite (skipSpaces_app _ _ Hws (quote_no_space _ _ Hq)), Ascii.eqb_refl.
  rewrite (upTo_app _ _ _ Hfree).
  destruct (String.eqb_spec message ""); [contradiction |].
  now rewrite drop_app_length, Ascii.eqb_refl.
Qed.

Lemma quotedAt_sound (q : ascii) (s message : string) :
  quotedAt q s = Some message -> quotedMessageAt q s message.
Proof.
  unfold quotedAt.
  destruct s as [|a [|b rest]]; try discriminate.
  destruct (a =? "-")%char eqn:Ha; [|discriminate].
  destruct (b =? "m")%char eqn:Hb; [|discriminate].
  destruct (0 <? JS.ws_width rest)%nat eqn:Hc; [|discriminate]. cbn [andb].
  apply Ascii.eqb_eq in Ha, Hb. subst a b. apply Nat.ltb_lt in Hc.
  destruct (skipSpaces_decomp rest) as (ws & Hrest & Hws & Hnil).
  destruct (skipSpaces rest) as [|c' body]; [discriminate |].
  destruct (c' =? q)%char eqn:Hc'; [|discriminate].
  apply Ascii.eqb_eq in Hc'. subst c'.
  destruct (upTo_decomp q body) as [Hfree Hbody].
  destruct (String.eqb_spec (upTo q body) "") as [|Hne]; [discriminate |].
  destruct (JS.drop (String.length (upTo q body)) body) as [|c'' tail] eqn:Hdrop;
    [discriminate |].
  destruct (c'' =? q)%char eqn:Hc''; [|discriminate].
  apply Ascii.eqb_eq in Hc''. subst c''.
  intros [= <-].
  exists ws, tail. repeat split.
  - rewrite Hrest, Hbody at 1. reflexivity.
  - intros E. specialize (Hnil E). lia.
  - exact Hws.
  - exact Hne.
  - exact Hfree.
Qed.

Lemma commitMatch_parsable (s : string) : commitMatch s <> None <-> parsable s.
Proof.
  split.
  - induction s as [|c s IH].
    + cbn [commitMatch].
      destruct (quotedAt "034" "") eqn:E1; [discriminate |].
      destruct (quotedAt "'" "") eqn:E2; [discriminate | congruence].
    + cbn [commitMatch].
      destruct (quotedAt "034" (String c s)) as [m|] eqn:E1.
      * intros _. exists "", (String c s), "034"%char, m.
        repeat split; [now left | now apply quotedAt_sound].
      * destruct (quotedAt "'" (String c s)) as [m|] eqn:E2.
        -- intros _. exists "", (String c s), "'"%char, m.
           repeat split; [now right | now apply quotedAt_sound].
        -- intros H. destruct (IH H) as (pre & tail & q & m & -> & Hq & Hm).
           now exists (String c pre), tail, q, m.
  - intros (pre & tail & q & m & -> & Hq & Hm).
    pose proof (quotedAt_complete _ _ _ Hq Hm) as Hat.
    assert (Hhere : commitMatch tail <> None).
    { destruct tail as [|c tail]; cbn [commitMatch].
      - destruct Hq; subst q; [now rewrite Hat |].
        destruct (quotedAt "034" ""); [discriminate | now rewrite Hat].
      - destruct Hq; subst q; [now rewrite Hat |].
        destruct (quotedAt "034" (String c tail)); [discriminate | now rewrite Hat]. }
    induction pre as [|c pre IH]; [exact Hhere |].
    change (String c pre ++ tail) with (String c (pre ++ tail)).
    cbn [commitMatch].
    destruct (quotedAt "034" (String c (pre ++ tail))); [discriminate |].
    destruct (quotedAt "'" (String c (pre ++ tail))); [discriminate | exact IH].
Qed.

Lemma quotedAt_nonempty (q : ascii) (s message : string) :
  quotedAt q s = Some message -> message <> "".
Proof. intros H. apply quotedAt_sound in H as (_ & _ & _ & _ & _ & Hne & _). exact Hne. Qed.

(** A match always carries a non-empty message: the empty-message error
    of the commit branch is never reached. *)
Lemma commitMatch_message (s : string) (g1 g2 : option string) :
  commitMatch s = Some (g1, g2) ->
  exists message, firstTruthy g1 g2 = Some message /\ message <> "".
Proof.
  induction s as [|c s IH]; cbn [commitMatch].
  - destruct (quotedAt "034" "") as [m|] eqn:E1.
    + intros [= <- <-]. exists m. pose proof (quotedAt_nonempty _ _ _ E1) as Hne.
      simpl. destruct (String.eqb_spec m ""); [contradiction | now split].
    + destruct (quotedAt "'" "") as [m|] eqn:E2; [|discriminate].
      intros [= <- <-]. exists m. pose proof (quotedAt_nonempty _ _ _ E2) as Hne.
      simpl. destruct (String.eqb_spec m ""); [contradiction | now split].
  - destruct (quotedAt "034" (String c s)) as [m|] eqn:E1.
    + intros [= <- <-]. exists m. pose proof (quotedAt_nonempty _ _ _ E1) as Hne.
      simpl. destruct (String.eqb_spec m ""); [contradiction | now split].
    + destruct (quotedAt "'" (String c s)) as [m|] eqn:E2; [|exact IH].
      intros [= <- <-]. exists m. pose proof (quotedAt_nonempty _ _ _ E2) as Hne.
      simpl. destruct (String.eqb_spec m ""); [contradiction | now split].
Qed.

End CommitPattern.

(** ** git commit *)

Section GitCommit.

Variable random : nat -> Q.
Variable simulateCommandOutput : string -> string + string.
Variable utcStringAgo : Q -> string.

Let run := executeCommand random simulateCommandOutput utcStringAgo.

Lemma executeCommand_commit (commandLine rest : string) (st : AppState) :
  JS.trim commandLine = "git commit" ++ rest ->
  run commandLine st =
  gitCommit random ("git commit" ++ rest)
    (setIsLoading true
       (setHistory (append (mkItem command ("git commit" ++ rest))) st)).
Proof.
  intros H. unfold run, executeCommand. rewrite H. cbv zeta.
  replace (JS.startsWith ("git commit" ++ rest) "git commit") with true
    by (symmetry; apply prefix_refl_append).
  reflexivity.
Qed.

Lemma gitCommit_history (trimmed : string) (st : AppState) :
  history (gitCommit random trimmed st) =
  (history st ++
   [ mkItem output
       match commitMatch trimmed with
       | None => missingMessage
       | Some (g1, g2) =>
           match firstTruthy g1 g2 with
           | None => "fatal: commit message is empty."
           | Some message => fst (commitOutput random message 0)
           end
       end ])%list.
Proof.
  unfold gitCommit.
  destruct (commitMatch trimmed) as [[g1 g2]|]; [|reflexivity].
  destruct (firstTruthy g1 g2); reflexivity.
Qed.

End GitCommit.

(** C5.  For a submitted line that, once trimmed, begins with
    [git commit], and for every run of [Math.random] within the unit
    interval: when the line holds the flag [-m], white space and a
    non-empty message between double or single quotes, the output entry is
    the summary [[main <hash>] <message>], a line feed, and the stat line,
    where the hash is exactly seven lowercase hexadecimal digits, the file
    count lies in 1..3 and the insertion count in 1..20; when the line
    holds no such message, the output entry is the missing-message error,
    a text without seven hexadecimal digits in a row. *)
Theorem git_commit_spec (random : nat -> Q) (simulateCommandOutput : string -> string + string)
    (utcStringAgo : Q -> string) (commandLine : string) (st : AppState) :
  unitInterval random ->
  let trimmed := JS.trim commandLine in
  JS.startsWith trimmed "git commit" = true ->
  let st' := executeCommand random simulateCommandOutput utcStringAgo commandLine st in
  (parsable trimmed ->
     exists hash message filesChanged insertions,
       history st' =
         (history st ++
          [ mkItem command trimmed;
            mkItem output
              ("[main " ++ hash ++ "] " ++ message ++ JS.nl ++ " "
               ++ numberToString filesChanged ++ " file changed, "
               ++ numberToString insertions ++ " insertions(+)") ])%list /\
       String.length hash = 7 /\
       allChars isLowerHex hash = true /\
       message <> "" /\
       (1 <= filesChanged <= 3)%Z /\
       (1 <= insertions <= 20)%Z) /\
  (~ parsable trimmed ->
     history st' =
       (history st ++ [ mkItem command trimmed; mkItem output missingMessage ])%list) /\
  hasHexRun 7 missingMessage = false.
Proof.
  intros Hrandom trimmed Hstart st'.
  destruct (prefix_true_append _ _ Hstart) as [rest Hrest].
  assert (Hst' : history st' =
                 ((history st ++ [mkItem command trimmed]) ++
                  [ mkItem output
                      match commitMatch trimmed with
                      | None => missingMessage
                      | Some (g1, g2) =>
                          match firstTruthy g1 g2 with
                          | None => "fatal: commit message is empty."
                          | Some message => fst (commitOutput random message 0)
                          end
                      end ])%list).
  { subst st'. rewrite (executeCommand_commit _ _ _ _ _ _ Hrest), gitCommit_history.
    fold trimmed. rewrite <- Hrest. reflexivity. }
  rewrite <- app_assoc in Hst'. cbn [List.app] in Hst'.
  split; [|split; [|reflexivity]].
  - intros Hp. apply commitMatch_parsable in Hp.
    destruct (commitMatch trimmed) as [[g1 g2]|] eqn:Hm; [|congruence].
    destruct (commitMatch_message _ _ _ Hm) as (message & Hfirst & Hne).
    rewrite Hfirst in Hst'.
    destruct (commitOutput_spec random Hrandom message 0)
      as (hash & files & ins & Hout & Hlen & Hhex & Hf & Hi).
    rewrite Hout in Hst'.
    exists hash, message, files, ins. repeat split; try assumption; lia.
  - intros Hnp.
    destruct (commitMatch trimmed) as [[g1 g2]|] eqn:Hm; [|exact Hst'].
    exfalso. apply Hnp, commitMatch_parsable. congruence.
Qed.

Lemma git_commit_spec_witness :
  let random (calls : nat) : Q := (Z.of_nat (calls * 7 mod 10) # 10) in
  let external (_ : string) : string + string := inl "" in
  let run line :=
    history (executeCommand random external (fun _ => "") line
               (mkApp [] false "/home/kali" exampleTree)) in
  unitInterval random /\
  JS.startsWith (JS.trim ("git commit -m " ++ JS.dq ++ "fix bug" ++ JS.dq)) "git commit"
    = true /\
  parsable (JS.trim ("git commit -m " ++ JS.dq ++ "fix bug" ++ JS.dq)) /\
  run ("git commit -m " ++ JS.dq ++ "fix bug" ++ JS.dq) =
    [ mkItem command ("git commit -m " ++ JS.dq ++ "fix bug" ++ JS.dq);
      mkItem output ("[main 0b61c83] fix bug" ++ JS.nl
                     ++ " 3 file changed, 13 insertions(+)") ] /\
  run "git commit" = [ mkItem command "git commit"; mkItem output missingMessage ].
Proof.
  intros random external run.
  assert (Hunit : unitInterval random).
  { intros calls. unfold random. split.
    - unfold Qle. cbn [Qnum Qden]. lia.
    - apply Qle_trans with (9 # 10)%Q; [|now vm_compute].
      unfold Qle. cbn [Qnum Qden].
      pose proof (Nat.mod_upper_bound (calls * 7) 10 ltac:(lia)). lia. }
  assert (Hp : parsable (JS.trim ("git commit -m " ++ JS.dq ++ "fix bug" ++ JS.dq))).
  { exists "git commit ", ("-m " ++ JS.dq ++ "fix bug" ++ JS.dq), "034"%char, "fix bug".
    repeat split; [now left |].
    exists " ", "". repeat split; discriminate. }
  split; [exact Hunit |]. split; [reflexivity |]. split; [exact Hp |]. split.
  - reflexivity.
  - destruct (git_commit_spec random external (fun _ => "") "git commit"
                (mkApp [] false "/home/kali" exampleTree) Hunit eq_refl)
      as (_ & Hnone & _).
    apply Hnone. intros Hbad. apply commitMatch_parsable in Hbad. now apply Hbad.
Defined.

(** ** git clone *)

Section GitClone.

Variable random : nat -> Q.
Variable simulateCommandOutput : string -> string + string.
Variable utcStringAgo : Q -> string.

Let run := executeCommand random simulateCommandOutput utcStringAgo.

Lemma executeCommand_clone (commandLine rest : string) (st : AppState) :
  JS.trim commandLine = "git clone" ++ rest ->
  run commandLine st =
  gitClone ("git clone" ++ rest) (history st)
    (setIsLoading true
       (setHistory (append (mkItem command ("git clone" ++ rest))) st)).
Proof.
  intros H. unfold run, executeCommand. rewrite H. cbv zeta.
  replace (JS.startsWith ("git clone" ++ rest) "git clone") with true
    by (symmetry; apply prefix_refl_append).
  reflexivity.
Qed.

Lemma streamInto_last (l : list HistoryItem) (old text : string) :
  streamInto (List.length l) text (l ++ [mkItem output old]) =
  (l ++ [mkItem output text])%list.
Proof. induction l as [|x l IH]; simpl; [reflexivity | now rewrite IH]. Qed.

Lemma stream_others (historyIndex : nat) (progressLines : list string)
    (currentOutput : string) (st : AppState) :
  cwd (stream historyIndex progressLines currentOutput st) = cwd st /\
  fileSystem (stream historyIndex progressLines currentOutput st) = fileSystem st /\
  isLoading (stream historyIndex progressLines currentOutput st) = isLoading st.
Proof.
  revert currentOutput st.
  induction progressLines as [|line rest IH]; intros currentOutput st;
    cbn [stream]; [repeat split |].
  destruct (IH (currentOutput ++ JS.nl ++ line)
              (setHistory (streamInto historyIndex (currentOutput ++ JS.nl ++ line)) st))
    as (H1 & H2 & H3).
  rewrite H1, H2, H3. repeat split.
Qed.

Lemma stream_history (l : list HistoryItem) (progressLines : list string)
    (currentOutput : string) (st : AppState) :
  history st = (l ++ [mkItem output currentOutput])%list ->
  history (stream (List.length l) progressLines currentOutput st) =
  (l ++ [mkItem output (streamedText currentOutput progressLines)])%list.
Proof.
  revert currentOutput st.
  induction progressLines as [|line rest IH]; intros currentOutput st Hh;
    [exact Hh |].
  cbn [stream streamedText fold_left]. apply IH.
  unfold setHistory. cbn [history]. rewrite Hh. apply streamInto_last.
Qed.

Lemma getNode_below (fileSystem : FileSystemNode) (cwd sub : string) :
  getNode fileSystem (cwd ++ "/" ++ sub) =
  match getNode fileSystem cwd with
  | Some node => walk (parts sub) node
  | None => None
  end.
Proof. unfold getNode. now rewrite parts_app, walk_app. Qed.

(** The clone branch when the destination exists: one fatal line, nothing
    else. *)
Lemma gitClone_exists (trimmed repoUrl : string) (closed : list HistoryItem)
    (st : AppState) :
  cloneUrl trimmed = Some repoUrl ->
  getNode (fileSystem st) (cwd st ++ "/" ++ repoNameOf repoUrl) <> None \/
  getNodeInherited (fileSystem st) (cwd st ++ "/" ++ repoNameOf repoUrl) = true ->
  gitClone trimmed closed st = finish (existsMessage (repoNameOf repoUrl)) st.
Proof.
  intros Hurl Hex. unfold gitClone. rewrite Hurl.
  destruct (getNode (fileSystem st) (cwd st ++ "/" ++ repoNameOf repoUrl));
    [reflexivity |].
  destruct Hex as [Hex | ->]; [congruence | reflexivity].
Qed.

(** The clone branch when the destination is free and the working
    directory is a directory: the streamed entry and the new subtree. *)
Lemma gitClone_fresh (trimmed repoUrl : string) (st : AppState)
    (l : list HistoryItem) (children : Children) :
  cloneUrl trimmed = Some repoUrl ->
  history st = l ->
  getNode (fileSystem st) (cwd st) = Some (Directory children) ->
  prop_get children (repoNameOf repoUrl) = None ->
  inherited (repoNameOf repoUrl) = false ->
  getNode (fileSystem st) (cwd st ++ "/" ++ repoNameOf repoUrl) = None ->
  getNodeInherited (fileSystem st) (cwd st ++ "/" ++ repoNameOf repoUrl) = false ->
  let repoName := repoNameOf repoUrl in
  let st' := gitClone trimmed (removelast l) st in
  l <> [] ->
  history st' =
    (l ++ [ mkItem output
              (streamedText ("Cloning into '" ++ repoName ++ "'...") cloneProgressLines) ])%list
  /\ cwd st' = cwd st
  /\ isLoading st' = false
  /\ fileSystem st' =
       mutate (fileSystem st) (cwd st) (set_child repoName (clonedTree repoName)).
Proof.
  intros Hurl Hh Hcwd Hfree Hown Hnone Hinh repoName st' Hl.
  subst st'. unfold gitClone. rewrite Hurl. fold repoName in Hnone, Hfree, Hown, Hinh |- *.
  rewrite Hnone, Hinh. cbv zeta.
  set (initialOutput := "Cloning into '" ++ repoName ++ "'...").
  set (st0 := setHistory (append (mkItem output initialOutput)) st).
  assert (Hidx : List.length (removelast l) + 1 = List.length l).
  { destruct (snoc_or_nil l) as [-> | (init & x & ->)]; [contradiction |].
    rewrite removelast_last, length_app. reflexivity. }
  rewrite Hidx.
  assert (Hh0 : history st0 = (l ++ [mkItem output initialOutput])%list).
  { subst st0. unfold setHistory, append. cbn [history]. now rewrite Hh. }
  pose proof (stream_history l cloneProgressLines initialOutput st0 Hh0) as Hs.
  destruct (stream_others (List.length l) cloneProgressLines initialOutput st0)
    as (Hc & Hf & _).
  set (st1 := stream (List.length l) cloneProgressLines initialOutput st0) in *.
  unfold setIsLoading. cbn [history cwd isLoading fileSystem].
  rewrite Hs, Hc, Hf. subst st0. cbn [setHistory cwd fileSystem].
  unfold createClonedDirectory. rewrite Hcwd, Hfree, Hown. cbn [snd].
  repeat split.
Qed.

End GitClone.

(** * Further properties of the code *)

(** ** The first argument *)

Section Words.

Lemma arg0_word (arg : string) (rest : list string) :
  arg <> "" -> arg0 (arg :: rest) = Some arg.
Proof. intros H. simpl. now destruct (String.eqb_spec arg ""). Qed.

End Words.

(** ** Resolved paths are canonical *)

Section Canonical.

Lemma resolve_step_plain (currentParts : list string) (part : string) :
  Forall plain currentParts -> segment part ->
  Forall plain (resolve_step currentParts part).
Proof.
  intros Hc Hp. unfold resolve_step.
  destruct (String.eqb_spec part "."); [exact Hc |].
  destruct (String.eqb_spec part "..").
  - now apply Forall_removelast.
  - apply Forall_app. split; [exact Hc |]. constructor; [|constructor].
    repeat split; try assumption; apply Hp.
Qed.

Lemma fold_resolve_plain (ps currentParts : list string) :
  Forall segment ps -> Forall plain currentParts ->
  Forall plain (fold_left resolve_step ps currentParts).
Proof.
  intros Hps. revert currentParts.
  induction Hps as [|part ps Hp _ IH]; intros currentParts Hc; simpl; [exact Hc |].
  apply IH. now apply resolve_step_plain.
Qed.

Lemma fold_resolve_keeps (ps currentParts : list string) :
  Forall plain ps -> fold_left resolve_step ps currentParts = (currentParts ++ ps)%list.
Proof.
  intros Hps. revert currentParts.
  induction Hps as [|part ps (Hseg & Hdot & Hdots) _ IH]; intros currentParts; simpl.
  - now rewrite app_nil_r.
  - rewrite IH. unfold resolve_step.
    destruct (String.eqb_spec part "."); [contradiction |].
    destruct (String.eqb_spec part ".."); [contradiction |].
    now rewrite <- app_assoc.
Qed.

Lemma resolvedParts_plain (cwd path : string) :
  JS.startsWith path "/" = true \/ Forall plain (parts cwd) ->
  Forall plain (resolvedParts cwd path).
Proof.
  intros H. unfold resolvedParts.
  destruct (JS.startsWith path "/") eqn:Hs.
  - apply fold_resolve_plain; [apply parts_segments | constructor].
  - destruct H as [H | H]; [discriminate |].
    destruct (path =? "~").
    + repeat constructor; discriminate.
    + apply fold_resolve_plain; [apply parts_segments | exact H].
Qed.

Lemma resolvePath_absolute (cwd path : string) :
  JS.startsWith (resolvePath cwd path) "/" = true.
Proof. rewrite resolvePath_parts. apply (prefix_refl_append "/"). Qed.

Lemma resolvePath_again (cwd cwd' path : string) :
  Forall plain (resolvedParts cwd path) ->
  resolvePath cwd' (resolvePath cwd path) = resolvePath cwd path.
Proof.
  intros Hplain.
  rewrite (resolvePath_parts cwd' (resolvePath cwd path)).
  unfold resolvedParts at 1. rewrite resolvePath_absolute, parts_resolvePath.
  rewrite (fold_resolve_keeps _ [] Hplain). simpl.
  symmetry. apply resolvePath_parts.
Qed.

End Canonical.

(** X1.  A resolved path is a fixed point of resolution: when the
    expression is absolute, or the working directory has no dot segments,
    resolving the result of [resolvePath] once more, against any directory,
    gives it back unchanged. *)
Theorem resolvePath_idempotent (cwd cwd' path : string) :
  JS.startsWith path "/" = true \/ Forall plain (parts cwd) ->
  resolvePath cwd' (resolvePath cwd path) = resolvePath cwd path.
Proof. intros H. now apply resolvePath_again, resolvedParts_plain. Qed.

Lemma resolvePath_idempotent_witness :
  JS.startsWith "/a/../b/./c/" "/" = true /\
  resolvePath "/home/kali" "/a/../b/./c/" = "/b/c" /\
  resolvePath "/tmp/x" (resolvePath "/home/kali" "/a/../b/./c/") = "/b/c".
Proof.
  split; [reflexivity |]. split; [reflexivity |].
  rewrite (resolvePath_idempotent "/home/kali" "/tmp/x" "/a/../b/./c/" (or_introl eq_refl)).
  reflexivity.
Defined.

(** X2.  Lookup composes along a path and does not see empty pieces: the
    node at [a/b] is the node that [b] leads to from the node at [a], and a
    slash in front or at the end changes nothing. *)
Theorem getNode_composes (fileSystem : FileSystemNode) (a b : string) :
  getNode fileSystem (a ++ "/" ++ b) =
    match getNode fileSystem a with
    | Some node => getNode node b
    | None => None
    end /\
  getNode fileSystem ("/" ++ a) = getNode fileSystem a /\
  getNode fileSystem (a ++ "/") = getNode fileSystem a.
Proof.
  split; [apply getNode_below |]. split.
  - unfold getNode. now rewrite parts_leading_slash.
  - unfold getNode. change (a ++ "/") with (a ++ "/" ++ "").
    rewrite (parts_app a ""). now rewrite app_nil_r.
Qed.

(** ** What an update leaves alone *)

Section Frames.


Lemma update_at_missing (p : list string) (f : FileSystemNode -> FileSystemNode)
    (node : FileSystemNode) :
  walk p node = None -> update_at p f node = node.
Proof.
  revert node. induction p as [|a p IH]; intros node; simpl; [discriminate |].
  destruct node as [|children]; [reflexivity |].
  destruct (prop_get children a) as [next|] eqn:E; [|reflexivity].
  intros H. rewrite (IH _ H).
  f_equal. clear -E. induction children as [|[k w] rest IHc]; simpl in *; [discriminate |].
  destruct (k =? a) eqn:Ek.
  - apply String.eqb_eq in Ek. subst k. now injection E as ->.
  - now rewrite IHc.
Qed.

(** A child added under [p] at a free name: every path that does not pass
    through the new child leads to what it led to. *)
Lemma walk_frame_child (p : list string) (name : string) (v node : FileSystemNode)
    (children : Children) (q : list string) :
  walk p node = Some (Directory children) ->
  (forall r, q <> ((p ++ [name]) ++ r)%list) ->
  shape (walk q (update_at p (set_child name v) node)) = shape (walk q node).
Proof.
  revert node q. induction p as [|a p IH]; intros node q Hp Hq.
  - simpl in Hp. injection Hp as ->. cbn [update_at set_child].
    destruct q as [|x q]; [reflexivity |]. cbn [walk].
    destruct (String.eqb_spec x name) as [->|Hne].
    + exfalso. now apply (Hq q).
    + now rewrite prop_get_set_other.
  - cbn [walk] in Hp. destruct node as [|ch0]; [discriminate |].
    cbn [update_at].
    destruct (prop_get ch0 a) as [next|] eqn:Ea; [|discriminate].
    destruct q as [|x q]; [reflexivity |]. cbn [walk].
    destruct (String.eqb_spec x a) as [->|Hne].
    + rewrite prop_get_set_same, Ea. apply (IH _ _ Hp).
      intros r ->. now apply (Hq r).
    + now rewrite prop_get_set_other.
Qed.

(** The text of the file at [p] replaced: every other path leads to what it
    led to, and [p] still leads to a file, if it did. *)
Lemma walk_frame_content (p : list string) (content : string) (node : FileSystemNode)
    (q : list string) :
  q <> p ->
  shape (walk q (update_at p (set_content content) node)) = shape (walk q node).
Proof.
  revert node q. induction p as [|a p IH]; intros node q Hq.
  - destruct q as [|x q]; [contradiction |].
    cbn [update_at]. destruct node; reflexivity.
  - cbn [update_at]. destruct node as [|ch0]; [reflexivity |].
    destruct (prop_get ch0 a) as [next|] eqn:Ea; [|reflexivity].
    destruct q as [|x q]; [reflexivity |]. cbn [walk].
    destruct (String.eqb_spec x a) as [->|Hne].
    + rewrite prop_get_set_same, Ea. apply IH. congruence.
    + now rewrite prop_get_set_other.
Qed.

Lemma shape_dir (n : option FileSystemNode) : is_directory n = true <-> shape n = Dir.
Proof. destruct n as [[|]|]; simpl; split; congruence. Qed.

Lemma content_keeps_directories (p : list string) (content : string)
    (node : FileSystemNode) (q : list string) :
  is_directory (walk q node) = true ->
  is_directory (walk q (update_at p (set_content content) node)) = true.
Proof.
  intros H. destruct (list_eq_dec string_dec q p) as [->|Hne].
  - destruct (walk p node) as [m|] eqn:Hm; [|discriminate].
    rewrite (walk_update_at _ _ _ _ Hm). now destruct m.
  - apply shape_dir. rewrite (walk_frame_content _ _ _ _ Hne). now apply shape_dir.
Qed.

Lemma child_keeps_directories (p : list string) (name : string) (v node : FileSystemNode)
    (children : Children) (q : list string) :
  walk p node = Some (Directory children) ->
  prop_get children name = None ->
  is_directory (walk q node) = true ->
  is_directory (walk q (update_at p (set_child name v) node)) = true.
Proof.
  intros Hp Hfree H. apply shape_dir.
  rewrite (walk_frame_child _ _ _ _ _ _ Hp); [now apply shape_dir |].
  intros r ->. rewrite walk_app, (walk_child _ _ _ _ Hp), Hfree in H. discriminate.
Qed.

End Frames.

(** ** mkdir, once it has succeeded *)

Section MkdirSuccess.

Lemma mkdirMessage_not_empty (targetPath reason : string) :
  mkdirMessage targetPath reason <> "".
Proof. discriminate. Qed.

(** A successful mkdir in terms of the tree: the parent directory, the
    free name, and the update. *)
Lemma mkdir_success (args : list string) (target cwd : string)
    (fileSystem : FileSystemNode) :
  arg0 args = Some target ->
  returned (builtin "mkdir" args cwd fileSystem) = Some "" ->
  exists init name children,
    parts (resolvePath cwd target) = (init ++ [name])%list /\
    walk init fileSystem = Some (Directory children) /\
    prop_get children name = None /\
    inherited name = false /\
    builtin "mkdir" args cwd fileSystem =
      mkFsResult (Some "") cwd
        (update_at init (set_child name (Directory [])) fileSystem).
Proof.
  intros Harg Hret.
  destruct (mkdir_outcome cwd fileSystem args target Harg) as [Hout _].
  cbv zeta in Hout. rewrite Hout in Hret |- *. clear Hout.
  set (segs := parts (resolvePath cwd target)) in *.
  destruct (getNode fileSystem (resolvePath cwd target)) eqn:Hnode.
  { cbn [returned] in Hret. apply some_inj in Hret.
    now apply mkdirMessage_not_empty in Hret. }
  destruct (walk (removelast segs) fileSystem) as [[|children]|] eqn:Hw;
    try (cbn [returned] in Hret; apply some_inj in Hret;
         now apply mkdirMessage_not_empty in Hret).
  destruct (inherited (last segs "")) eqn:Hinh.
  { cbn [returned] in Hret. apply some_inj in Hret.
    now apply mkdirMessage_not_empty in Hret. }
  destruct (snoc_or_nil segs) as [Hnil | (init & name & Hlast)].
  - unfold getNode in Hnode. fold segs in Hnode. rewrite Hnil in Hnode. discriminate.
  - rewrite Hlast, removelast_last in Hw. rewrite Hlast, last_last in Hinh.
    rewrite Hlast, removelast_last, last_last.
    exists init, name, children. repeat split; try assumption.
    unfold getNode in Hnode. fold segs in Hnode.
    now rewrite Hlast, (walk_child _ _ _ _ Hw) in Hnode.
Qed.

End MkdirSuccess.



(** X4.  After a successful mkdir of [target], a cd to the same target from
    the same working directory succeeds and makes the resolved path the
    working directory, [pwd] there returns that path, and the same mkdir
    line given again from the first directory reports that the file exists
    and changes nothing. *)
Theorem mkdir_cd_pwd (fileSystem : FileSystemNode) (cwd target : string)
    (mkdirLine mkdirVerb : string) (mkdirArgs : list string)
    (cdLine cdVerb : string) (cdArgs : list string) :
  JS.split_ws mkdirLine = mkdirVerb :: mkdirArgs ->
  JS.toLowerCase mkdirVerb = "mkdir" ->
  arg0 mkdirArgs = Some target ->
  JS.split_ws cdLine = cdVerb :: cdArgs ->
  JS.toLowerCase cdVerb = "cd" ->
  arg0 cdArgs = Some target ->
  let made := handleFileSystemCommand mkdirLine cwd fileSystem in
  returned made = Some "" ->
  let entered := handleFileSystemCommand cdLine cwd (new_fs made) in
  entered = mkFsResult (Some "") (resolvePath cwd target) (new_fs made) /\
  handleFileSystemCommand "pwd" (new_cwd entered) (new_fs entered) =
    mkFsResult (Some (resolvePath cwd target)) (resolvePath cwd target) (new_fs made) /\
  handleFileSystemCommand mkdirLine cwd (new_fs made) =
    mkFsResult (Some (mkdirMessage target "File exists")) cwd (new_fs made).
Proof.
  intros Hmtok Hmverb Hmarg Hctok Hcverb Hcarg made Hret entered.
  assert (Hmade : made = builtin "mkdir" mkdirArgs cwd fileSystem).
  { subst made. now rewrite (handle_tokens _ _ _ _ _ Hmtok), Hmverb. }
  rewrite Hmade in Hret.
  destruct (mkdir_success mkdirArgs target cwd fileSystem Hmarg Hret)
    as (init & name & children & Hparts & Hw & Hfree & _ & Hres).
  assert (Hnew : getNode (new_fs made) (resolvePath cwd target) = Some (Directory [])).
  { rewrite Hmade, Hres. cbn [new_fs]. unfold getNode. rewrite Hparts.
    now apply walk_new_child with (children := children). }
  assert (Hentered : entered = mkFsResult (Some "") (resolvePath cwd target) (new_fs made)).
  { subst entered. rewrite (handle_tokens _ _ _ _ _ Hctok), Hcverb, builtin_cd.
    unfold cdTarget. rewrite Hcarg, Hnew. reflexivity. }
  split; [exact Hentered |]. split.
  - rewrite Hentered. reflexivity.
  - rewrite (handle_tokens _ _ _ _ _ Hmtok), Hmverb.
    destruct (mkdir_outcome cwd (new_fs made) mkdirArgs target Hmarg) as [Hout _].
    cbv zeta in Hout. rewrite Hout, Hnew. reflexivity.
Qed.

Lemma mkdir_cd_pwd_witness :
  JS.split_ws "mkdir notes" = ["mkdir"; "notes"] /\
  JS.split_ws "cd notes" = ["cd"; "notes"] /\
  returned (handleFileSystemCommand "mkdir notes" "/home/kali" exampleTree) = Some "" /\
  returned
    (handleFileSystemCommand "pwd" "/home/kali/notes"
       (new_fs (handleFileSystemCommand "mkdir notes" "/home/kali" exampleTree)))
  = Some "/home/kali/notes".
Proof.
  do 3 (split; [reflexivity |]).
  destruct (mkdir_cd_pwd exampleTree "/home/kali" "notes"
              "mkdir notes" "mkdir" ["notes"] "cd notes" "cd" ["notes"]
              eq_refl eq_refl eq_refl eq_refl eq_refl eq_refl eq_refl) as (He & Hp & _).
  rewrite He in Hp. cbn [new_cwd new_fs] in Hp.
  change (resolvePath "/home/kali" "notes") with "/home/kali/notes" in Hp.
  now rewrite Hp.
Defined.

(** ** What each built-in can touch *)

Section Effects.

Variables (args : list string) (cwd : string) (fileSystem : FileSystemNode).

Ltac split_cases :=
  repeat match goal with
         | |- context [match ?x with _ => _ end] => destruct x
         end.

Lemma builtin_cwd (verb : string) :
  verb <> "cd" -> new_cwd (builtin verb args cwd fileSystem) = cwd.
Proof.
  intros H. unfold builtin.
  replace (verb =? "cd") with false by (symmetry; now apply String.eqb_neq).
  split_cases; reflexivity.
Qed.

Lemma builtin_fs (verb : string) :
  verb <> "mkdir" -> verb <> "termux-fix-shebang" ->
  new_fs (builtin verb args cwd fileSystem) = fileSystem.
Proof.
  intros H1 H2. unfold builtin.
  replace (verb =? "mkdir") with false by (symmetry; now apply String.eqb_neq).
  replace (verb =? "termux-fix-shebang") with false
    by (symmetry; now apply String.eqb_neq).
  split_cases; reflexivity.
Qed.

Lemma builtin_null (verb : string) :
  returned (builtin verb args cwd fileSystem) = None <-> ~ In verb builtinVerbs.
Proof.
  unfold builtin.
  destruct (String.eqb_spec verb "pwd") as [->|H1].
  { split; [discriminate | intros H; exfalso; apply H; simpl; tauto]. }
  destruct (String.eqb_spec verb "cd") as [->|H2].
  { split; [split_cases; discriminate | intros H; exfalso; apply H; simpl; tauto]. }
  destruct (String.eqb_spec verb "ls") as [->|H3].
  { split; [split_cases; discriminate | intros H; exfalso; apply H; simpl; tauto]. }
  destruct (String.eqb_spec verb "cat") as [->|H4].
  { split; [split_cases; discriminate | intros H; exfalso; apply H; simpl; tauto]. }
  destruct (String.eqb_spec verb "mkdir") as [->|H5].
  { split; [split_cases; discriminate | intros H; exfalso; apply H; simpl; tauto]. }
  destruct (String.eqb_spec verb "whoami") as [->|H6].
  { split; [discriminate | intros H; exfalso; apply H; simpl; tauto]. }
  destruct (String.eqb_spec verb "termux-fix-shebang") as [->|H7].
  { split; [split_cases; discriminate | intros H; exfalso; apply H; simpl; tauto]. }
  split; [|reflexivity].
  intros _ Hin. simpl in Hin.
  repeat (destruct Hin as [Hin | Hin]; [now subst verb |]). exact Hin.
Qed.

Lemma mkdir_keeps_directories (q : list string) :
  is_directory (walk q fileSystem) = true ->
  is_directory (walk q (new_fs (builtin "mkdir" args cwd fileSystem))) = true.
Proof.
  intros H. destruct (arg0 args) as [target|] eqn:Harg.
  2:{ unfold builtin. cbn. now rewrite Harg. }
  destruct (mkdir_outcome cwd fileSystem args target Harg) as [Hout _].
  cbv zeta in Hout. rewrite Hout. clear Hout.
  set (segs := parts (resolvePath cwd target)) in *.
  destruct (getNode fileSystem (resolvePath cwd target)) eqn:Hnode; [exact H |].
  destruct (walk (removelast segs) fileSystem) as [[|children]|] eqn:Hw;
    try exact H.
  destruct (inherited (last segs "")); [exact H |].
  cbn [new_fs].
  destruct (snoc_or_nil segs) as [Hnil | (init & name & Hlast)].
  - unfold getNode in Hnode. fold segs in Hnode. rewrite Hnil in Hnode. discriminate.
  - rewrite Hlast, removelast_last in Hw. rewrite Hlast, removelast_last, last_last.
    apply child_keeps_directories with (children := children); try assumption.
    unfold getNode in Hnode. fold segs in Hnode.
    now rewrite Hlast, (walk_child _ _ _ _ Hw) in Hnode.
Qed.

Lemma shebang_keeps_directories (q : list string) :
  is_directory (walk q fileSystem) = true ->
  is_directory (walk q (new_fs (builtin "termux-fix-shebang" args cwd fileSystem))) = true.
Proof.
  intros H. destruct (arg0 args) as [fileName|] eqn:Harg.
  2:{ unfold builtin. cbn. now rewrite Harg. }
  destruct (getNode fileSystem (resolvePath cwd fileName)) as [[content|children]|] eqn:Hn.
  - rewrite (builtin_shebang_file _ _ _ _ _ Harg Hn).
    destruct (JS.split shebangSeparator content) as [|line0 lines]; [exact H |].
    destruct (JS.startsWith line0 "#!"); [|exact H].
    cbn [new_fs]. unfold mutate. now apply content_keeps_directories.
  - unfold builtin. cbn. now rewrite Harg, Hn.
  - unfold builtin. cbn. rewrite Harg, Hn.
    now destruct (getNodeInherited fileSystem (resolvePath cwd fileName)).
Qed.

Lemma builtin_keeps_directories (verb : string) (q : list string) :
  is_directory (walk q fileSystem) = true ->
  is_directory (walk q (new_fs (builtin verb args cwd fileSystem))) = true.
Proof.
  intros H.
  destruct (String.eqb_spec verb "mkdir") as [->|Hm];
    [now apply mkdir_keeps_directories |].
  destruct (String.eqb_spec verb "termux-fix-shebang") as [->|Hs];
    [now apply shebang_keeps_directories |].
  now rewrite builtin_fs.
Qed.

Lemma builtin_cwd_directory (verb : string) :
  is_directory (getNode fileSystem cwd) = true ->
  let r := builtin verb args cwd fileSystem in
  is_directory (getNode (new_fs r) (new_cwd r)) = true.
Proof.
  intros H r. subst r.
  destruct (String.eqb_spec verb "cd") as [->|Hcd].
  - rewrite builtin_cd.
    destruct (getNode fileSystem (resolvePath cwd (cdTarget args))) as [[|children]|] eqn:Hn;
      cbn [new_fs new_cwd]; try exact H.
    now rewrite Hn.
  - rewrite (builtin_cwd _ Hcd). unfold getNode. now apply builtin_keeps_directories.
Qed.

End Effects.

Lemma split_ws_go_not_nil (k : nat) (b : bool) (s : string) :
  JS.split_ws_go k b s <> [].
Proof.
  revert k b. induction s as [|c s IH]; intros k b; cbn [JS.split_ws_go];
    [discriminate |].
  destruct k as [|k]; [|apply IH].
  destruct (JS.ws_width (String c s)) as [|j].
  - specialize (IH 0 false). unfold JS.cons_head.
    destruct (JS.split_ws_go 0 false s); [contradiction | discriminate].
  - destruct b; [apply IH | discriminate].
Qed.

Lemma split_ws_not_nil (s : string) : JS.split_ws s <> [].
Proof. apply split_ws_go_not_nil. Qed.

Lemma handle_is_builtin (fullCommand cwd : string) (fileSystem : FileSystemNode) :
  exists verb args,
    JS.split_ws fullCommand = verb :: args /\
    handleFileSystemCommand fullCommand cwd fileSystem =
    builtin (JS.toLowerCase verb) args cwd fileSystem.
Proof.
  destruct (JS.split_ws fullCommand) as [|verb args] eqn:E.
  - now apply split_ws_not_nil in E.
  - exists verb, args. split; [reflexivity |]. now apply handle_tokens.
Qed.

(** X5.  What the built-ins can touch.  Whatever the command line: the
    working directory changes only when the verb is [cd]; the tree changes
    only when the verb is [mkdir] or [termux-fix-shebang]; and the result
    is [null] exactly when the verb, in lower case, is none of the seven
    built-in verbs. *)
Theorem builtin_effects (fullCommand cwd verb : string) (args : list string)
    (fileSystem : FileSystemNode) :
  JS.split_ws fullCommand = verb :: args ->
  let r := handleFileSystemCommand fullCommand cwd fileSystem in
  (new_cwd r <> cwd -> JS.toLowerCase verb = "cd") /\
  (new_fs r <> fileSystem ->
   JS.toLowerCase verb = "mkdir" \/ JS.toLowerCase verb = "termux-fix-shebang") /\
  (returned r = None <-> ~ In (JS.toLowerCase verb) builtinVerbs).
Proof.
  intros Htok r. subst r. rewrite (handle_tokens _ _ _ _ _ Htok).
  split; [|split].
  - intros H. destruct (String.eqb_spec (JS.toLowerCase verb) "cd"); [assumption |].
    exfalso. apply H. now apply builtin_cwd.
  - intros H.
    destruct (String.eqb_spec (JS.toLowerCase verb) "mkdir"); [now left |].
    destruct (String.eqb_spec (JS.toLowerCase verb) "termux-fix-shebang"); [now right |].
    exfalso. apply H. now apply builtin_fs.
  - apply builtin_null.
Qed.

Lemma builtin_effects_witness :
  let odd := "m" ++ kelvinSign ++ "dir" ++ noBreakSpace ++ "x" in
  JS.split_ws "LS -a" = ["LS"; "-a"] /\
  new_fs (handleFileSystemCommand "LS -a" "/home/kali" exampleTree) = exampleTree /\
  returned (handleFileSystemCommand "sudo reboot" "/home/kali" exampleTree) = None /\
  JS.split_ws odd = ["m" ++ kelvinSign ++ "dir"; "x"] /\
  JS.toLowerCase ("m" ++ kelvinSign ++ "dir") = "mkdir" /\
  returned (handleFileSystemCommand odd "/home/kali" exampleTree) = Some "" /\
  new_fs (handleFileSystemCommand odd "/home/kali" exampleTree) <> exampleTree.
Proof.
  intros odd.
  split; [reflexivity |]. split; [reflexivity |].
  destruct (builtin_effects "sudo reboot" "/home/kali" "sudo" ["reboot"] exampleTree eq_refl)
    as (_ & _ & Hnull).
  split; [apply Hnull; simpl; intuition discriminate |].
  split; [reflexivity |]. split; [reflexivity |]. split; [reflexivity |].
  intros Hsame. vm_compute in Hsame. discriminate Hsame.
Defined.

(** ** The repository name of a clone *)

Section RepoName.

Lemma has_slash_drop (n : nat) (s : string) :
  has_slash s = false -> has_slash (JS.drop n s) = false.
Proof.
  revert s. induction n as [|n IH]; intros s H; [exact H |].
  destruct s as [|c s]; [reflexivity |]. simpl in *.
  apply orb_false_iff in H as [_ H]. now apply IH.
Qed.

Lemma has_slash_removeFirst (pat s : string) :
  has_slash s = false -> has_slash (JS.removeFirst pat s) = false.
Proof.
  induction s as [|c s IH]; intros H.
  - cbn [JS.removeFirst]. destruct (String.prefix pat ""); [|reflexivity].
    now destruct (String.length pat).
  - cbn [JS.removeFirst]. destruct (String.prefix pat (String c s)).
    + now apply has_slash_drop.
    + simpl in *. apply orb_false_iff in H as [Hc H]. now rewrite Hc, IH.
Qed.

Lemma popped_in {A} (l : list A) (x : A) : JS.popped l = Some x -> In x l.
Proof.
  unfold JS.popped. intros H. apply nth_error_In in H. now apply in_rev.
Qed.

Lemma popped_snoc {A} (l : list A) (x : A) : JS.popped (l ++ [x]) = Some x.
Proof. unfold JS.popped. now rewrite rev_app_distr. Qed.

Lemma repoName_segment (repoUrl : string) : segment (repoNameOf repoUrl).
Proof.
  unfold repoNameOf.
  destruct (JS.popped (JS.split "/" repoUrl)) as [seg|] eqn:Hp;
    [|split; [discriminate | reflexivity]].
  destruct (String.eqb_spec (JS.removeFirst ".git" seg) "") as [|Hne];
    [split; [discriminate | reflexivity] |].
  split; [exact Hne |]. apply has_slash_removeFirst.
  apply popped_in in Hp.
  pose proof (split_slash_free repoUrl) as Hall.
  rewrite Forall_forall in Hall. now apply Hall.
Qed.

Lemma lastSegment_popped (front seg : string) :
  has_slash seg = false ->
  JS.popped (JS.split "/" (front ++ "/" ++ seg)) = Some seg.
Proof.
  intros H. rewrite split_slash_app, (split_no_slash _ H). apply popped_snoc.
Qed.

Lemma removeFirst_absent (pat s : string) :
  JS.includes s pat = false -> JS.removeFirst pat s = s.
Proof.
  induction s as [|c s IH]; cbn [JS.includes JS.removeFirst]; intros H.
  - apply orb_false_iff in H as [H _]. now rewrite H.
  - apply orb_false_iff in H as [Hp H]. now rewrite Hp, IH.
Qed.

Lemma prefix_cons (x y : ascii) (p s : string) :
  String.prefix (String x p) (String y s) = (x =? y)%char && String.prefix p s.
Proof.
  cbn [String.prefix]. destruct (ascii_dec x y) as [->|Hne].
  - now rewrite Ascii.eqb_refl.
  - apply Ascii.eqb_neq in Hne. now rewrite Hne.
Qed.

Lemma prefix_nil (s : string) : String.prefix "" s = true.
Proof. now destruct s. Qed.

Lemma prefix_of_nil (x : ascii) (p : string) : String.prefix (String x p) "" = false.
Proof. reflexivity. Qed.

(** No occurrence of the suffix begins inside a text that does not hold it
    and runs into a following occurrence: the suffix begins with a dot and
    has no other dot. *)
Lemma git_prefix_app (a rest : string) (c : ascii) :
  String.prefix ".git" (String c a) = false ->
  String.prefix ".git" (String c a ++ ".git" ++ rest) = false.
Proof.
  destruct a as [|d [|e [|f a]]]; cbn [String.append];
    rewrite ?prefix_cons, ?prefix_nil, ?prefix_of_nil;
    destruct ("." =? c)%char; cbn [andb]; try reflexivity;
    destruct ("g" =? d)%char; cbn [andb]; try reflexivity;
    destruct ("i" =? e)%char; cbn [andb]; try reflexivity;
    destruct ("t" =? f)%char; cbn [andb]; try reflexivity;
    discriminate.
Qed.

Lemma removeFirst_git (a rest : string) :
  JS.includes a ".git" = false ->
  JS.removeFirst ".git" (a ++ ".git" ++ rest) = a ++ rest.
Proof.
  induction a as [|c a IH]; intros H.
  - cbn [JS.removeFirst String.append].
    change (String.prefix ".git" (String "." (String "g" (String "i" (String "t" rest)))))
      with (String.prefix "" rest).
    now destruct rest.
  - cbn [JS.includes] in H. apply orb_false_iff in H as [Hp H].
    change (String c a ++ ".git" ++ rest) with (String c (a ++ ".git" ++ rest)).
    cbn [JS.removeFirst].
    change (String c (a ++ ".git" ++ rest)) with (String c a ++ ".git" ++ rest) at 1.
    rewrite (git_prefix_app _ _ _ Hp), (IH H). reflexivity.
Qed.

End RepoName.

(** X6.  The name of a clone.  The derived name is never empty and never
    holds a slash, so it names a direct child of the working directory.
    For a URL whose last slash-separated piece is [a.git] followed by
    [rest], with no [.git] inside [a], the name is [a] followed by [rest]
    (the first [.git] is the one removed), or [repository] when that is
    empty; for a URL whose last piece holds no [.git] the name is that
    piece, or [repository] when the piece is empty. *)
Theorem repoName_derivation (front a rest piece : string) :
  segment (repoNameOf (front ++ "/" ++ piece)) /\
  (has_slash (a ++ ".git" ++ rest) = false -> JS.includes a ".git" = false ->
   repoNameOf (front ++ "/" ++ a ++ ".git" ++ rest) =
   if a ++ rest =? "" then "repository" else a ++ rest) /\
  (has_slash piece = false -> JS.includes piece ".git" = false ->
   repoNameOf (front ++ "/" ++ piece) = if piece =? "" then "repository" else piece).
Proof.
  split; [apply repoName_segment |]. split.
  - intros Hs Ha. unfold repoNameOf.
    now rewrite (lastSegment_popped _ _ Hs), (removeFirst_git _ _ Ha).
  - intros Hs Hp. unfold repoNameOf.
    now rewrite (lastSegment_popped _ _ Hs), (removeFirst_absent _ _ Hp).
Qed.

Lemma repoName_derivation_witness :
  has_slash ("sample" ++ ".git" ++ "") = false /\
  JS.includes "sample" ".git" = false /\
  repoNameOf "https://example.com/sample.git" = "sample" /\
  repoNameOf "https://example.com/my.github.git" = "myhub.git" /\
  repoNameOf "https://example.com/" = "repository".
Proof.
  split; [reflexivity |]. split; [reflexivity |].
  destruct (repoName_derivation "https://example.com" "sample" "" "") as (_ & H1 & H2).
  destruct (repoName_derivation "https://example.com" "my" "hub.git" "") as (_ & H3 & _).
  split; [exact (H1 eq_refl eq_refl) |]. split; [exact (H3 eq_refl eq_refl) |].
  exact (H2 eq_refl eq_refl).
Defined.

(** ** The session after a command *)

Section Session.

Variable random : nat -> Q.
Variable simulateCommandOutput : string -> string + string.
Variable utcStringAgo : Q -> string.

Let run := executeCommand random simulateCommandOutput utcStringAgo.

Lemma closed_index (l : list HistoryItem) (x : HistoryItem) :
  List.length l + 1 = List.length (l ++ [x]).
Proof. rewrite length_app. reflexivity. Qed.

Lemma streamed_entry (l : list HistoryItem) (x : HistoryItem) (initialOutput : string)
    (progressLines : list string) (st : AppState) :
  history st = (l ++ [x])%list ->
  let st' :=
    stream (List.length l + 1) progressLines initialOutput
      (setHistory (append (mkItem output initialOutput)) st) in
  history st' =
    ((l ++ [x]) ++ [mkItem output (streamedText initialOutput progressLines)])%list /\
  cwd st' = cwd st /\ fileSystem st' = fileSystem st /\ isLoading st' = isLoading st.
Proof.
  intros Hh st'. subst st'. rewrite (closed_index l x). split.
  - apply (stream_history (l ++ [x])).
    unfold setHistory, append. cbn [history]. now rewrite Hh.
  - destruct (stream_others (List.length (l ++ [x])) progressLines initialOutput
                (setHistory (append (mkItem output initialOutput)) st))
      as (Hc & Hf & Hl).
    rewrite Hc, Hf, Hl. repeat split.
Qed.

(** The clone branch, whatever it meets: one output entry after the echoed
    command, the busy flag released, the working directory kept, and the
    tree either kept or handed to [createClonedDirectory]. *)
Lemma gitClone_outcome (trimmed : string) (l : list HistoryItem) (x : HistoryItem)
    (st : AppState) :
  history st = (l ++ [x])%list ->
  let st' := gitClone trimmed l st in
  (exists text, history st' = ((l ++ [x]) ++ [mkItem output text])%list) /\
  isLoading st' = false /\
  cwd st' = cwd st /\
  (fileSystem st' = fileSystem st \/
   exists repoUrl,
     cloneUrl trimmed = Some repoUrl /\
     getNode (fileSystem st) (cwd st ++ "/" ++ repoNameOf repoUrl) = None /\
     getNodeInherited (fileSystem st) (cwd st ++ "/" ++ repoNameOf repoUrl) = false /\
     history st' =
       ((l ++ [x]) ++
        [mkItem output
           (streamedText ("Cloning into '" ++ repoNameOf repoUrl ++ "'...")
              cloneProgressLines)])%list /\
     fileSystem st' =
       snd (createClonedDirectory (cwd st) (repoNameOf repoUrl) (fileSystem st))).
Proof.
  intros Hh st'. subst st'. unfold gitClone.
  destruct (cloneUrl trimmed) as [repoUrl|] eqn:Hurl.
  2:{ unfold finish, setIsLoading, setHistory, append. cbn. rewrite Hh.
      repeat split; eauto. }
  destruct (getNode (fileSystem st) (cwd st ++ "/" ++ repoNameOf repoUrl)) eqn:Hn.
  { unfold finish, setIsLoading, setHistory, append. cbn. rewrite Hh.
    repeat split; eauto. }
  destruct (getNodeInherited (fileSystem st) (cwd st ++ "/" ++ repoNameOf repoUrl))
    eqn:Hi.
  { unfold finish, setIsLoading, setHistory, append. cbn. rewrite Hh.
    repeat split; eauto. }
  cbv zeta.
  destruct (streamed_entry l x ("Cloning into '" ++ repoNameOf repoUrl ++ "'...")
              cloneProgressLines st Hh) as (H1 & H2 & H3 & H4).
  cbv zeta in H1, H2, H3, H4.
  unfold setIsLoading. cbn [history isLoading cwd fileSystem].
  rewrite H1, H2, H3.
  split; [eauto |]. split; [reflexivity |]. split; [reflexivity |].
  right. exists repoUrl. repeat split; assumption.
Qed.

Lemma gitFetch_outcome (l : list HistoryItem) (x : HistoryItem) (st : AppState) :
  history st = (l ++ [x])%list ->
  let st' := gitFetch random l st in
  history st' =
    ((l ++ [x]) ++
     [mkItem output (streamedText "Fetching origin" (fst (fetchProgressLines random 0)))])%list /\
  isLoading st' = false /\ cwd st' = cwd st /\ fileSystem st' = fileSystem st.
Proof.
  intros Hh st'. subst st'. unfold gitFetch.
  destruct (streamed_entry l x "Fetching origin" (fst (fetchProgressLines random 0)) st Hh)
    as (H1 & H2 & H3 & H4).
  cbv zeta in H1, H2, H3, H4.
  unfold setIsLoading. cbn [history isLoading cwd fileSystem].
  now rewrite H1, H2, H3.
Qed.

Lemma finish_outcome (text : string) (st : AppState) :
  history (finish text st) = (history st ++ [mkItem output text])%list /\
  isLoading (finish text st) = false /\
  cwd (finish text st) = cwd st /\ fileSystem (finish text st) = fileSystem st.
Proof. repeat split. Qed.

Lemma gitCommit_outcome (trimmed : string) (st : AppState) :
  exists text, gitCommit random trimmed st = finish text st.
Proof.
  unfold gitCommit. destruct (commitMatch trimmed) as [[g1 g2]|]; [|eauto].
  destruct (firstTruthy g1 g2); eauto.
Qed.

(** The branches of [executeCommand] for a line that is neither blank nor
    [clear], by their effect on the session. *)
Lemma executeCommand_outcome (commandLine : string) (st : AppState) :
  let trimmed := JS.trim commandLine in
  let st' := run commandLine st in
  trimmed <> "" -> JS.toLowerCase trimmed <> "clear" ->
  isLoading st' = false /\
  (exists outs,
      history st' = (history st ++ mkItem command trimmed :: outs)%list /\
      List.length outs <= 1 /\ Forall (fun item => type item = output) outs) /\
  ((cwd st' = cwd st /\ fileSystem st' = fileSystem st) \/
   (exists repoName,
       cwd st' = cwd st /\
       fileSystem st' = snd (createClonedDirectory (cwd st) repoName (fileSystem st))) \/
   (let r := handleFileSystemCommand trimmed (cwd st) (fileSystem st) in
    cwd st' = new_cwd r /\ fileSystem st' = new_fs r)).
Proof.
  intros trimmed st' Hne Hclear. subst st'. unfold run, executeCommand.
  fold trimmed. cbv zeta.
  destruct (String.eqb_spec trimmed ""); [contradiction |].
  destruct (String.eqb_spec (JS.toLowerCase trimmed) "clear"); [contradiction |].
  set (st0 := setIsLoading true (setHistory (append (mkItem command trimmed)) st)).
  assert (Hh0 : history st0 = (history st ++ [mkItem command trimmed])%list)
    by reflexivity.
  assert (Hsnoc : forall out : HistoryItem,
             ((history st ++ [mkItem command trimmed]) ++ [out])%list =
             (history st ++ mkItem command trimmed :: [out])%list).
  { intros out. now rewrite <- app_assoc. }
  destruct (JS.startsWith trimmed "git clone").
  { destruct (gitClone_outcome trimmed _ _ st0 Hh0) as ([text Ht] & Hl & Hc & Hf).
    cbv zeta in Ht, Hl, Hc, Hf.
    split; [exact Hl |]. split.
    - exists [mkItem output text]. rewrite Ht, Hsnoc.
      repeat split; [simpl; lia | repeat constructor].
    - destruct Hf as [Hf | (repoUrl & _ & _ & _ & _ & Hf)].
      + left. now rewrite Hc, Hf.
      + right. left. exists (repoNameOf repoUrl). now rewrite Hc, Hf. }
  assert (Hfin : forall text,
             isLoading (finish text st0) = false /\
             (exists outs,
                 history (finish text st0) =
                   (history st ++ mkItem command trimmed :: outs)%list /\
                 List.length outs <= 1 /\ Forall (fun item => type item = output) outs) /\
             ((cwd (finish text st0) = cwd st /\ fileSystem (finish text st0) = fileSystem st) \/
              (exists repoName,
                  cwd (finish text st0) = cwd st /\
                  fileSystem (finish text st0) =
                    snd (createClonedDirectory (cwd st) repoName (fileSystem st))) \/
              (let r := handleFileSystemCommand trimmed (cwd st) (fileSystem st) in
               cwd (finish text st0) = new_cwd r /\
               fileSystem (finish text st0) = new_fs r))).
  { intros text. split; [reflexivity |]. split; [|now left].
    exists [mkItem output text]. split; [apply (Hsnoc (mkItem output text)) |].
    split; [simpl; lia | repeat constructor]. }
  destruct (JS.startsWith trimmed "git commit").
  { destruct (gitCommit_outcome trimmed st0) as [text ->]. apply Hfin. }
  destruct (JS.toLowerCase trimmed =? "git log"); [apply Hfin |].
  destruct (JS.toLowerCase trimmed =? "git diff"); [apply Hfin |].
  destruct (JS.toLowerCase trimmed =? "git fetch").
  { destruct (gitFetch_outcome _ _ st0 Hh0) as (Hh & Hl & Hc & Hf).
    cbv zeta in Hh, Hl, Hc, Hf.
    split; [exact Hl |]. split; [|left; now rewrite Hc, Hf].
    eexists. rewrite Hh, Hsnoc. repeat split; [simpl; lia | repeat constructor]. }
  change (cwd st0) with (cwd st). change (fileSystem st0) with (fileSystem st).
  change (history st0) with (history st ++ [mkItem command trimmed])%list.
  destruct (returned (handleFileSystemCommand trimmed (cwd st) (fileSystem st)))
    as [text|].
  - split; [reflexivity |]. split; [|right; right; destruct (text =? ""); now split].
    destruct (text =? "").
    + exists []. cbn. repeat split; [lia | constructor].
    + exists [mkItem output text]. cbn. rewrite Hsnoc.
      repeat split; [lia | repeat constructor].
  - destruct (simulateCommandOutput trimmed); apply Hfin.
Qed.

Lemma clone_keeps_directories (cwd0 repoName : string) (fileSystem : FileSystemNode)
    (q : list string) :
  is_directory (walk q fileSystem) = true ->
  is_directory (walk q (snd (createClonedDirectory cwd0 repoName fileSystem))) = true.
Proof.
  intros H. unfold createClonedDirectory.
  destruct (getNode fileSystem cwd0) as [[|children]|] eqn:Hn; try exact H.
  destruct (prop_get children repoName) eqn:Hp; [exact H |].
  destruct (inherited repoName); [exact H |].
  cbn [snd]. unfold mutate.
  now apply child_keeps_directories with (children := children).
Qed.

End Session.

Section SessionTheorems.

Variable random : nat -> Q.
Variable simulateCommandOutput : string -> string + string.
Variable utcStringAgo : Q -> string.

Let run := executeCommand random simulateCommandOutput utcStringAgo.

Lemma executeCommand_blank (commandLine : string) (st : AppState) :
  JS.trim commandLine = "" -> run commandLine st = st.
Proof. intros H. unfold run, executeCommand. now rewrite H. Qed.

Lemma executeCommand_clear (commandLine : string) (st : AppState) :
  JS.trim commandLine <> "" ->
  JS.toLowerCase (JS.trim commandLine) = "clear" ->
  run commandLine st = mkApp [] false (cwd st) (fileSystem st).
Proof.
  intros Hne Hc. unfold run, executeCommand. cbv zeta.
  destruct (String.eqb_spec (JS.trim commandLine) ""); [contradiction |].
  now rewrite Hc.
Qed.

End SessionTheorems.

(** X7.  The working directory of the session always leads to a directory:
    if it does before a line is submitted, it does afterwards, whatever the
    line (a built-in, a scripted git command, [clear], or a line handed to
    the external responder), whatever [Math.random] returns and whatever
    the responder answers. *)
Theorem cwd_stays_directory (random : nat -> Q)
    (simulateCommandOutput : string -> string + string) (utcStringAgo : Q -> string)
    (commandLine : string) (st : AppState) :
  is_directory (getNode (fileSystem st) (cwd st)) = true ->
  let st' := executeCommand random simulateCommandOutput utcStringAgo commandLine st in
  is_directory (getNode (fileSystem st') (cwd st')) = true.
Proof.
  intros H st'. subst st'.
  destruct (String.eqb_spec (JS.trim commandLine) "") as [Hb|Hne].
  { now rewrite executeCommand_blank. }
  destruct (String.eqb_spec (JS.toLowerCase (JS.trim commandLine)) "clear") as [Hc|Hnc].
  { now rewrite executeCommand_clear. }
  destruct (executeCommand_outcome random simulateCommandOutput utcStringAgo
              commandLine st Hne Hnc) as (_ & _ & Hcases).
  destruct Hcases as [[-> ->] | [(repoName & -> & ->) | Hfs]].
  - exact H.
  - unfold getNode. now apply clone_keeps_directories.
  - cbv zeta in Hfs. destruct Hfs as [-> ->].
    destruct (handle_is_builtin (JS.trim commandLine) (cwd st) (fileSystem st))
      as (verb & args & _ & ->).
    now apply builtin_cwd_directory.
Qed.

Lemma cwd_stays_directory_witness :
  let st := mkApp [] false "/home/kali" exampleTree in
  let after line := executeCommand (fun _ => 0%Q) (fun _ => inl "") (fun _ => "") line st in
  is_directory (getNode (fileSystem st) (cwd st)) = true /\
  is_directory (getNode (fileSystem (after "cd documents")) (cwd (after "cd documents")))
    = true /\
  cwd (after "cd documents") = "/home/kali/documents" /\
  cwd (after "cd README.md") = "/home/kali".
Proof.
  intros st after. split; [reflexivity |]. split; [|split; reflexivity].
  apply (cwd_stays_directory (fun _ => 0%Q) (fun _ => inl "") (fun _ => "")
           "cd documents" st eq_refl).
Defined.

(** X8.  What one submitted line does to the history.  A line that is blank
    once trimmed leaves the session as it is.  Any other line releases the
    busy flag; [clear], in any letter case, empties the history; every
    other line appends the trimmed line as a command entry followed by at
    most one entry, which is an output entry (the streamed commands grow
    that one entry in place). *)
Theorem executeCommand_appends (random : nat -> Q)
    (simulateCommandOutput : string -> string + string) (utcStringAgo : Q -> string)
    (commandLine : string) (st : AppState) :
  let trimmed := JS.trim commandLine in
  let st' := executeCommand random simulateCommandOutput utcStringAgo commandLine st in
  (trimmed = "" -> st' = st) /\
  (trimmed <> "" ->
     isLoading st' = false /\
     (JS.toLowerCase trimmed = "clear" -> history st' = []) /\
     (JS.toLowerCase trimmed <> "clear" ->
        exists outs,
          history st' = (history st ++ mkItem command trimmed :: outs)%list /\
          List.length outs <= 1 /\
          Forall (fun item => type item = output) outs)).
Proof.
  intros trimmed st'. split.
  - intros Hb. now apply executeCommand_blank.
  - intros Hne.
    destruct (String.eqb_spec (JS.toLowerCase trimmed) "clear") as [Hc|Hnc].
    + subst st'. rewrite (executeCommand_clear _ _ _ _ _ Hne Hc).
      split; [reflexivity |]. split; [reflexivity | contradiction].
    + destruct (executeCommand_outcome random simulateCommandOutput utcStringAgo
                  commandLine st Hne Hnc) as (Hl & Hh & _).
      split; [exact Hl |]. split; [contradiction | intros _; exact Hh].
Qed.

Lemma executeCommand_appends_witness :
  let st := mkApp [mkItem output "Welcome"] true "/home/kali" exampleTree in
  let after line := executeCommand (fun _ => 0%Q) (fun _ => inl "") (fun _ => "") line st in
  JS.trim " whoami " <> "" /\
  JS.toLowerCase (JS.trim " whoami ") <> "clear" /\
  after " whoami " =
    mkApp [mkItem output "Welcome"; mkItem command "whoami"; mkItem output "kali"]
      false "/home/kali" exampleTree /\
  history (after "cd documents") = [mkItem output "Welcome"; mkItem command "cd documents"] /\
  history (after "CLEAR") = [] /\
  after "   " = st /\
  after noBreakSpace = st.
Proof.
  intros st after.
  destruct (executeCommand_appends (fun _ => 0%Q) (fun _ => inl "") (fun _ => "")
              "   " st) as [Hblank _].
  destruct (executeCommand_appends (fun _ => 0%Q) (fun _ => inl "") (fun _ => "")
              noBreakSpace st) as [Hblank' _].
  split; [discriminate |]. split; [discriminate |].
  split; [reflexivity |]. split; [reflexivity |]. split; [reflexivity |].
  split; [exact (Hblank eq_refl) | exact (Hblank' eq_refl)].
Defined.

(** ** Cloning, in general *)

Section CloneFacts.

Lemma child_of_directory (fileSystem : FileSystemNode) (cwd0 name : string)
    (children : Children) :
  segment name ->
  getNode fileSystem cwd0 = Some (Directory children) ->
  getNode fileSystem (cwd0 ++ "/" ++ name) = prop_get children name.
Proof.
  intros Hseg Hcwd. unfold getNode in *.
  rewrite parts_app, (parts_segment _ Hseg). now apply walk_child.
Qed.

(** Below a directory, a name is found on the prototype when it is an
    inherited name and the directory has no entry of it. *)
Lemma inherited_of_directory (fileSystem : FileSystemNode) (cwd0 name : string)
    (children : Children) :
  segment name ->
  getNode fileSystem cwd0 = Some (Directory children) ->
  getNodeInherited fileSystem (cwd0 ++ "/" ++ name) =
  match prop_get children name with
  | Some _ => false
  | None => inherited name
  end.
Proof.
  intros Hseg Hcwd. unfold getNode, getNodeInherited in *.
  now rewrite parts_app, (parts_segment _ Hseg), walkInherited_snoc, Hcwd.
Qed.

Lemma createClonedDirectory_fresh (fileSystem : FileSystemNode) (cwd0 name : string)
    (children : Children) :
  segment name ->
  getNode fileSystem cwd0 = Some (Directory children) ->
  getNode fileSystem (cwd0 ++ "/" ++ name) = None ->
  inherited name = false ->
  createClonedDirectory cwd0 name fileSystem =
    (true, update_at (parts cwd0) (set_child name (clonedTree name)) fileSystem) /\
  prop_get children name = None.
Proof.
  intros Hseg Hcwd Hfree Hown.
  rewrite (child_of_directory _ _ _ _ Hseg Hcwd) in Hfree.
  unfold createClonedDirectory. now rewrite Hcwd, Hfree, Hown.
Qed.

End CloneFacts.

(** X9.  [createClonedDirectory] for a name that is a path segment.  It
    succeeds exactly when the working directory leads to a directory,
    nothing is at [cwd/name], and the name is not one that every object
    inherits (for such a name the check of the entry finds a function of
    the prototype); when it fails the tree is the same; when it succeeds
    [cwd/name] leads to the generated repository (an empty [.git]
    directory, a [README.md] that begins with the name, and [src/main.js])
    and every path that does not pass through [cwd/name] leads to what it
    led to before. *)
Theorem createClonedDirectory_spec (fileSystem : FileSystemNode) (cwd0 name : string) :
  segment name ->
  let ok := fst (createClonedDirectory cwd0 name fileSystem) in
  let fs' := snd (createClonedDirectory cwd0 name fileSystem) in
  let dest := cwd0 ++ "/" ++ name in
  (ok = true <->
   is_directory (getNode fileSystem cwd0) = true /\ getNode fileSystem dest = None /\
   inherited name = false) /\
  (ok = false -> fs' = fileSystem) /\
  (ok = true ->
   getNode fs' dest = Some (clonedTree name) /\
   getNode fs' (dest ++ "/.git") = Some (Directory []) /\
   getNode fs' (dest ++ "/README.md") =
     Some (File ("# " ++ name ++ JS.nl ++ JS.nl ++ "A repository cloned with the simulator.")) /\
   getNode fs' (dest ++ "/src/main.js") =
     Some (File ("console.log(" ++ JS.dq ++ "Hello, World!" ++ JS.dq ++ ");")) /\
   forall q, (forall r, parts q <> (parts dest ++ r)%list) ->
             shape (getNode fs' q) = shape (getNode fileSystem q)).
Proof.
  intros Hseg ok fs' dest.
  destruct (getNode fileSystem cwd0) as [[content|children]|] eqn:Hcwd.
  - assert (E : createClonedDirectory cwd0 name fileSystem = (false, fileSystem))
      by (unfold createClonedDirectory; now rewrite Hcwd).
    subst ok fs'. rewrite E. cbn [fst snd is_directory].
    repeat split; try discriminate; intuition discriminate.
  - pose proof (child_of_directory _ _ _ _ Hseg Hcwd) as Hchild. fold dest in Hchild.
    destruct (prop_get children name) as [existing|] eqn:Hp.
    + assert (E : createClonedDirectory cwd0 name fileSystem = (false, fileSystem))
        by (unfold createClonedDirectory; now rewrite Hcwd, Hp).
      subst ok fs'. rewrite E, Hchild. cbn [fst snd].
      repeat split; try discriminate; intuition discriminate.
    + destruct (inherited name) eqn:Hown.
      { assert (E : createClonedDirectory cwd0 name fileSystem = (false, fileSystem))
          by (unfold createClonedDirectory; now rewrite Hcwd, Hp, Hown).
        subst ok fs'. rewrite E, Hchild. cbn [fst snd].
        repeat split; try discriminate; intuition discriminate. }
      destruct (createClonedDirectory_fresh _ _ _ _ Hseg Hcwd Hchild Hown) as [E _].
      subst ok fs'. rewrite E, Hchild. cbn [fst snd is_directory].
      assert (Hparts : parts dest = (parts cwd0 ++ [name])%list).
      { subst dest. now rewrite parts_app, (parts_segment _ Hseg). }
      assert (Hdest : getNode
                        (update_at (parts cwd0) (set_child name (clonedTree name)) fileSystem)
                        dest = Some (clonedTree name)).
      { unfold getNode. rewrite Hparts.
        now apply walk_new_child with (children := children). }
      split; [split; [now repeat split | reflexivity] |]. split; [discriminate |].
      intros _. split; [exact Hdest |].
      assert (Hbelow : forall sub,
                 getNode (update_at (parts cwd0) (set_child name (clonedTree name)) fileSystem)
                   (dest ++ "/" ++ sub) = walk (parts sub) (clonedTree name)).
      { intros sub. now rewrite getNode_below, Hdest. }
      split; [exact (Hbelow ".git") |]. split; [exact (Hbelow "README.md") |].
      split; [exact (Hbelow "src/main.js") |].
      intros q Hq. unfold getNode.
      apply walk_frame_child with (children := children); [exact Hcwd |].
      intros r. rewrite <- Hparts. apply Hq.
  - assert (E : createClonedDirectory cwd0 name fileSystem = (false, fileSystem))
      by (unfold createClonedDirectory; now rewrite Hcwd).
    subst ok fs'. rewrite E. cbn [fst snd is_directory].
    repeat split; try discriminate; intuition discriminate.
Qed.

Lemma createClonedDirectory_spec_witness :
  segment "sample" /\
  fst (createClonedDirectory "/home/kali" "sample" exampleTree) = true /\
  getNode (snd (createClonedDirectory "/home/kali" "sample" exampleTree))
    "/home/kali/sample/src/main.js" =
  Some (File ("console.log(" ++ JS.dq ++ "Hello, World!" ++ JS.dq ++ ");")) /\
  fst (createClonedDirectory "/home/kali" "documents" exampleTree) = false /\
  fst (createClonedDirectory "/home/kali/README.md" "sample" exampleTree) = false /\
  fst (createClonedDirectory "/home/kali" "constructor" exampleTree) = false.
Proof.
  assert (Hs : segment "sample") by (split; [discriminate | reflexivity]).
  split; [exact Hs |]. split; [reflexivity |].
  destruct (createClonedDirectory_spec exampleTree "/home/kali" "sample" Hs)
    as (_ & _ & Hok).
  destruct (Hok eq_refl) as (_ & _ & _ & Hmain & _).
  split; [exact Hmain |]. repeat split.
Defined.

(** A clone and its repetition, for any URL. *)
Lemma clone_then_again (random : nat -> Q)
    (simulateCommandOutput : string -> string + string) (utcStringAgo : Q -> string)
    (commandLine repoUrl : string) (st : AppState) :
  let trimmed := JS.trim commandLine in
  let name := repoNameOf repoUrl in
  let dest := cwd st ++ "/" ++ name in
  let run := executeCommand random simulateCommandOutput utcStringAgo commandLine in
  JS.startsWith trimmed "git clone" = true ->
  cloneUrl trimmed = Some repoUrl ->
  is_directory (getNode (fileSystem st) (cwd st)) = true ->
  getNode (fileSystem st) dest = None ->
  inherited name = false ->
  history (run st) =
    (history st ++
     [ mkItem command trimmed;
       mkItem output
         (streamedText ("Cloning into '" ++ name ++ "'...") cloneProgressLines) ])%list /\
  cwd (run st) = cwd st /\
  isLoading (run st) = false /\
  getNode (fileSystem (run st)) dest = Some (clonedTree name) /\
  history (run (run st)) =
    (history (run st) ++
     [ mkItem command trimmed; mkItem output (existsMessage name) ])%list /\
  fileSystem (run (run st)) = fileSystem (run st).
Proof.
  intros trimmed name dest run Hstart Hurl Hdir Hfree Hown.
  destruct (prefix_true_append _ _ Hstart) as [rest Hrest].
  pose proof (repoName_segment repoUrl) as Hseg. fold name in Hseg.
  destruct (getNode (fileSystem st) (cwd st)) as [[|children]|] eqn:Hcwd;
    try discriminate.
  destruct (createClonedDirectory_fresh _ _ _ _ Hseg Hcwd Hfree Hown) as [_ Hp].
  assert (Hinh : getNodeInherited (fileSystem st) dest = false).
  { subst dest. now rewrite (inherited_of_directory _ _ _ _ Hseg Hcwd), Hp. }
  assert (Hclone : forall s, run s =
            gitClone trimmed (history s)
              (setIsLoading true (setHistory (append (mkItem command trimmed)) s))).
  { intros s. subst run. fold trimmed in Hrest.
    rewrite (executeCommand_clone _ _ _ _ _ _ Hrest). now rewrite <- Hrest. }
  assert (Hfirst :
    history (run st) =
      ((history st ++ [mkItem command trimmed]) ++
       [ mkItem output
           (streamedText ("Cloning into '" ++ name ++ "'...") cloneProgressLines) ])%list /\
    cwd (run st) = cwd st /\
    isLoading (run st) = false /\
    fileSystem (run st) =
      mutate (fileSystem st) (cwd st) (set_child name (clonedTree name))).
  { rewrite Hclone.
    set (st0 := setIsLoading true (setHistory (append (mkItem command trimmed)) st)).
    pose proof (gitClone_fresh trimmed repoUrl st0
                  (history st ++ [mkItem command trimmed]) children
                  Hurl eq_refl Hcwd Hp Hown Hfree Hinh) as H.
    cbv zeta in H. rewrite removelast_last in H.
    apply H. now destruct (history st). }
  destruct Hfirst as (Hh & Hc & Hl & Hf).
  assert (Hdest : getNode (fileSystem (run st)) dest = Some (clonedTree name)).
  { rewrite Hf. unfold mutate, getNode. subst dest.
    rewrite parts_app, (parts_segment _ Hseg).
    now apply walk_new_child with (children := children). }
  rewrite <- app_assoc in Hh. cbn [List.app] in Hh.
  split; [exact Hh |]. split; [exact Hc |]. split; [exact Hl |]. split; [exact Hdest |].
  rewrite (Hclone (run st)).
  rewrite (gitClone_exists trimmed repoUrl _ _ Hurl).
  - cbn [finish setIsLoading setHistory history fileSystem]. unfold append.
    rewrite <- app_assoc. split; reflexivity.
  - left. cbn [setIsLoading setHistory fileSystem cwd]. rewrite Hc. fold name. fold dest.
    now rewrite Hdest.
Qed.

(** X10.  A clone from start to end.  For a submitted line that begins
    with [git clone] and has a URL as its third word, when the working
    directory leads to a directory in which the derived name is free, and
    that name is not one every object inherits: the
    history gains the echoed line and one output entry that holds the
    [Cloning into] line followed by the six progress lines, the working
    directory is kept, and the name now leads to the generated repository;
    submitting the same line again adds the echoed line and the fatal
    already-exists line and leaves the tree as it is. *)
Theorem git_clone_then_again (random : nat -> Q)
    (simulateCommandOutput : string -> string + string) (utcStringAgo : Q -> string)
    (commandLine repoUrl : string) (st : AppState) :
  let trimmed := JS.trim commandLine in
  let name := repoNameOf repoUrl in
  let dest := cwd st ++ "/" ++ name in
  let run := executeCommand random simulateCommandOutput utcStringAgo commandLine in
  JS.startsWith trimmed "git clone" = true ->
  cloneUrl trimmed = Some repoUrl ->
  is_directory (getNode (fileSystem st) (cwd st)) = true ->
  getNode (fileSystem st) dest = None ->
  inherited name = false ->
  history (run st) =
    (history st ++
     [ mkItem command trimmed;
       mkItem output
         (streamedText ("Cloning into '" ++ name ++ "'...") cloneProgressLines) ])%list /\
  cwd (run st) = cwd st /\
  isLoading (run st) = false /\
  getNode (fileSystem (run st)) dest = Some (clonedTree name) /\
  history (run (run st)) =
    (history (run st) ++
     [ mkItem command trimmed; mkItem output (existsMessage name) ])%list /\
  fileSystem (run (run st)) = fileSystem (run st).
Proof. apply clone_then_again. Qed.

Lemma git_clone_then_again_witness :
  let st := mkApp [] false "/home/kali" exampleTree in
  let line := "git clone https://example.com/sample.git" in
  let run := executeCommand (fun _ => 0%Q) (fun _ => inl "") (fun _ => "") line in
  JS.startsWith (JS.trim line) "git clone" = true /\
  cloneUrl (JS.trim line) = Some "https://example.com/sample.git" /\
  is_directory (getNode (fileSystem st) (cwd st)) = true /\
  getNode (fileSystem st) "/home/kali/sample" = None /\
  inherited "sample" = false /\
  getNode (fileSystem (run st)) "/home/kali/sample" = Some (clonedTree "sample") /\
  history (run (run st)) =
    (history (run st) ++
     [ mkItem command line;
       mkItem output
         "fatal: destination path 'sample' already exists and is not an empty directory." ])%list.
Proof.
  intros st line run.
  do 5 (split; [reflexivity |]).
  destruct (git_clone_then_again (fun _ => 0%Q) (fun _ => inl "") (fun _ => "") line
              "https://example.com/sample.git" st eq_refl eq_refl eq_refl eq_refl eq_refl)
    as (_ & _ & _ & Hdest & Hagain & _).
  split; [exact Hdest | exact Hagain].
Defined.

(** A clone whose derived name every object inherits: the lookup of the
    destination finds the function of the prototype, and the first clone
    already reports that the destination exists. *)
Example git_clone_inherited_name :
  let st := mkApp [] false "/home/kali" exampleTree in
  let line := "git clone https://example.com/constructor.git" in
  executeCommand (fun _ => 0%Q) (fun _ => inl "") (fun _ => "") line st =
  mkApp [ mkItem command line;
          mkItem output
            "fatal: destination path 'constructor' already exists and is not an empty directory." ]
    false "/home/kali" exampleTree.
Proof. reflexivity. Qed.

(** ** The clone of the specification's scenario *)

(** C8.  In a working directory that leads to a directory without a child
    [sample], the line [git clone https://example.com/sample.git] adds to
    the history the echoed line and one output entry, whose text is the
    [Cloning into] line followed by the six progress lines, the last of
    them the [Resolving deltas] line; [sample] then is a directory under
    the working directory that holds an empty [.git] directory, the file
    [README.md] and a directory [src] with the file [main.js].  The same
    line submitted again adds the echoed line and the fatal already-exists
    line, and leaves the tree as it is. *)
Theorem clone_sample_scenario (random : nat -> Q)
    (simulateCommandOutput : string -> string + string) (utcStringAgo : Q -> string)
    (st : AppState) :
  let line := "git clone https://example.com/sample.git" in
  let run := executeCommand random simulateCommandOutput utcStringAgo line in
  let dest := cwd st ++ "/sample" in
  is_directory (getNode (fileSystem st) (cwd st)) = true ->
  getNode (fileSystem st) dest = None ->
  history (run st) =
    (history st ++
     [ mkItem command line;
       mkItem output
         ("Cloning into 'sample'..." ++ JS.nl
          ++ "remote: Enumerating objects: 23, done." ++ JS.nl
          ++ "remote: Counting objects: 100% (23/23), done." ++ JS.nl
          ++ "remote: Compressing objects: 100% (13/13), done." ++ JS.nl
          ++ "remote: Total 23 (delta 5), reused 20 (delta 5), pack-reused 0" ++ JS.nl
          ++ "Receiving objects: 100% (23/23), 4.68 KiB | 4.68 MiB/s, done." ++ JS.nl
          ++ "Resolving deltas: 100% (5/5), done.") ])%list /\
  cwd (run st) = cwd st /\
  getNode (fileSystem (run st)) dest =
    Some (Directory
            [ (".git", Directory []);
              ("README.md",
                File ("# sample" ++ JS.nl ++ JS.nl
                      ++ "A repository cloned with the simulator."));
              ("src",
                Directory
                  [ ("main.js",
                      File ("console.log(" ++ JS.dq ++ "Hello, World!" ++ JS.dq
                            ++ ");")) ]) ]) /\
  getNode (fileSystem (run st)) (dest ++ "/.git") = Some (Directory []) /\
  shape (getNode (fileSystem (run st)) (dest ++ "/README.md")) =
    FileWith ("# sample" ++ JS.nl ++ JS.nl ++ "A repository cloned with the simulator.") /\
  shape (getNode (fileSystem (run st)) (dest ++ "/src")) = Dir /\
  shape (getNode (fileSystem (run st)) (dest ++ "/src/main.js")) =
    FileWith ("console.log(" ++ JS.dq ++ "Hello, World!" ++ JS.dq ++ ");") /\
  history (run (run st)) =
    (history (run st) ++
     [ mkItem command line;
       mkItem output
         "fatal: destination path 'sample' already exists and is not an empty directory." ])%list /\
  fileSystem (run (run st)) = fileSystem (run st).
Proof.
  intros line run dest Hdir Hfree.
  destruct (clone_then_again random simulateCommandOutput utcStringAgo line
              "https://example.com/sample.git" st eq_refl eq_refl Hdir Hfree eq_refl)
    as (Hh & Hc & _ & Hdest & Hagain & Hsame).
  change (getNode (fileSystem (run st)) dest = Some (clonedTree "sample")) in Hdest.
  assert (Hbelow : forall sub,
             getNode (fileSystem (run st)) (dest ++ "/" ++ sub) =
             walk (parts sub) (clonedTree "sample")).
  { intros sub. now rewrite getNode_below, Hdest. }
  split; [exact Hh |]. split; [exact Hc |]. split; [exact Hdest |].
  split; [exact (Hbelow ".git") |].
  split; [exact (f_equal shape (Hbelow "README.md")) |].
  split; [exact (f_equal shape (Hbelow "src")) |].
  split; [exact (f_equal shape (Hbelow "src/main.js")) |].
  split; [exact Hagain | exact Hsame].
Qed.

Lemma clone_sample_scenario_witness :
  let st := mkApp [] false "/home/kali" exampleTree in
  let line := "git clone https://example.com/sample.git" in
  let run := executeCommand (fun _ => 0%Q) (fun _ => inl "") (fun _ => "") line in
  is_directory (getNode (fileSystem st) (cwd st)) = true /\
  getNode (fileSystem st) "/home/kali/sample" = None /\
  shape (getNode (fileSystem (run st)) "/home/kali/sample/src/main.js") =
    FileWith ("console.log(" ++ JS.dq ++ "Hello, World!" ++ JS.dq ++ ");") /\
  fileSystem (run (run st)) = fileSystem (run st).
Proof.
  intros st line run.
  do 2 (split; [reflexivity |]).
  destruct (clone_sample_scenario (fun _ => 0%Q) (fun _ => inl "") (fun _ => "") st
              eq_refl eq_refl)
    as (_ & _ & _ & _ & _ & _ & Hmain & _ & Hsame).
  split; [exact Hmain | exact Hsame].
Defined.

(** ** The name of a clone against the specification *)

Section CloneName.

Lemma last_popped {A} (l : list A) (x d : A) : JS.popped l = Some x -> last l d = x.
Proof.
  destruct (snoc_or_nil l) as [-> | (init & y & ->)]; [discriminate |].
  rewrite popped_snoc, last_last. now intros [= ->].
Qed.

End CloneName.

(** C2, the program at the failing inputs.  For a URL whose last piece is
    [my.github.io], whatever comes before the last slash, the name the
    program derives is [myhub.io]: it removes the first [.git] of the
    piece, where the specification removes a [.git] at the end only and
    keeps the piece, which has none there, as it is. *)
Theorem clone_name_loses_inner_git (front : string) :
  let repoUrl := front ++ "/my.github.io" in
  repoNameOf repoUrl = "myhub.io" /\
  SpecClone.repoName repoUrl = "my.github.io" /\
  repoNameOf repoUrl <> SpecClone.repoName repoUrl.
Proof.
  intros repoUrl.
  assert (Hlast : JS.popped (JS.split "/" repoUrl) = Some "my.github.io")
    by (now apply lastSegment_popped).
  assert (Hcode : repoNameOf repoUrl = "myhub.io").
  { unfold repoNameOf. now rewrite Hlast. }
  assert (Hspec : SpecClone.repoName repoUrl = "my.github.io").
  { unfold SpecClone.repoName, SpecClone.lastPiece.
    now rewrite (last_popped _ _ "" Hlast). }
  split; [exact Hcode |]. split; [exact Hspec |].
  rewrite Hcode, Hspec. discriminate.
Qed.

(** The same in a session: the clone of [https://example.com/my.github.io]
    announces and creates [myhub.io]. *)
Example clone_name_session :
  let st := mkApp [] false "/home/kali" exampleTree in
  let st' :=
    executeCommand (fun _ => 0%Q) (fun _ => inl "") (fun _ => "")
      "git clone https://example.com/my.github.io" st in
  JS.startsWith (content (last (history st') (mkItem output "")))
    "Cloning into 'myhub.io'..." = true /\
  is_directory (getNode (fileSystem st') "/home/kali/myhub.io") = true /\
  getNode (fileSystem st') "/home/kali/my.github.io" = None.
Proof. repeat split. Qed.
